(** * Secret-vault wrapper: allotment, fan-out and read reassembly

    A shallow embedding of the two JavaScript classes of the repository,
    [NilQLWrapper] (nilQl/wrapper.js) and [SecretVaultWrapper]
    (the vault wrapper), together with the properties of the design
    document that can be stated over them.

    Conventions of the embedding.
    - JavaScript values are the trees of [JS.value]; numbers are the
      integers (status codes and JSON integers are all the code handles),
      strings are strings of bytes, a character outside ASCII being the
      bytes of its UTF-8 form.
    - An object is the list of its own enumerable properties in the
      order in which they were written; writing a property replaces it in
      place or appends it ([JS.obj_set]).  This is [Object.entries] order
      but for keys that are array indices, which JavaScript lists first
      and in ascending order: the list keeps such a key where it was
      written, so that of an object with such keys the properties and
      their values are as in JavaScript, and their order is not.  An
      assignment [o[k] = v] writes no property when [k] is [__proto__]
      ([JS.obj_put]); the prototype that it installs instead is not part
      of a value.
    - A function that can throw returns a [JS.result]; an [await] on a
      rejected promise is a [Throw].  What is thrown by the runtime and
      by the libraries is an [Error] with a message.
    - The libraries the code calls (nilql, uuid, did-jwt, fetch, JSON) are
      interfaces ([Nilql], [World]); the code is a function of them.  The
      body of a request is the payload itself, [JSON.stringify] being
      read as the identity.
    - Randomness (key generation, encryption, identifiers) is a counter
      that the code threads through its calls.
    - Module [Heap] gives the write path a second time, over a store of
      objects, for the one property that is about object identity.
    - The schema operations of the vault ([SecretVaultSchemas]), the
      handlers of the server ([Server]), whose database client is an
      interface as well, and the one pure function of the widget
      ([Widget]) follow the two classes. *)

From Stdlib Require Import ZArith NArith Lia Ascii.
From stdpp Require Import base option list strings pretty.

Local Open Scope string_scope.
Local Open Scope list_scope.
Set Warnings "-register-all".

(** ** JavaScript values *)

Module JS.

Inductive value : Type :=
  | VUndef
  | VNull
  | VBool (b : bool)
  | VNum (n : Z)
  | VStr (s : string)
  | VArr (xs : list value)
  | VObj (fields : list (string * value))
  | VErr (message : string).

(** Outcome of a call that may throw; [Throw e] carries the thrown value. *)
Inductive result (A : Type) : Type :=
  | Ok (a : A)
  | Throw (e : value).
Arguments Ok {A} a.
Arguments Throw {A} e.

Definition bind {A B} (r : result A) (k : A -> result B) : result B :=
  match r with
  | Ok a => k a
  | Throw e => Throw e
  end.

Notation "'let!' x ':=' c 'in' k" := (bind c (fun x => k))
  (at level 10, x name, c at level 200, k at level 200).

Fixpoint mapM {A B} (f : A -> result B) (l : list A) : result (list B) :=
  match l with
  | [] => Ok []
  | a :: l' => let! b := f a in let! bs := mapM f l' in Ok (b :: bs)
  end.

(** [typeof v === "object" && v !== null] *)
Definition is_object (v : value) : bool :=
  match v with
  | VArr _ | VObj _ | VErr _ => true
  | _ => false
  end.

(** Truthiness, as tested by [!v], [v && _], [v || _] and [if (v)]. *)
Definition truthy (v : value) : bool :=
  match v with
  | VUndef | VNull => false
  | VBool b => b
  | VNum n => negb (Z.eqb n 0)
  | VStr s => negb (String.eqb s EmptyString)
  | VArr _ | VObj _ | VErr _ => true
  end.

(** [a === b].  Primitives compare by value.  Two objects are equal only
    when they are the same object; the values compared by the code come
    from distinct records, hence distinct objects. *)
Definition strict_eq (a b : value) : bool :=
  match a, b with
  | VUndef, VUndef => true
  | VNull, VNull => true
  | VBool x, VBool y => Bool.eqb x y
  | VNum x, VNum y => Z.eqb x y
  | VStr x, VStr y => String.eqb x y
  | _, _ => false
  end.

Fixpoint assoc {V : Type} (k : string) (fs : list (string * V)) : option V :=
  match fs with
  | [] => None
  | (k', v) :: fs' => if String.eqb k k' then Some v else assoc k fs'
  end.

(** [k in v], for an object [v]. *)
Definition has_key (k : string) (v : value) : bool :=
  match v with
  | VObj fs => match assoc k fs with Some _ => true | None => false end
  | _ => false
  end.

(** [v[k]] for a name [k] that is not an array index, on a value that is
    neither [undefined] nor [null]. *)
Definition get (v : value) (k : string) : value :=
  match v with
  | VObj fs => match assoc k fs with Some x => x | None => VUndef end
  | VErr m => if String.eqb k "message" then VStr m else VUndef
  | _ => VUndef
  end.

Definition TypeError (m : string) : value := VErr m.

(** [v.k] as an expression: reading a property of [undefined] or [null]
    throws a TypeError. *)
Definition prop (v : value) (k : string) : result value :=
  match v with
  | VUndef | VNull =>
      Throw (TypeError ("Cannot read properties of undefined or null (reading '"
                        +:+ k +:+ "')"))
  | _ => Ok (get v k)
  end.

(** Writing the own property [k] of an object, on its property list: the
    property is replaced where it is, or added at the end. *)
Fixpoint obj_set {V : Type} (k : string) (v : V) (fs : list (string * V))
  : list (string * V) :=
  match fs with
  | [] => [(k, v)]
  | (k', v') :: fs' =>
      if String.eqb k k' then (k, v) :: fs' else (k', v') :: obj_set k v fs'
  end.

(** [o[k] = v] on an object that an object literal created.  The name
    [__proto__] is an accessor that the object inherits: assigning to it
    changes the prototype of [o], or does nothing when [v] is not an
    object, and writes no property; every other name is written as an own
    property. *)
Definition obj_put {V : Type} (k : string) (v : V) (fs : list (string * V))
  : list (string * V) :=
  if String.eqb k "__proto__" then fs else obj_set k v fs.

(** [a[i] = v] on the elements of an array: in range it replaces, at the
    end it appends, beyond the end JavaScript leaves holes, which read as
    [undefined] ([hole]). *)
Definition arr_set {V : Type} (hole : V) (i : nat) (v : V) (xs : list V)
  : list V :=
  if decide (i < length xs)%nat then <[i := v]> xs
  else xs ++ replicate (i - length xs) hole ++ [v].

(** [xs[i]], [undefined] out of range. *)
Definition index (xs : list value) (i : nat) : value :=
  match xs !! i with
  | Some x => x
  | None => VUndef
  end.

Fixpoint chars (s : string) : list value :=
  match s with
  | EmptyString => []
  | String c s' => VStr (String c EmptyString) :: chars s'
  end.

Fixpoint indexed {V : Type} (i : nat) (xs : list V) : list (string * V) :=
  match xs with
  | [] => []
  | x :: xs' => (pretty (N.of_nat i), x) :: indexed (S i) xs'
  end.

(** The own enumerable properties copied by [{...v}]. *)
Definition own_props (v : value) : list (string * value) :=
  match v with
  | VObj fs => fs
  | VArr xs => indexed 0 xs
  | VStr s => indexed 0 (chars s)
  | _ => []
  end.

(** An object literal [{ k1: v1, ...rest, k2: v2 }] evaluates left to
    right; every property is written with [obj_set]. *)
Definition assign {V : Type} (fs : list (string * V)) (o : list (string * V))
  : list (string * V) :=
  fold_left (fun acc kv => obj_set (fst kv) (snd kv) acc) fs o.

(** [for (const x of v)]: arrays and strings are iterable. *)
Definition iterate (v : value) : result (list value) :=
  match v with
  | VArr xs => Ok xs
  | VStr s => Ok (chars s)
  | _ => Throw (TypeError "value is not iterable")
  end.

End JS.

Import JS.

(** ** The libraries the wrappers call *)

(** The secret-sharing library [@nillion/nilql].  Key generation and
    encryption draw randomness; the [nat] argument stands for the state of
    the random source at the call. *)
Record Nilql : Type := {
  (** [nilql.SecretKey.generate(cluster, operations, seed)]; the seed is
      [undefined] when the call passes two arguments *)
  SecretKey_generate : value -> value -> value -> nat -> result value;
  (** [nilql.ClusterKey.generate(cluster, operations)] *)
  ClusterKey_generate : value -> value -> nat -> result value;
  (** [nilql.encrypt(secretKey, plaintext)] *)
  nilql_encrypt : value -> value -> nat -> result value;
  (** [nilql.decrypt(secretKey, shares)] *)
  nilql_decrypt : value -> value -> result value;
  (** [nilql.allot(document)], an array of documents *)
  nilql_allot : value -> result (list value);
  (** [nilql.unify(secretKey, documents)] *)
  nilql_unify : value -> list value -> result value
}.

(** What [fetch] settles to: a rejection (no connection, bad URL, ...) or
    a response with its status, its content-type header and its body. *)
Inductive fetch_outcome : Type :=
  | NetworkError (message : string)
  | Response (status : N) (contentType : option string) (text : string).

(** Everything outside the process: identifier generation, token signing,
    the network, and the JSON reader of the runtime. *)
Record World : Type := {
  (** [uuidv4()], indexed by the state of the random source *)
  uuidv4 : nat -> string;
  (** [createJWT] for a node identity with the signer of the credentials,
      as called by [generateNodeToken]; a failure is an Error with a
      message *)
  createJWT : string -> string + string;
  (** [fetch(url, { method, headers: { Authorization: Bearer token }, body })];
      the body is the payload that [JSON.stringify] serialises, absent for
      a GET *)
  fetch : string -> string -> string -> option value -> fetch_outcome;
  (** [JSON.parse(text)]; [None] is a SyntaxError *)
  JSON_parse : string -> option value;
  (** the message of the SyntaxError raised for a text *)
  syntax_error_message : string -> string
}.

(** ** NilQLWrapper (nilQl/wrapper.js) *)

Module KeyType.

Definition CLUSTER : value := VStr "cluster".

Definition SECRET : value := VStr "secret".

End KeyType.

Module OperationType.

Definition STORE : string := "store".

Definition SUM : string := "sum".

Definition MATCH : string := "match".

End OperationType.

Module NilQLWrapper.

Record t : Type := {
  cluster : value;
  secretKey : value;
  secretKeySeed : value;
  operation : value;
  keyType : value
}.

(** A default parameter value applies when the argument is [undefined]. *)
Definition default_arg (arg dflt : value) : value :=
  match arg with
  | VUndef => dflt
  | _ => arg
  end.

Definition constructor (cluster : value) (operation : string)
    (secretKey secretKeySeed keyType : value) : t :=
  {| cluster := cluster;
     secretKey := default_arg secretKey VNull;
     secretKeySeed := default_arg secretKeySeed VNull;
     operation := VObj [(operation, VBool true)];
     keyType := default_arg keyType KeyType.CLUSTER |}.

Definition set_secretKey (k : value) (e : t) : t :=
  {| cluster := cluster e;
     secretKey := k;
     secretKeySeed := secretKeySeed e;
     operation := operation e;
     keyType := keyType e |}.

Definition is_null (v : value) : bool :=
  match v with
  | VNull => true
  | _ => false
  end.

Definition NotInitialized : value :=
  VErr "NilQLWrapper not initialized. Call init() first.".

Definition UnsupportedKeyType : value :=
  VErr "Unsupported key type".

Section Engine.
Context (lib : Nilql).

(** [init()] mutates [this]; the model returns how the call ended together
    with the object as the call left it. *)
Definition init (e : t) (tick : nat) : result unit * t :=
  let seeded : result unit * t :=
    if truthy (secretKeySeed e) && is_null (secretKey e) then
      match SecretKey_generate lib (cluster e) (operation e) (secretKeySeed e) tick with
      | Ok k => (Ok tt, set_secretKey k e)
      | Throw err => (Throw err, e)
      end
    else (Ok tt, e) in
  match seeded with
  | (Throw err, e1) => (Throw err, e1)
  | (Ok _, e1) =>
      if is_null (secretKey e1) then
        if strict_eq (keyType e1) KeyType.SECRET then
          match SecretKey_generate lib (cluster e1) (operation e1) VUndef tick with
          | Ok k => (Ok tt, set_secretKey k e1)
          | Throw err => (Throw err, e1)
          end
        else if strict_eq (keyType e1) KeyType.CLUSTER then
          match ClusterKey_generate lib (cluster e1) (operation e1) tick with
          | Ok k => (Ok tt, set_secretKey k e1)
          | Throw err => (Throw err, e1)
          end
        else (Throw UnsupportedKeyType, e1)
      else (Ok tt, e1)
  end.

Definition encrypt (e : t) (data : value) (tick : nat) : result value :=
  if negb (truthy (secretKey e)) then Throw NotInitialized
  else nilql_encrypt lib (secretKey e) data tick.

Definition decrypt (e : t) (shares : value) : result value :=
  if negb (truthy (secretKey e)) then Throw NotInitialized
  else nilql_decrypt lib (secretKey e) shares.

(** The body of the [for] loop of [encryptDeep] for one entry, [rec] being
    the recursive call: it yields the value stored under the entry's key
    and the state of the random source afterwards. *)
Definition encryptEntry (rec : value -> nat -> result (value * nat))
    (key : value) (v : value) (tick : nat) : result (value * nat) :=
  if is_object v then
    if has_key "%allot" v then
      let! s := nilql_encrypt lib key (get v "%allot") tick in
      Ok (VObj [("%allot", s)], S tick)
    else rec v tick
  else Ok (v, tick).

(** [for (const [key, value] of Object.entries(obj))] on an object, with
    [encrypted] as accumulator. *)
Fixpoint encryptProps (step : value -> nat -> result (value * nat))
    (fs : list (string * value)) (encrypted : list (string * value))
    (tick : nat) : result (list (string * value) * nat) :=
  match fs with
  | [] => Ok (encrypted, tick)
  | (k, v) :: fs' =>
      let! r := step v tick in
      encryptProps step fs' (obj_put k (fst r) encrypted) (snd r)
  end.

(** The same loop on an array, whose entries are its indices. *)
Fixpoint encryptElems (step : value -> nat -> result (value * nat))
    (i : nat) (xs : list value) (encrypted : list value)
    (tick : nat) : result (list value * nat) :=
  match xs with
  | [] => Ok (encrypted, tick)
  | v :: xs' =>
      let! r := step v tick in
      encryptElems step (S i) xs' (arr_set VUndef i (fst r) encrypted) (snd r)
  end.

Fixpoint encryptDeep (key : value) (obj : value) (tick : nat) {struct obj}
  : result (value * nat) :=
  match obj with
  | VArr xs =>
      let! r := encryptElems (encryptEntry (encryptDeep key) key) 0 xs [] tick in
      Ok (VArr (fst r), snd r)
  | VObj fs =>
      let! r := encryptProps (encryptEntry (encryptDeep key) key) fs [] tick in
      Ok (VObj (fst r), snd r)
  | VErr _ => Ok (VObj [], tick)
  | _ => Ok (obj, tick)
  end.

Definition prepareAndAllot (e : t) (data : value) (tick : nat)
  : result (list value * nat) :=
  if negb (truthy (secretKey e)) then Throw NotInitialized
  else
    let! r := encryptDeep (secretKey e) data tick in
    let! shares := nilql_allot lib (fst r) in
    Ok (shares, snd r).

Definition unify (e : t) (shares : list value) : result value :=
  if negb (truthy (secretKey e)) then Throw NotInitialized
  else nilql_unify lib (secretKey e) shares.

End Engine.
End NilQLWrapper.

(** ** Strings: the two patterns of [makeRequest] *)

Module Str.

Definition is_digit (c : ascii) : bool :=
  let n := nat_of_ascii c in (48 <=? n)%nat && (n <=? 57)%nat.

(** [.] of a regular expression matches anything but a line terminator:
    line feed, carriage return, and the line and paragraph separators
    U+2028 and U+2029.  The first two are one byte each. *)
Definition is_line_terminator (c : ascii) : bool :=
  let n := nat_of_ascii c in (n =? 10)%nat || (n =? 13)%nat.

(** The two separators are three bytes each in a string of bytes, 226 128
    168 and 226 128 169. *)
Definition is_separator (s : string) : bool :=
  match s with
  | String a (String b (String c _)) =>
      (nat_of_ascii a =? 226)%nat && (nat_of_ascii b =? 128)%nat
      && ((nat_of_ascii c =? 168)%nat || (nat_of_ascii c =? 169)%nat)
  | _ => false
  end.

(** A line terminator starts the string. *)
Definition at_line_terminator (s : string) : bool :=
  match s with
  | String c _ => is_line_terminator c || is_separator s
  | EmptyString => false
  end.

Fixpoint drop (n : nat) (s : string) : string :=
  match n, s with
  | O, _ => s
  | S n', String _ s' => drop n' s'
  | S _, EmptyString => EmptyString
  end.

(** [hay.includes(needle)] *)
Fixpoint includes (needle hay : string) : bool :=
  String.prefix needle hay ||
  match hay with
  | EmptyString => false
  | String _ hay' => includes needle hay'
  end.

Fixpoint take_digits (s : string) : string :=
  match s with
  | String c s' => if is_digit c then String c (take_digits s') else EmptyString
  | EmptyString => EmptyString
  end.

(** The string up to its first line terminator. *)
Fixpoint line (s : string) : string :=
  match s with
  | String c s' =>
      if at_line_terminator s then EmptyString else String c (line s')
  | EmptyString => EmptyString
  end.

(** The longest prefix of [s] that ends with a closing brace, if [s]
    has one. *)
Fixpoint upto_last_brace (s : string) : option string :=
  match s with
  | EmptyString => None
  | String c s' =>
      match upto_last_brace s' with
      | Some r => Some (String c r)
      | None => if Ascii.eqb c "}" then Some (String c EmptyString) else None
      end
  end.

(** [message.match(/status: (\d+)/)]: the first capture group of the
    leftmost match. *)
Fixpoint match_status (message : string) : option string :=
  let here :=
    if String.prefix "status: " message then
      match take_digits (drop 8 message) with
      | EmptyString => None
      | ds => Some ds
      end
    else None in
  match here with
  | Some ds => Some ds
  | None =>
      match message with
      | EmptyString => None
      | String _ rest => match_status rest
      end
  end.

(** [message.match(/body: ({.*})/)]: the group opens at the brace after
    the leftmost [body: ] that has a closing brace later on its line, and
    the greedy [.*] runs to the last closing brace of that line. *)
Fixpoint match_body (message : string) : option string :=
  let here :=
    if String.prefix "body: {" message then
      match upto_last_brace (drop 7 (line message)) with
      | Some r => Some (String "{" r)
      | None => None
      end
    else None in
  match here with
  | Some b => Some b
  | None =>
      match message with
      | EmptyString => None
      | String _ rest => match_body rest
      end
  end.

(** [Number.parseInt] of a string of decimal digits. *)
Fixpoint parse_digits (acc : Z) (s : string) : Z :=
  match s with
  | EmptyString => acc
  | String c s' =>
      parse_digits (10 * acc + Z.of_nat (nat_of_ascii c - 48)) s'
  end.

Definition parseInt (s : string) : Z := parse_digits 0 s.

End Str.

(** ** SecretVaultWrapper *)

Module SecretVaultWrapper.

(** A configured node: its URL and its identity. *)
Record node : Type := { url : string; did : string }.

Definition node_value (n : node) : value :=
  VObj [("url", VStr (url n)); ("did", VStr (did n))].

Record t : Type := {
  nodes : list node;
  schemaId : value;
  operation : string;
  secretKey : value;
  secretKeySeed : value;
  nilqlWrapper : option NilQLWrapper.t
}.

Definition constructor (nodes : list node) (schemaId : value)
    (operation : string) (secretKey secretKeySeed : value) : t :=
  {| nodes := nodes;
     schemaId := NilQLWrapper.default_arg schemaId VNull;
     operation := operation;
     secretKey := NilQLWrapper.default_arg secretKey VNull;
     secretKeySeed := NilQLWrapper.default_arg secretKeySeed VNull;
     nilqlWrapper := None |}.

(** What [Promise.allSettled] reports for one promise. *)
Inductive settled : Type :=
  | Fulfilled (v : value)
  | Rejected (reason : value).

(** A group of the read reassembly, [{ shares, recordIndex }]. *)
Record group : Type := { shares : list value; recordIndex : value }.

Section Vault.
Context (w : World) (lib : Nilql).

Definition generateNodeToken (nodeDid : string) : result string :=
  match createJWT w nodeDid with
  | inl jwt => Ok jwt
  | inr message => Throw (VErr message)
  end.

(** [response.ok] *)
Definition response_ok (status : N) : bool :=
  (200 <=? status)%N && (status <=? 299)%N.

(** The [try] block of [makeRequest]. *)
Definition request (nodeUrl endpoint token : string) (payload : value)
    (method : string) : result value :=
  match fetch w (nodeUrl +:+ "/api/v1/" +:+ endpoint) method token
          (if String.eqb method "GET" then None else Some payload) with
  | NetworkError message => Throw (VErr message)
  | Response status contentType text =>
      if negb (response_ok status) then
        Throw (VErr ("HTTP error! status: " +:+ pretty status
                     +:+ ", body: " +:+ text))
      else
        match contentType with
        | Some ct =>
            if Str.includes "application/json" ct then
              match JSON_parse w text with
              | Some data =>
                  Ok (VObj (assign (("status", VNum (Z.of_N status))
                                    :: own_props data) []))
              | None => Throw (VErr (syntax_error_message w text))
              end
            else Ok (VObj [("status", VNum (Z.of_N status))])
        | None => Ok (VObj [("status", VNum (Z.of_N status))])
        end
  end.

(** The [catch] block of [makeRequest], for the caught [error]. *)
Definition request_failed (error : value) : result value :=
  let message :=
    match get error "message" with
    | VStr m => m
    | _ => EmptyString
    end in
  let statusMatch := Str.match_status message in
  let bodyMatch := Str.match_body message in
  let status :=
    match statusMatch with
    | Some ds => VNum (Str.parseInt ds)
    | None => VNull
    end in
  let! body :=
    match bodyMatch with
    | Some b =>
        match JSON_parse w b with
        | Some v => Ok v
        | None => Throw (VErr (syntax_error_message w b))
        end
    | None => Ok (VObj [("errors", VArr [error])])
    end in
  Ok (VObj [("status", status); ("error", body)]).

Definition makeRequest (nodeUrl endpoint token : string) (payload : value)
    (method : string) : result value :=
  match request nodeUrl endpoint token payload method with
  | Ok v => Ok v
  | Throw error => request_failed error
  end.

(** One leg of a fan-out.  The [try] block obtains a token and makes the
    request. *)
Definition tryNode (n : node) (endpoint : string) (payload : value)
  : result value :=
  let! jwt := generateNodeToken (did n) in
  makeRequest (url n) endpoint jwt payload "POST".

(** The leg returns the result paired with the node; its [catch] logs the
    message of the error and rethrows the error paired with the node. *)
Definition requestNode (n : node) (endpoint : string) (payload : value)
  : settled :=
  match tryNode n endpoint payload with
  | Ok result =>
      Fulfilled (VObj [("result", result); ("node", node_value n)])
  | Throw error =>
      Rejected (VObj [("error", error); ("node", node_value n)])
  end.

(** [Promise.allSettled(promises)] resolves to one report per promise, in
    the order of [promises]. *)
Definition allSettled (promises : list settled) : list settled := promises.

(** How the reports come about: [Promise.allSettled] keeps one slot per
    promise, the promise at index [i] fills slot [i] when it settles, and
    the result is read once every slot is filled.  [order] lists the
    indices in the order the promises settle. *)
Definition settle (promises : list settled) (slots : list (option settled))
    (i : nat) : list (option settled) :=
  match promises !! i with
  | Some s => <[i := Some s]> slots
  | None => slots
  end.

Fixpoint filled (slots : list (option settled)) : option (list settled) :=
  match slots with
  | [] => Some []
  | None :: _ => None
  | Some s :: slots' =>
      match filled slots' with
      | Some l => Some (s :: l)
      | None => None
      end
  end.

Definition allSettled_in (order : list nat) (promises : list settled)
  : option (list settled) :=
  filled (fold_left (settle promises) order
            (replicate (length promises) None)).

(** The mapping of the settled reports to outcomes; [extra] are the
    properties an operation adds after [node] to a fulfilled outcome. *)
Definition outcome (extra : list (string * value)) (settledResult : settled)
  : value :=
  match settledResult with
  | Fulfilled v =>
      VObj (assign (own_props (get v "result")
                    ++ ("node", get v "node") :: extra) [])
  | Rejected reason =>
      VObj [("error", get reason "error"); ("node", get reason "node")]
  end.

(** *** flushData *)

Definition flushDataFromNode (v : t) (n : node) : settled :=
  requestNode n "data/flush" (VObj [("schema", schemaId v)]).

Definition flushLegs (v : t) : list settled :=
  map (flushDataFromNode v) (nodes v).

Definition flushData (v : t) : list value :=
  map (outcome []) (allSettled (flushLegs v)).

(** *** writeToNodes *)

(** The callback of [data.map]: a record without a truthy [_id] is copied
    with a generated one. *)
Definition withId (record : value) (tick : nat) : result (value * nat) :=
  let! id := prop record "_id" in
  if negb (truthy id) then
    Ok (VObj (assign (own_props record ++ [("_id", VStr (uuidv4 w tick))]) []),
        S tick)
  else Ok (record, tick).

Fixpoint idData (data : list value) (tick : nat)
  : result (list value * nat) :=
  match data with
  | [] => Ok ([], tick)
  | record :: data' =>
      let! r := withId record tick in
      let! rs := idData data' (snd r) in
      Ok (fst r :: fst rs, snd rs)
  end.

Definition nilql (v : t) : result NilQLWrapper.t :=
  match nilqlWrapper v with
  | Some e => Ok e
  | None => Throw (TypeError "Cannot read properties of null")
  end.

(** The loop of [allotData], with [encryptedRecords] as accumulator. *)
Fixpoint allotLoop (v : t) (data : list value)
    (encryptedRecords : list (list value)) (tick : nat)
  : result (list (list value) * nat) :=
  match data with
  | [] => Ok (encryptedRecords, tick)
  | item :: data' =>
      let! e := nilql v in
      let! r := NilQLWrapper.prepareAndAllot lib e item tick in
      allotLoop v data' (encryptedRecords ++ [fst r]) (snd r)
  end.

Definition allotData (v : t) (data : list value) (tick : nat)
  : result (list (list value) * nat) :=
  allotLoop v data [] tick.

(** The share of one record that goes to the node at [index]. *)
Definition pick (v : t) (index : nat) (encryptedShares : list value) : value :=
  if negb (length encryptedShares =? length (nodes v))%nat
  then JS.index encryptedShares 0
  else JS.index encryptedShares index.

Definition nodeData (v : t) (index : nat)
    (transformedData : list (list value)) : list value :=
  map (pick v index) transformedData.

Definition writePayload (v : t) (transformedData : list (list value))
    (index : nat) : value :=
  VObj [("schema", schemaId v);
        ("data", VArr (nodeData v index transformedData))].

Definition writeDataToNode (v : t) (transformedData : list (list value))
    (n : node) (index : nat) : settled :=
  requestNode n "data/create" (writePayload v transformedData index).

Definition writeLegs (v : t) (transformedData : list (list value))
  : list settled :=
  imap (fun index n => writeDataToNode v transformedData n index) (nodes v).

Definition writeToNodes (v : t) (data : list value) (tick : nat)
  : result (list value) :=
  let! ids := idData data tick in
  let! transformedData := allotData v (fst ids) (snd ids) in
  Ok (map (outcome [("schemaId", schemaId v)])
        (allSettled (writeLegs v (fst transformedData)))).

(** *** updateDataToNodes *)

Definition updatePayload (v : t) (transformedData : list (list value))
    (filter : value) (index : nat) : value :=
  VObj [("schema", schemaId v);
        ("update", VObj [("$set", JS.index (nodeData v index transformedData) 0)]);
        ("filter", filter)].

Definition updateDataOnNode (v : t) (transformedData : list (list value))
    (filter : value) (n : node) (index : nat) : settled :=
  requestNode n "data/update" (updatePayload v transformedData filter index).

Definition updateLegs (v : t) (transformedData : list (list value))
    (filter : value) : list settled :=
  imap (fun index n => updateDataOnNode v transformedData filter n index)
    (nodes v).

Definition updateDataToNodes (v : t) (recordUpdate filter : value)
    (tick : nat) : result (list value) :=
  let! transformedData := allotData v [recordUpdate] tick in
  Ok (map (outcome [])
        (allSettled (updateLegs v (fst transformedData)
                       (NilQLWrapper.default_arg filter (VObj []))))).

(** *** deleteDataFromNodes *)

Definition deleteDataFromNode (v : t) (filter : value) (n : node) : settled :=
  requestNode n "data/delete"
    (VObj [("schema", schemaId v); ("filter", filter)]).

Definition deleteLegs (v : t) (filter : value) : list settled :=
  map (deleteDataFromNode v filter) (nodes v).

Definition deleteDataFromNodes (v : t) (filter : value) : list value :=
  map (outcome [])
    (allSettled (deleteLegs v (NilQLWrapper.default_arg filter (VObj [])))).

(** *** readFromNodes *)

Definition readDataFromNode (v : t) (filter : value) (n : node) : settled :=
  requestNode n "data/read"
    (VObj [("schema", schemaId v); ("filter", filter)]).

Definition readLegs (v : t) (filter : value) : list settled :=
  map (readDataFromNode v filter) (nodes v).

Definition readResults (v : t) (filter : value) : list value :=
  map (outcome [])
    (allSettled (readLegs v (NilQLWrapper.default_arg filter (VObj [])))).

(** [shares.some((share) => share._id === record._id)] *)
Fixpoint someSameId (record : value) (shares : list value) : result bool :=
  match shares with
  | [] => Ok false
  | share :: shares' =>
      let! a := prop share "_id" in
      let! b := prop record "_id" in
      if strict_eq a b then Ok true else someSameId record shares'
  end.

(** The body of the inner loop: [acc.find] walks the groups in order; the
    record is pushed onto the shares of the first group that has a share
    with its [_id], and a new group is pushed at the end when there is
    none. *)
Fixpoint place (record : value) (acc : list group) : result (list group) :=
  match acc with
  | [] =>
      let! id := prop record "_id" in
      Ok [ {| shares := [record]; recordIndex := id |} ]
  | g :: acc' =>
      let! hit := someSameId record (shares g) in
      if hit then
        Ok ({| shares := shares g ++ [record];
               recordIndex := recordIndex g |} :: acc')
      else
        let! rest := place record acc' in
        Ok (g :: rest)
  end.

Fixpoint placeAll (records : list value) (acc : list group)
  : result (list group) :=
  match records with
  | [] => Ok acc
  | record :: records' =>
      let! acc1 := place record acc in
      placeAll records' acc1
  end.

(** The callback of [results.reduce]. *)
Definition groupNode (acc : list group) (nodeResult : value)
  : result (list group) :=
  if truthy (get nodeResult "data") then
    let! records := iterate (get nodeResult "data") in
    placeAll records acc
  else Ok acc.

Fixpoint recordGroups (results : list value) (acc : list group)
  : result (list group) :=
  match results with
  | [] => Ok acc
  | nodeResult :: results' =>
      let! acc1 := groupNode acc nodeResult in
      recordGroups results' acc1
  end.

Definition recombine (v : t) (g : group) : result value :=
  let! e := nilql v in
  NilQLWrapper.unify lib e (shares g).

Definition readFromNodes (v : t) (filter : value) : result (list value) :=
  let! groups := recordGroups (readResults v filter) [] in
  mapM (recombine v) groups.

(** *** init *)

Definition init (v : t) (tick : nat) : result NilQLWrapper.t * t :=
  match mapM (fun n => generateNodeToken (did n)) (nodes v) with
  | Throw err => (Throw err, v)
  | Ok _ =>
      let keyType :=
        if truthy (secretKey v) || truthy (secretKeySeed v)
        then KeyType.SECRET else KeyType.CLUSTER in
      let e := NilQLWrapper.constructor
                 (VObj [("nodes", VArr (map node_value (nodes v)))])
                 (operation v) (secretKey v) (secretKeySeed v) keyType in
      let r := NilQLWrapper.init lib e tick in
      let v' := {| nodes := nodes v; schemaId := schemaId v;
                   operation := operation v; secretKey := secretKey v;
                   secretKeySeed := secretKeySeed v;
                   nilqlWrapper := Some (snd r) |} in
      match fst r with
      | Ok _ => (Ok (snd r), v')
      | Throw err => (Throw err, v')
      end
  end.

End Vault.
End SecretVaultWrapper.

(** ** The same code over a store

    To speak of what a call changes, objects need an identity.  Here a
    value is a primitive or a reference into a store of objects, an object
    literal or [Array.prototype.map] allocates, and an assignment to a
    property writes into the store.  Library calls read their arguments
    from the store and return new values, which are allocated; recursion
    deeper than [fuel] is the RangeError of an exhausted stack. *)

Module Heap.

Inductive val : Type :=
  | Undef
  | Null
  | Bool (b : bool)
  | Num (n : Z)
  | Str (s : string)
  | Ref (l : nat).

Inductive cell : Type :=
  | Arr (xs : list val)
  | Obj (fs : list (string * val)).

(** The store, and the state of the random source. *)
Record state : Type := { cells : list cell; tick : nat }.

Definition M (A : Type) : Type := state -> result A * state.

Definition ret {A} (a : A) : M A := fun s => (Ok a, s).

Definition throw {A} (e : value) : M A := fun s => (Throw e, s).

Definition bindM {A B} (m : M A) (k : A -> M B) : M B :=
  fun s =>
    match m s with
    | (Ok a, s') => k a s'
    | (Throw e, s') => (Throw e, s')
    end.

Notation "'do!' x := c 'in' k" := (bindM c (fun x => k))
  (at level 10, x name, c at level 200, k at level 200).

Definition lift {A} (r : result A) : M A := fun s => (r, s).

(** [try { m } catch (e) { handler e }] *)
Definition catch {A} (m : M A) (handler : value -> M A) : M A :=
  fun s =>
    match m s with
    | (Ok a, s') => (Ok a, s')
    | (Throw e, s') => handler e s'
    end.

(** A new object. *)
Definition alloc (c : cell) : M nat :=
  fun s => (Ok (length (cells s)),
            {| cells := cells s ++ [c]; tick := tick s |}).

Definition read (l : nat) : M cell :=
  fun s =>
    match cells s !! l with
    | Some c => (Ok c, s)
    | None => (Throw (TypeError "no such object"), s)
    end.

(** The only operation that changes an object. *)
Definition write (l : nat) (c : cell) : M unit :=
  fun s => (Ok tt, {| cells := <[l := c]> (cells s); tick := tick s |}).

(** One draw of the random source. *)
Definition draw : M nat :=
  fun s => (Ok (tick s), {| cells := cells s; tick := S (tick s) |}).

Definition snapshot : M (list cell) := fun s => (Ok (cells s), s).

Fixpoint mapM {A B} (f : A -> M B) (l : list A) : M (list B) :=
  match l with
  | [] => ret []
  | a :: l' => do! b := f a in do! bs := mapM f l' in ret (b :: bs)
  end.

Fixpoint forM {A} (f : A -> M unit) (l : list A) : M unit :=
  match l with
  | [] => ret tt
  | a :: l' => do! _ := f a in forM f l'
  end.

Definition truthy (v : val) : bool :=
  match v with
  | Undef | Null => false
  | Bool b => b
  | Num n => negb (Z.eqb n 0)
  | Str s => negb (String.eqb s EmptyString)
  | Ref _ => true
  end.

Fixpoint chars (s : string) : list val :=
  match s with
  | EmptyString => []
  | String c s' => Str (String c EmptyString) :: chars s'
  end.

Definition RangeError : value := VErr "Maximum call stack size exceeded".

(** The tree a value stands for, read off the store; [None] when it is
    deeper than [fuel], as a cyclic structure is. *)
Fixpoint reify (fuel : nat) (cs : list cell) (v : val) : option value :=
  match v with
  | Undef => Some VUndef
  | Null => Some VNull
  | Bool b => Some (VBool b)
  | Num n => Some (VNum n)
  | Str s => Some (VStr s)
  | Ref l =>
      match fuel with
      | O => None
      | S fuel' =>
          match cs !! l with
          | Some (Arr xs) =>
              option_map VArr
                ((fix go (xs : list val) : option (list value) :=
                    match xs with
                    | [] => Some []
                    | x :: xs' =>
                        match reify fuel' cs x, go xs' with
                        | Some t, Some ts => Some (t :: ts)
                        | _, _ => None
                        end
                    end) xs)
          | Some (Obj fs) =>
              option_map VObj
                ((fix go (fs : list (string * val))
                    : option (list (string * value)) :=
                    match fs with
                    | [] => Some []
                    | (k, x) :: fs' =>
                        match reify fuel' cs x, go fs' with
                        | Some t, Some ts => Some ((k, t) :: ts)
                        | _, _ => None
                        end
                    end) fs)
          | None => None
          end
      end
  end.

(** A value returned by a library, allocated. *)
Fixpoint allocTree (t : value) : M val :=
  match t with
  | VUndef => ret Undef
  | VNull => ret Null
  | VBool b => ret (Bool b)
  | VNum n => ret (Num n)
  | VStr s => ret (Str s)
  | VArr xs =>
      do! vs := (fix go (xs : list value) : M (list val) :=
                   match xs with
                   | [] => ret []
                   | x :: xs' =>
                       do! v := allocTree x in
                       do! vs := go xs' in
                       ret (v :: vs)
                   end) xs in
      do! l := alloc (Arr vs) in
      ret (Ref l)
  | VObj fs =>
      do! gs := (fix go (fs : list (string * value))
                   : M (list (string * val)) :=
                   match fs with
                   | [] => ret []
                   | (k, x) :: fs' =>
                       do! v := allocTree x in
                       do! gs := go fs' in
                       ret ((k, v) :: gs)
                   end) fs in
      do! l := alloc (Obj gs) in
      ret (Ref l)
  | VErr m =>
      do! l := alloc (Obj [("message", Str m)]) in
      ret (Ref l)
  end.

(** [v.k] for a name [k] that is not an array index. *)
Definition prop (v : val) (k : string) : M val :=
  match v with
  | Undef | Null =>
      throw (TypeError ("Cannot read properties of undefined or null (reading '"
                        +:+ k +:+ "')"))
  | Ref l =>
      do! c := read l in
      match c with
      | Obj fs => ret (match assoc k fs with Some x => x | None => Undef end)
      | Arr _ => ret Undef
      end
  | _ => ret Undef
  end.

(** The own enumerable properties copied by [{...v}]. *)
Definition own_props (v : val) : M (list (string * val)) :=
  match v with
  | Ref l =>
      do! c := read l in
      match c with
      | Obj fs => ret fs
      | Arr xs => ret (indexed 0 xs)
      end
  | Str s => ret (indexed 0 (chars s))
  | _ => ret []
  end.

(** [encrypted[key] = x] *)
Definition setProp (encrypted : nat) (k : string) (x : val) : M unit :=
  do! c := read encrypted in
  match c with
  | Obj gs => write encrypted (Obj (obj_put k x gs))
  | Arr _ => ret tt
  end.

Definition setElem (encrypted : nat) (i : nat) (x : val) : M unit :=
  do! c := read encrypted in
  match c with
  | Arr ys => write encrypted (Arr (arr_set Undef i x ys))
  | Obj _ => ret tt
  end.

(** [array.push(x)] *)
Definition push (array : nat) (x : val) : M unit :=
  do! c := read array in
  match c with
  | Arr ys => write array (Arr (ys ++ [x]))
  | Obj _ => throw (TypeError "push is not a function")
  end.

(** The elements of an array, for [map] and [for ... of]; anything else
    is a TypeError with the message [what]. *)
Definition elements (what : string) (v : val) : M (list val) :=
  match v with
  | Ref l =>
      do! c := read l in
      match c with
      | Arr xs => ret xs
      | Obj _ => throw (TypeError what)
      end
  | _ => throw (TypeError what)
  end.

Section Code.
Context (w : World) (lib : Nilql) (fuel : nat).

(** A library call on an argument in the store. *)
Definition argument (v : val) : M value :=
  do! cs := snapshot in
  match reify fuel cs v with
  | Some t => ret t
  | None => throw RangeError
  end.

(** The body of the loop of [encryptDeep] for the value of one entry. *)
Definition encryptEntry (rec : val -> M val) (key : value) (v : val) : M val :=
  match v with
  | Ref l =>
      do! c := read l in
      match c with
      | Obj fs =>
          match assoc "%allot" fs with
          | Some inner =>
              do! plain := argument inner in
              do! t := draw in
              do! s := lift (nilql_encrypt lib key plain t) in
              do! shares := allocTree s in
              do! marked := alloc (Obj [("%allot", shares)]) in
              ret (Ref marked)
          | None => rec v
          end
      | Arr _ => rec v
      end
  | _ => ret v
  end.

Fixpoint encryptProps (step : val -> M val) (encrypted : nat)
    (fs : list (string * val)) : M unit :=
  match fs with
  | [] => ret tt
  | (k, v) :: fs' =>
      do! x := step v in
      do! _ := setProp encrypted k x in
      encryptProps step encrypted fs'
  end.

Fixpoint encryptElems (step : val -> M val) (encrypted : nat) (i : nat)
    (xs : list val) : M unit :=
  match xs with
  | [] => ret tt
  | v :: xs' =>
      do! x := step v in
      do! _ := setElem encrypted i x in
      encryptElems step encrypted (S i) xs'
  end.

Fixpoint encryptDeep (depth : nat) (key : value) (obj : val) : M val :=
  match depth with
  | O => throw RangeError
  | S depth' =>
      match obj with
      | Ref l =>
          do! c := read l in
          match c with
          | Arr xs =>
              do! encrypted := alloc (Arr []) in
              do! _ := encryptElems (encryptEntry (encryptDeep depth' key) key)
                         encrypted 0 xs in
              ret (Ref encrypted)
          | Obj fs =>
              do! encrypted := alloc (Obj []) in
              do! _ := encryptProps (encryptEntry (encryptDeep depth' key) key)
                         encrypted fs in
              ret (Ref encrypted)
          end
      | _ => ret obj
      end
  end.

Definition prepareAndAllot (e : NilQLWrapper.t) (data : val) : M val :=
  if negb (JS.truthy (NilQLWrapper.secretKey e))
  then throw NilQLWrapper.NotInitialized
  else
    do! encryptedData := encryptDeep fuel (NilQLWrapper.secretKey e) data in
    do! document := argument encryptedData in
    do! variants := lift (nilql_allot lib document) in
    allocTree (VArr variants).

Definition allotData (v : SecretVaultWrapper.t) (data : val) : M val :=
  do! encryptedRecords := alloc (Arr []) in
  do! items := elements "data is not iterable" data in
  do! _ := forM (fun item =>
                   do! e := lift (SecretVaultWrapper.nilql v) in
                   do! encryptedItem := prepareAndAllot e item in
                   push encryptedRecords encryptedItem) items in
  ret (Ref encryptedRecords).

(** The callback of [data.map] in [writeToNodes]. *)
Definition withId (record : val) : M val :=
  do! id := prop record "_id" in
  if negb (truthy id) then
    do! props := own_props record in
    do! t := draw in
    do! copy := alloc (Obj (assign (props ++ [("_id", Str (uuidv4 w t))]) [])) in
    ret (Ref copy)
  else ret record.

(** [transformedData.map(...)] in the leg of the node at [index]. *)
Definition pick (v : SecretVaultWrapper.t) (index : nat) (encryptedShares : val)
  : M val :=
  match encryptedShares with
  | Ref l =>
      do! c := read l in
      match c with
      | Arr shares =>
          ret (if negb (length shares =? length (SecretVaultWrapper.nodes v))%nat
               then match shares !! 0%nat with Some x => x | None => Undef end
               else match shares !! index with Some x => x | None => Undef end)
      | Obj _ => ret Undef
      end
  | _ => ret Undef
  end.

Definition writeDataToNode (v : SecretVaultWrapper.t) (transformedData : val)
    (n : SecretVaultWrapper.node) (index : nat) : M SecretVaultWrapper.settled :=
  catch
    (do! jwt := lift (SecretVaultWrapper.generateNodeToken w
                        (SecretVaultWrapper.did n)) in
     do! records := elements "map is not a function" transformedData in
     do! picked := mapM (pick v index) records in
     do! nodeData := alloc (Arr picked) in
     do! schema := allocTree (SecretVaultWrapper.schemaId v) in
     do! payload := alloc (Obj [("schema", schema); ("data", Ref nodeData)]) in
     do! cs := snapshot in
     do! result :=
       lift match reify fuel cs (Ref payload) with
            | Some body =>
                SecretVaultWrapper.makeRequest w (SecretVaultWrapper.url n)
                  "data/create" jwt body "POST"
            | None =>
                SecretVaultWrapper.request_failed w
                  (TypeError "Converting circular structure to JSON")
            end in
     ret (SecretVaultWrapper.Fulfilled
            (VObj [("result", result);
                   ("node", SecretVaultWrapper.node_value n)])))
    (fun error =>
       ret (SecretVaultWrapper.Rejected
              (VObj [("error", error);
                     ("node", SecretVaultWrapper.node_value n)]))).

Fixpoint legs (v : SecretVaultWrapper.t) (transformedData : val) (index : nat)
    (ns : list SecretVaultWrapper.node) : M (list SecretVaultWrapper.settled) :=
  match ns with
  | [] => ret []
  | n :: ns' =>
      do! s := writeDataToNode v transformedData n index in
      do! ss := legs v transformedData (S index) ns' in
      ret (s :: ss)
  end.

Definition writeToNodes (v : SecretVaultWrapper.t) (data : val) : M val :=
  do! records := elements "data.map is not a function" data in
  do! ids := mapM withId records in
  do! idData := alloc (Arr ids) in
  do! transformedData := allotData v (Ref idData) in
  do! settledResults := legs v transformedData 0 (SecretVaultWrapper.nodes v) in
  allocTree
    (VArr (map (SecretVaultWrapper.outcome
                  [("schemaId", SecretVaultWrapper.schemaId v)])
             settledResults)).

End Code.

(** The objects that existed before are as they were. *)
Definition untouched (before after : state) : Prop :=
  cells before `prefix_of` cells after.

(** Below address [n] nothing changes and nothing disappears. *)
Definition extends (n : nat) (s s' : state) : Prop :=
  take n (cells s') = take n (cells s) /\ length (cells s) <= length (cells s').

(** A computation that, started in a store with at least [n] objects
    that satisfies [I], leaves the first [n] objects as they are, keeps
    [I], and returns a result in [Q]. *)
Definition runs {A} (I : state -> Prop) (n : nat) (m : M A) (Q : A -> Prop)
  : Prop :=
  forall s, n <= length (cells s) -> I s ->
    extends n s (snd (m s)) /\ I (snd (m s)) /\
    forall a, fst (m s) = Ok a -> Q a.

(** A value made since the store had [n] objects: a primitive, or a
    reference to an object at address [n] or above. *)
Definition fresh (n : nat) (v : val) : Prop :=
  match v with
  | Ref l => n <= l
  | _ => True
  end.

Definition fresh_cell (n : nat) (c : cell) : Prop :=
  match c with
  | Arr xs => Forall (fresh n) xs
  | Obj fs => Forall (fun kv => fresh n (snd kv)) fs
  end.

(** The objects made since the store had [n] objects refer to such
    objects only. *)
Definition closed (n : nat) (s : state) : Prop :=
  forall l c, n <= l -> cells s !! l = Some c -> fresh_cell n c.

Definition any (s : state) : Prop := True.

Definition whatever {A} (a : A) : Prop := True.

End Heap.

(** ** Reference instances of the interfaces

    They are used to run the code on concrete inputs. *)

Module Reference.

Definition dq : string := String (ascii_of_nat 34) EmptyString.

(** [quoted s] is [s] between double quotes. *)
Definition quoted (s : string) : string := dq +:+ s +:+ dq.

(** *** A JSON reader

    It reads the JSON texts whose numbers are integers and whose strings
    have no escapes, and rejects every text that is not JSON. *)

Definition is_ws (c : ascii) : bool :=
  let n := nat_of_ascii c in
  (n =? 32)%nat || (n =? 9)%nat || (n =? 10)%nat || (n =? 13)%nat.

Fixpoint skip_ws (s : string) : string :=
  match s with
  | String c s' => if is_ws c then skip_ws s' else s
  | EmptyString => s
  end.

(** The characters of a string literal up to its closing quote. *)
Fixpoint read_string (s : string) : option (string * string) :=
  match s with
  | EmptyString => None
  | String c s' =>
      let n := nat_of_ascii c in
      if (n =? 34)%nat then Some (EmptyString, s')
      else if (n =? 92)%nat || (n <? 32)%nat then None
      else
        match read_string s' with
        | Some (body, rest) => Some (String c body, rest)
        | None => None
        end
  end.

Definition read_number (s : string) : option (value * string) :=
  let '(neg, s1) :=
    match s with
    | String "-" s' => (true, s')
    | _ => (false, s)
    end in
  let ds := Str.take_digits s1 in
  let rest := Str.drop (String.length ds) s1 in
  match ds with
  | EmptyString => None
  | String "0" (String _ _) => None
  | _ =>
      match rest with
      | String "." _ | String "e" _ | String "E" _ => None
      | _ =>
          let n := Str.parseInt ds in
          Some (VNum (if neg then (- n)%Z else n), rest)
      end
  end.

Fixpoint read_value (fuel : nat) (s : string) : option (value * string) :=
  match fuel with
  | O => None
  | S fuel' =>
      let s := skip_ws s in
      if String.prefix "null" s then Some (VNull, Str.drop 4 s)
      else if String.prefix "true" s then Some (VBool true, Str.drop 4 s)
      else if String.prefix "false" s then Some (VBool false, Str.drop 5 s)
      else
        match s with
        | String "[" s' =>
            match skip_ws s' with
            | String "]" rest => Some (VArr [], rest)
            | s'' =>
                match read_elements fuel' s'' with
                | Some (xs, rest) => Some (VArr xs, rest)
                | None => None
                end
            end
        | String "{" s' =>
            match skip_ws s' with
            | String "}" rest => Some (VObj [], rest)
            | s'' =>
                match read_members fuel' s'' with
                | Some (fs, rest) => Some (VObj (assign fs []), rest)
                | None => None
                end
            end
        | String c s' =>
            if (nat_of_ascii c =? 34)%nat then
              match read_string s' with
              | Some (body, rest) => Some (VStr body, rest)
              | None => None
              end
            else read_number s
        | EmptyString => None
        end
  end
with read_elements (fuel : nat) (s : string)
  : option (list value * string) :=
  match fuel with
  | O => None
  | S fuel' =>
      match read_value fuel' s with
      | Some (x, rest) =>
          match skip_ws rest with
          | String "," rest' =>
              match read_elements fuel' rest' with
              | Some (xs, rest'') => Some (x :: xs, rest'')
              | None => None
              end
          | String "]" rest' => Some ([x], rest')
          | _ => None
          end
      | None => None
      end
  end
with read_members (fuel : nat) (s : string)
  : option (list (string * value) * string) :=
  match fuel with
  | O => None
  | S fuel' =>
      match skip_ws s with
      | String c s' =>
          if (nat_of_ascii c =? 34)%nat then
            match read_string s' with
            | Some (k, rest) =>
                match skip_ws rest with
                | String ":" rest' =>
                    match read_value fuel' rest' with
                    | Some (x, rest'') =>
                        match skip_ws rest'' with
                        | String "," r =>
                            match read_members fuel' r with
                            | Some (fs, r') => Some ((k, x) :: fs, r')
                            | None => None
                            end
                        | String "}" r => Some ([(k, x)], r)
                        | _ => None
                        end
                    | None => None
                    end
                | _ => None
                end
            | None => None
            end
          else None
      | EmptyString => None
      end
  end.

Definition parse (s : string) : option value :=
  match read_value (2 * String.length s + 2) s with
  | Some (v, rest) =>
      match skip_ws rest with
      | EmptyString => Some v
      | _ => None
      end
  | None => None
  end.

(** *** A secret-sharing library

    Additive sharing of integers among [n] nodes: the shares of [x] are
    [n - 1] masks and what they lack to sum to [x]. *)

Definition mask (key : value) (tick i : nat) : Z :=
  (7919 * Z.of_nat tick + 104729 * Z.of_nat i + 17)%Z
  + match get key "salt" with VNum z => z | _ => 0%Z end.

Definition sum (zs : list Z) : Z := fold_right Z.add 0%Z zs.

Definition split (n : nat) (key : value) (x : Z) (tick : nat) : list Z :=
  let masks := map (mask key tick) (seq 0 (n - 1)) in
  masks ++ [(x - sum masks)%Z].

Definition number (v : value) : Z :=
  match v with
  | VNum z => z
  | _ => 0%Z
  end.

Definition share_of (i : nat) (s : value) : value :=
  match s with
  | VArr ss => index ss i
  | _ => s
  end.

(** The field of node variant [i]. *)
Fixpoint variantField (i : nat) (x : value) : value :=
  match x with
  | VObj fs =>
      if has_key "%allot" x then VObj [("%allot", share_of i (get x "%allot"))]
      else VObj (map (fun kv => (fst kv, variantField i (snd kv))) fs)
  | VArr xs => VArr (map (variantField i) xs)
  | _ => x
  end.

Definition variant (i : nat) (d : value) : value :=
  match d with
  | VObj fs => VObj (map (fun kv => (fst kv, variantField i (snd kv))) fs)
  | _ => variantField i d
  end.

Fixpoint marked (x : value) : bool :=
  match x with
  | VObj fs => has_key "%allot" x || existsb (fun kv => marked (snd kv)) fs
  | VArr xs => existsb marked xs
  | _ => false
  end.

Definition hasMarkedField (d : value) : bool :=
  match d with
  | VObj fs => existsb (fun kv => marked (snd kv)) fs
  | _ => marked d
  end.

Definition element (i : nat) (y : value) : value :=
  match y with
  | VArr ys => index ys i
  | _ => VUndef
  end.

(** A field recombined from the same field [xs] of all the variants;
    [x] is the field of the first variant. *)
Fixpoint combine (x : value) (xs : list value) : value :=
  match x with
  | VObj fs =>
      if has_key "%allot" x
      then VNum (sum (map (fun y => number (get y "%allot")) xs))
      else VObj (map (fun kv =>
                        (fst kv,
                         combine (snd kv) (map (fun y => get y (fst kv)) xs)))
                   fs)
  | VArr els =>
      VArr ((fix go (i : nat) (els : list value) : list value :=
               match els with
               | [] => []
               | el :: els' =>
                   combine el (map (element i) xs) :: go (S i) els'
               end) 0%nat els)
  | _ => x
  end.

Definition recombined (vs : list value) : result value :=
  match vs with
  | [] => Throw (TypeError "no documents to unify")
  | VObj fs :: _ =>
      Ok (VObj (map (fun kv =>
                       (fst kv,
                        combine (snd kv) (map (fun y => get y (fst kv)) vs)))
                  fs))
  | v0 :: _ => Ok (combine v0 vs)
  end.

(** Modelled from the spec: the library behind [nilql] (its key
    generation, [encrypt], [decrypt], [allot] and [unify]), which is not
    among the sources.  The design gives its contract: split turns a leaf
    into a share sequence with one share per node; in the node share set
    variant [i] holds share [i] of every marked field, still under the
    marker, and every other field unchanged; a shares sequence may have
    another length than the number of nodes, as has here the one variant
    of a document without a marked field; recombine returns the original
    value from the complete, ordered share sequence. *)
Definition sharing (n : nat) : Nilql :=
  {| SecretKey_generate := fun cluster operation seed tick =>
       Ok (VObj [("kind", VStr "secret");
                 ("salt", match seed with
                          | VStr s => VNum (Z.of_nat (String.length s))
                          | _ => VNum (Z.of_nat tick)
                          end)]);
     ClusterKey_generate := fun cluster operation tick =>
       Ok (VObj [("kind", VStr "cluster"); ("salt", VNum (Z.of_nat tick))]);
     nilql_encrypt := fun key x tick =>
       match x with
       | VNum z => Ok (VArr (map VNum (split n key z tick)))
       | _ => Throw (TypeError "cannot encrypt this type of value")
       end;
     nilql_decrypt := fun key shares =>
       match shares with
       | VArr ss => Ok (VNum (sum (map number ss)))
       | _ => Throw (TypeError "cannot decrypt this type of value")
       end;
     nilql_allot := fun d =>
       Ok (map (fun i => variant i d)
             (seq 0 (if hasMarkedField d then n else 1)));
     nilql_unify := fun key vs => recombined vs |}.

(** *** Worlds *)

(** A world whose network answers every request with [answer], whose
    signer fails for the identities in [revoked], and whose JSON reader
    is [parse]. *)
Definition world (revoked : list string)
    (answer : string -> option value -> fetch_outcome) : World :=
  {| uuidv4 := fun tick => "uuid-" +:+ pretty (N.of_nat tick);
     createJWT := fun nodeDid =>
       if existsb (String.eqb nodeDid) revoked
       then inr "signing failed"
       else inl ("jwt." +:+ nodeDid);
     fetch := fun url method token body => answer url body;
     JSON_parse := parse;
     syntax_error_message := fun text => "Unexpected token in JSON" |}.

Definition three_nodes : list SecretVaultWrapper.node :=
  [ {| SecretVaultWrapper.url := "https://node-a";
       SecretVaultWrapper.did := "did:a" |};
    {| SecretVaultWrapper.url := "https://node-b";
       SecretVaultWrapper.did := "did:b" |};
    {| SecretVaultWrapper.url := "https://node-c";
       SecretVaultWrapper.did := "did:c" |} ].

End Reference.

(** ** Vocabulary of the properties *)

Module Spec.

(** An object has each of its keys once. *)
Fixpoint fresh_key (k : string) (fs : list (string * value)) : bool :=
  match fs with
  | [] => true
  | (k', _) :: fs' => negb (String.eqb k k') && fresh_key k fs'
  end.

Fixpoint distinct_keys (fs : list (string * value)) : bool :=
  match fs with
  | [] => true
  | (k, _) :: fs' => fresh_key k fs' && distinct_keys fs'
  end.

Fixpoint well_formed (v : value) : bool :=
  match v with
  | VObj fs => distinct_keys fs && forallb (fun kv => well_formed (snd kv)) fs
  | VArr xs => forallb well_formed xs
  | _ => true
  end.

(** The entries of an object that the walk takes over: all but those
    under the name [__proto__], which an assignment does not write. *)
Definition written (fs : list (string * value)) : list (string * value) :=
  List.filter (fun kv => negb (String.eqb (fst kv) "__proto__")) fs.

(** No object of the document, at any depth, has an entry under the name
    [__proto__]. *)
Fixpoint plainKeys (v : value) : bool :=
  match v with
  | VObj fs =>
      forallb (fun kv => negb (String.eqb (fst kv) "__proto__")
                         && plainKeys (snd kv)) fs
  | VArr xs => forallb plainKeys xs
  | _ => true
  end.

(** The allotment walk, in the words of the design: a leaf that is not an
    object is copied, an object value that carries the marker becomes the
    marker around the split of its inner value, any other object or array
    is walked entry by entry, objects staying objects and arrays arrays.
    The entries of an object are those that are [written]. *)
Inductive allotted (lib : Nilql) (key : value) : value -> value -> Prop :=
  | allotted_leaf v :
      is_object v = false -> allotted lib key v v
  | allotted_array xs ys :
      Forall2 (allotted_entry lib key) xs ys ->
      allotted lib key (VArr xs) (VArr ys)
  | allotted_object fs gs :
      Forall2 (fun f g => fst f = fst g /\
                          allotted_entry lib key (snd f) (snd g))
        (written fs) gs ->
      allotted lib key (VObj fs) (VObj gs)
  | allotted_error m :
      allotted lib key (VErr m) (VObj [])
with allotted_entry (lib : Nilql) (key : value) : value -> value -> Prop :=
  | entry_leaf v :
      is_object v = false -> allotted_entry lib key v v
  | entry_marked v tick s :
      is_object v = true -> has_key "%allot" v = true ->
      nilql_encrypt lib key (get v "%allot") tick = Ok s ->
      allotted_entry lib key v (VObj [("%allot", s)])
  | entry_nested v v' :
      is_object v = true -> has_key "%allot" v = false ->
      allotted lib key v v' ->
      allotted_entry lib key v v'.

(** What the walk returns is allotted from its argument, and what it
    throws was thrown by [nilql.encrypt]. *)
Definition walks (lib : Nilql) (key : value) (v : value) : Prop :=
  well_formed v = true ->
  forall tick,
    match NilQLWrapper.encryptDeep lib key v tick with
    | Ok r => allotted lib key v (fst r)
    | Throw e => exists x t, nilql_encrypt lib key x t = Throw e
    end.

(** What one entry of the walked object holds: the outcome of the loop
    body on the value of the entry. *)
Definition stored (lib : Nilql) (key : value) (x y : value) : Prop :=
  exists t r,
    NilQLWrapper.encryptEntry lib (NilQLWrapper.encryptDeep lib key) key x t
    = Ok r /\ y = fst r.

(** What a fan-out over the nodes [ns] owes its caller.  [attempt i n] is
    what the [try] block of the leg of node [n], at position [i], comes
    to; [legs] are the settled legs and [outs] the outcomes returned.
    Whatever the order in which the legs settle, the reports are those of
    the legs in node order; there is one outcome per node; the outcome at
    position [i] carries the descriptor of node [i] and is made from the
    attempt of that node alone, the error of a failed attempt under
    [error]. *)
Definition fansOut (ns : list SecretVaultWrapper.node)
    (attempt : nat -> SecretVaultWrapper.node -> result value)
    (extra : list (string * value))
    (legs : list SecretVaultWrapper.settled) (outs : list value) : Prop :=
  (forall order, Permutation order (seq 0 (length ns)) ->
     SecretVaultWrapper.allSettled_in order legs
     = Some (SecretVaultWrapper.allSettled legs)) /\
  length outs = length ns /\
  forall i n, ns !! i = Some n ->
    exists out,
      outs !! i = Some out /\
      get out "node" = SecretVaultWrapper.node_value n /\
      match attempt i n with
      | Ok result =>
          out = VObj (assign (own_props result
                              ++ ("node", SecretVaultWrapper.node_value n)
                                 :: extra) [])
      | Throw error =>
          out = VObj [("error", error);
                      ("node", SecretVaultWrapper.node_value n)]
      end.

(** Two calls end alike: with the same value, or both with an exception. *)
Definition alike {A : Type} (r1 r2 : result A) : Prop :=
  match r1, r2 with
  | Ok a, Ok b => a = b
  | Throw _, Throw _ => True
  | _, _ => False
  end.

(** Read reassembly, in the words of the design.  The records of an
    outcome are its [data], nothing when it has none. *)
Definition recordsOf (nodeResult : value) : result (list value) :=
  if truthy (get nodeResult "data") then iterate (get nodeResult "data")
  else Ok [].

Definition flatten (results : list value) : result (list value) :=
  let! lists := mapM recordsOf results in
  Ok (concat lists).

Definition sameId (record share : value) : bool :=
  strict_eq (get share "_id") (get record "_id").

(** A record joins the first group that has a record with its [_id], and
    starts a new group when there is none. *)
Fixpoint join (record : value) (groups : list SecretVaultWrapper.group)
  : list SecretVaultWrapper.group :=
  match groups with
  | [] =>
      [ {| SecretVaultWrapper.shares := [record];
           SecretVaultWrapper.recordIndex := get record "_id" |} ]
  | g :: groups' =>
      if existsb (sameId record) (SecretVaultWrapper.shares g) then
        {| SecretVaultWrapper.shares := SecretVaultWrapper.shares g ++ [record];
           SecretVaultWrapper.recordIndex := SecretVaultWrapper.recordIndex g |}
        :: groups'
      else g :: join record groups'
  end.

Definition nullish (v : value) : bool :=
  match v with
  | VUndef | VNull => true
  | _ => false
  end.

(** Grouping by identity: the shares of a group have the [_id] of its
    first share, which is its [recordIndex], and shares of two groups
    have different [_id]s. *)
Definition oneId (g : SecretVaultWrapper.group) : Prop :=
  exists h t,
    SecretVaultWrapper.shares g = h :: t /\
    SecretVaultWrapper.recordIndex g = get h "_id" /\
    Forall (fun s => strict_eq (get s "_id") (get h "_id") = true) t.

Definition apart (g g' : SecretVaultWrapper.group) : Prop :=
  forall s s',
    In s (SecretVaultWrapper.shares g) ->
    In s' (SecretVaultWrapper.shares g') ->
    strict_eq (get s "_id") (get s' "_id") = false.

Definition groupedById (groups : list SecretVaultWrapper.group) : Prop :=
  Forall oneId groups /\ ForallOrdPairs apart groups.

(** No share of a group is [null] or [undefined]. *)
Definition sound (groups : list SecretVaultWrapper.group) : Prop :=
  Forall (fun g => Forall (fun s => nullish s = false)
                     (SecretVaultWrapper.shares g)) groups.

Definition firstMatchGroups (stream : list value)
  : result (list SecretVaultWrapper.group) :=
  if forallb (fun r => negb (nullish r)) stream
  then Ok (fold_left (fun groups r => join r groups) stream [])
  else Throw (TypeError "Cannot read properties of undefined or null").

(** The recombine of the engine on the full share list of a group, in
    the order in which the shares arrived.  A vault without an engine has
    nothing to recombine with. *)
Definition recombineGroup (lib : Nilql) (engine : option NilQLWrapper.t)
    (g : SecretVaultWrapper.group) : result value :=
  match engine with
  | Some e => NilQLWrapper.unify lib e (SecretVaultWrapper.shares g)
  | None => Throw (TypeError "Cannot read properties of null")
  end.

(** Flatten, group by first match, recombine every group: one unified
    record per group, in the order in which the groups were found. *)
Definition reassemble (lib : Nilql) (engine : option NilQLWrapper.t)
    (results : list value) : result (list value) :=
  let! stream := flatten results in
  let! groups := firstMatchGroups stream in
  mapM (recombineGroup lib engine) groups.

(** The names that the sharing scheme keeps for itself. *)
Definition reserved (k : string) : bool :=
  String.eqb k "__proto__" || String.eqb k "%allot" || String.eqb k "%share".

(** The reserved names occur only as the marker: they name no entry, a
    value of an entry may carry the marker, and what is below a marker is
    the plaintext, which is not looked into.  There is no [Error]. *)
Fixpoint markersOnly (v : value) : bool :=
  match v with
  | VObj fs =>
      forallb (fun kv => negb (reserved (fst kv))
                         && (has_key "%allot" (snd kv) || markersOnly (snd kv)))
        fs
  | VArr xs => forallb (fun x => has_key "%allot" x || markersOnly x) xs
  | VErr _ => false
  | _ => true
  end.

(** A record template (design, 3): a record, each key once per object,
    in which values of fields may be wrapped in the marker. *)
Definition template (v : value) : bool := well_formed v && markersOnly v.

(** Modelled from the spec: the contract of [nilql.encrypt], [nilql.allot]
    and [nilql.unify], which are not among the sources (design, 4.1:
    recombine, given the complete, correctly ordered share sequence
    produced with the same key, returns the original value; on any other
    input it is undefined).  The contract speaks of nothing but such
    sequences: [d] is a record template in which every marked inner value
    has been replaced by its split under [key], and [vs] is all that
    allotment makes of [d], in its order.  Unifying [vs] with [key] then
    gives a record that holds, under every marked field, the inner value
    that was split. *)
Definition recombines (lib : Nilql) (key : value) : Prop :=
  forall (fs : list (string * value)) (d : value) (vs : list value),
    template (VObj fs) = true ->
    allotted lib key (VObj fs) d ->
    nilql_allot lib d = Ok vs ->
    exists r,
      nilql_unify lib key vs = Ok r /\
      forall F m,
        assoc F fs = Some m -> has_key "%allot" m = true ->
        get r F = get m "%allot".

(** Modelled from the spec: the contract of [nilql.allot], which is not
    among the sources (design, 3: for fields not marked shareable every
    variant holds the identical plaintext value).  Allotment makes at
    least one variant, and a field [_id] that is not an object is the
    same in every variant. *)
Definition keepsPlainId (lib : Nilql) : Prop :=
  forall (d : value) (vs : list value),
    nilql_allot lib d = Ok vs ->
    is_object (get d "_id") = false ->
    vs <> [] /\ forall s, In s vs -> get s "_id" = get d "_id".

(** A way into a document: the name of a field of an object, or the
    position of an element of an array. *)
Inductive step : Type :=
  | Field (k : string)
  | Index (i : nat).

Definition follow (s : step) (v : value) : value :=
  match s, v with
  | Field k, VObj _ => get v k
  | Index i, VArr xs => index xs i
  | _, _ => VUndef
  end.

Fixpoint at_path (p : list step) (v : value) : value :=
  match p with
  | [] => v
  | s :: p' => at_path p' (follow s v)
  end.

(** The path leads to a leaf that is not an object, through objects that
    do not carry the marker, by names other than [__proto__], and through
    arrays. *)
Fixpoint plainPath (p : list step) (v : value) : bool :=
  match p with
  | [] => negb (is_object v)
  | s :: p' =>
      match s, v with
      | Field k, VObj _ =>
          negb (String.eqb k "__proto__") && negb (has_key "%allot" v)
          && plainPath p' (follow s v)
      | Index _, VArr _ => plainPath p' (follow s v)
      | _, _ => false
      end
  end.

(** Modelled from the spec: the contract of [nilql.allot], which is not
    among the sources (design, 3: for fields not marked shareable every
    variant holds the identical plaintext value).  A leaf of the document
    that is reached on a plain path is found on that path, unchanged, in
    every variant. *)
Definition keepsPlain (lib : Nilql) : Prop :=
  forall (d : value) (vs : list value) (p : list step),
    nilql_allot lib d = Ok vs ->
    plainPath p d = true ->
    forall s, In s vs -> at_path p s = at_path p d.

End Spec.

(** ** Concrete inputs *)

Module Examples.

Definition engine_without_key : NilQLWrapper.t :=
  NilQLWrapper.constructor (VObj []) OperationType.STORE VUndef VUndef VUndef.

Definition engine_with_key : NilQLWrapper.t :=
  NilQLWrapper.constructor (VObj []) OperationType.STORE
    (VObj [("salt", VNum 1)]) VUndef VUndef.

Definition engine_unknown_type : NilQLWrapper.t :=
  NilQLWrapper.constructor (VObj []) OperationType.STORE
    VUndef VUndef (VStr "threshold").

Definition engine_unknown_type_seeded : NilQLWrapper.t :=
  NilQLWrapper.constructor (VObj []) OperationType.STORE
    VUndef (VStr "seed") (VStr "threshold").

(** A quiet network: every request is answered 200 with an empty JSON
    object. *)
Definition quiet : World :=
  Reference.world [] (fun _ _ => Response 200 (Some "application/json") "{}").

(** The vault of three nodes, initialised. *)
Definition vault : SecretVaultWrapper.t :=
  snd (SecretVaultWrapper.init quiet (Reference.sharing 3)
         (SecretVaultWrapper.constructor Reference.three_nodes
            (VStr "schema-1") OperationType.STORE VUndef VUndef) 0).

(** Its engine, with the cluster key that [init] generated. *)
Definition vault_engine : NilQLWrapper.t :=
  match SecretVaultWrapper.nilqlWrapper vault with
  | Some e => e
  | None => engine_without_key
  end.

(** A record with a plain field and a shareable one. *)
Definition feedback : value :=
  VObj [("message", VStr "hi"); ("age", VObj [("%allot", VNum 41)])].

Definition plain_record : value := VObj [("message", VStr "hi")].

(** A record, as [JSON.parse] makes it, with a shareable field named
    [__proto__] next to a shareable field [age]. *)
Definition proto_marked : value :=
  VObj [("age", VObj [("%allot", VNum 41)]);
        ("__proto__", VObj [("%allot", VNum 7)])].

(** A batch of the two records, with the identifiers that a write gives
    them from the random source at 0, and its allotment on the vault of
    three nodes: three variants of the first record, one of the second. *)
Definition two_records : list value := [feedback; plain_record].

Definition two_identified : list value :=
  [ VObj [("message", VStr "hi"); ("age", VObj [("%allot", VNum 41)]);
          ("_id", VStr "uuid-0")];
    VObj [("message", VStr "hi"); ("_id", VStr "uuid-1")] ].

Definition two_allotted : list (list value) :=
  [ [ VObj [("message", VStr "hi"); ("age", VObj [("%allot", VNum 15855)]);
            ("_id", VStr "uuid-0")];
      VObj [("message", VStr "hi"); ("age", VObj [("%allot", VNum 120584)]);
            ("_id", VStr "uuid-0")];
      VObj [("message", VStr "hi"); ("age", VObj [("%allot", VNum (-136398))]);
            ("_id", VStr "uuid-0")] ];
    [ VObj [("message", VStr "hi"); ("_id", VStr "uuid-1")] ] ].

(** A store that holds the batch of this one record, at address 2. *)
Definition store_with_feedback : Heap.state :=
  snd (Heap.allocTree (VArr [feedback]) {| Heap.cells := []; Heap.tick := 0 |}).

(** The same network, where the signer refuses the second node. *)
Definition second_node_fails : World :=
  Reference.world ["did:b"]
    (fun _ _ => Response 200 (Some "application/json") "{}").

(** A network whose nodes answer 500 with a body in braces that is not
    JSON. *)
Definition malformed_error_body : World :=
  Reference.world [] (fun _ _ => Response 500 (Some "text/plain") "{oops}").

(** The answer of a node to a read: one record, with the identifier
    [abc] and the share [n] of its field [age]. *)
Definition one_record (n : string) : string :=
  "{" +:+ Reference.quoted "data" +:+ ":[{"
  +:+ Reference.quoted "_id" +:+ ":" +:+ Reference.quoted "abc" +:+ ","
  +:+ Reference.quoted "age" +:+ ":{" +:+ Reference.quoted "%allot"
  +:+ ":" +:+ n +:+ "}}]}".

(** Two nodes answer a read with their share of the record, the third
    cannot be reached. *)
Definition third_node_unreachable : World :=
  Reference.world []
    (fun url _ =>
       if String.prefix "https://node-a" url
       then Response 200 (Some "application/json") (one_record "18")
       else if String.prefix "https://node-b" url
       then Response 200 (Some "application/json; charset=utf-8")
              (one_record "23")
       else NetworkError "connect ETIMEDOUT").

Definition node_a : SecretVaultWrapper.node :=
  {| SecretVaultWrapper.url := "https://node-a";
     SecretVaultWrapper.did := "did:a" |}.

Definition node_b : SecretVaultWrapper.node :=
  {| SecretVaultWrapper.url := "https://node-b";
     SecretVaultWrapper.did := "did:b" |}.

End Examples.

(** ** SecretVaultWrapper, the schema operations *)

Module SecretVaultSchemas.

Import SecretVaultWrapper.

(** [setSchemaId(schemaId, operation = this.operation)]; [None] stands for
    an [operation] that is left out. *)
Definition setSchemaId (v : t) (schemaId : value) (operation : option string)
  : t :=
  {| nodes := nodes v;
     schemaId := schemaId;
     operation := match operation with
                  | Some o => o
                  | None => SecretVaultWrapper.operation v
                  end;
     secretKey := secretKey v;
     secretKeySeed := secretKeySeed v;
     nilqlWrapper := nilqlWrapper v |}.

Section Schemas.
Context (w : World).

(** [Promise.all] over the nodes: the tokens in the order of the nodes,
    or the rejection of a node whose token cannot be signed. *)
Definition generateTokensForAllNodes (v : t) : result (list value) :=
  mapM (fun n =>
          let! token := generateNodeToken w (did n) in
          Ok (VObj [("node", VStr (url n)); ("token", VStr token)]))
    (nodes v).

(** The [try] and [catch] of the loop of [getSchemas], for a node and its
    token. *)
Definition schemasOfNode (n : node) (jwt : string) : value :=
  match makeRequest w (url n) "schemas" jwt (VObj []) "GET" with
  | Ok result =>
      VObj (assign (own_props result ++ [("node", node_value n)]) [])
  | Throw error => VObj [("error", error); ("node", node_value n)]
  end.

(** [for (const node of this.nodes)], with [results] as accumulator; the
    token is generated before the [try]. *)
Fixpoint getSchemasLoop (ns : list node) (results : list value)
  : result (list value) :=
  match ns with
  | [] => Ok results
  | n :: ns' =>
      let! jwt := generateNodeToken w (did n) in
      getSchemasLoop ns' (results ++ [schemasOfNode n jwt])
  end.

Definition getSchemas (v : t) : result (list value) :=
  getSchemasLoop (nodes v) [].

(** A leg of a fan-out that names its method. *)
Definition tryNodeWith (method : string) (n : node) (endpoint : string)
    (payload : value) : result value :=
  let! jwt := generateNodeToken w (did n) in
  makeRequest w (url n) endpoint jwt payload method.

Definition requestNodeWith (method : string) (n : node) (endpoint : string)
    (payload : value) : settled :=
  match tryNodeWith method n endpoint payload with
  | Ok result =>
      Fulfilled (VObj [("result", result); ("node", node_value n)])
  | Throw error =>
      Rejected (VObj [("error", error); ("node", node_value n)])
  end.

(** [if (!schemaId) schemaId = uuidv4()], for the parameter with its
    default [null]: the identifier and the random source after it. *)
Definition schemaIdOrNew (schemaId : value) (tick : nat) : value * nat :=
  if negb (truthy (NilQLWrapper.default_arg schemaId VNull))
  then (VStr (uuidv4 w tick), S tick)
  else (NilQLWrapper.default_arg schemaId VNull, tick).

Definition schemaPayload (schema schemaName id : value) : value :=
  VObj [("_id", id); ("name", schemaName); ("schema", schema)].

Definition createSchemaForNode (schema schemaName id : value) (n : node)
  : settled :=
  requestNode w n "schemas" (schemaPayload schema schemaName id).

Definition createSchema (v : t) (schema schemaName schemaId : value)
    (tick : nat) : list value * nat :=
  let id := schemaIdOrNew schemaId tick in
  (map (outcome [("schemaId", fst id); ("name", schemaName)])
     (allSettled (map (createSchemaForNode schema schemaName (fst id))
                    (nodes v))),
   snd id).

Definition deleteSchemaFromNode (schemaId : value) (n : node) : settled :=
  requestNodeWith "DELETE" n "schemas" (VObj [("id", schemaId)]).

Definition deleteSchema (v : t) (schemaId : value) : list value :=
  map (outcome [("schemaId", schemaId)])
    (allSettled (map (deleteSchemaFromNode schemaId) (nodes v))).

End Schemas.
End SecretVaultSchemas.

(** ** The server: the handlers of the Express application *)

Module Server.

Import SecretVaultWrapper.

(** [String(v)], as string concatenation and property access apply it.
    An array prints its elements separated by commas, [null] and
    [undefined] among them as nothing; an object prints as
    [[object Object]]; an Error prints its name and its message.  A number
    is one of the integers of the model, which print in decimal. *)
Fixpoint to_string (v : value) : string :=
  match v with
  | VUndef => "undefined"
  | VNull => "null"
  | VBool true => "true"
  | VBool false => "false"
  | VNum n => if (n <? 0)%Z then "-" +:+ pretty (Z.abs_N n) else pretty (Z.to_N n)
  | VStr s => s
  | VArr xs =>
      (fix join (xs : list value) : string :=
         match xs with
         | [] => EmptyString
         | [x] => match x with VUndef | VNull => EmptyString | _ => to_string x end
         | x :: xs' =>
             match x with VUndef | VNull => EmptyString | _ => to_string x end
             +:+ "," +:+ join xs'
         end) xs
  | VObj _ => "[object Object]"
  | VErr m => if String.eqb m EmptyString then "Error" else "Error: " +:+ m
  end.

(** [a || b] *)
Definition or_else (a b : value) : value := if truthy a then a else b.

(** [v?.k] *)
Definition optional (v : value) (k : string) : value :=
  match v with
  | VUndef | VNull => VUndef
  | _ => get v k
  end.

(** The row of [app_ids] for an [app_id], as the Supabase client reports
    it: [{ data, error }] of
    [supabase.from('app_ids').select('*').eq('app_id', id).single()]. *)
Record Supabase : Type := {
  single : value -> value * value
}.

(** [orgConfig.nodes] *)
Definition orgConfig_nodes : list node :=
  [ {| url := "https://nildb-nx8v.nillion.network";
       did := "did:nil:testnet:nillion1qfrl8nje3nvwh6cryj63mz2y6gsdptvn07nx8v" |};
    {| url := "https://nildb-p3mx.nillion.network";
       did := "did:nil:testnet:nillion1uak7fgsp69kzfhdd6lfqv69fnzh3lprg2mp3mx" |};
    {| url := "https://nildb-rugk.nillion.network";
       did := "did:nil:testnet:nillion1kfremrp2mryxrynx66etjl8s7wazxc3rssrugk" |} ].

(** [secretVaultCollections], the own properties of the cache object. *)
Definition cache : Type := list (string * SecretVaultWrapper.t).

(** The properties that the cache object, an object literal, inherits
    from [Object.prototype]; each of them holds a function or an object,
    which is truthy. *)
Definition inherited_names : list string :=
  [ "constructor"; "hasOwnProperty"; "isPrototypeOf"; "propertyIsEnumerable";
    "toLocaleString"; "toString"; "valueOf"; "__proto__";
    "__defineGetter__"; "__defineSetter__"; "__lookupGetter__";
    "__lookupSetter__" ].

(** What [secretVaultCollections[siteId]] evaluates to. *)
Inductive found : Type :=
  | Collection (v : SecretVaultWrapper.t)
  | Inherited (name : string)
  | Missing.

Definition lookup (collections : cache) (siteId : value) : found :=
  match assoc (to_string siteId) collections with
  | Some v => Collection v
  | None =>
      if existsb (String.eqb (to_string siteId)) inherited_names
      then Inherited (to_string siteId)
      else Missing
  end.

(** What a handler sends: [res.status(code).json(body)]; [res.json] alone
    sends 200. *)
Record response : Type := { status : N; json : value }.

Definition NotAFunction (method : string) : value :=
  TypeError ("collection." +:+ method +:+ " is not a function").

(** [result.flatMap((item) => item.data.created)]: an array that the
    callback returns is spliced in, anything else is one element. *)
Fixpoint created (result : list value) : JS.result (list value) :=
  match result with
  | [] => Ok []
  | item :: result' =>
      let! data := prop item "data" in
      let! c := prop data "created" in
      let! rest := created result' in
      Ok (match c with
          | VArr xs => xs ++ rest
          | _ => c :: rest
          end)
  end.

(** [[...new Set(xs)]]: the first occurrence of every element, in the
    order of [xs]. *)
Definition distinct (xs : list value) : list value :=
  fold_left (fun set x => if existsb (strict_eq x) set then set else set ++ [x])
    xs [].

Section Handlers.
Context (w : World) (lib : Nilql) (db : Supabase).

(** What a call of [getSecretVaultCollection] has come to when the last
    of its [await]s is over.  The cache is tested when the call begins; on
    a hit the call returns at once.  Otherwise the call waits for the
    database and for [init], and other calls may run in between. *)
Inductive pending : Type :=
  | Hit (hit : found)
  | Initialised (collection : SecretVaultWrapper.t)
  | Failed (error : value).

(** [getSecretVaultCollection(siteId)] up to the end of
    [await collection.init()], on the cache as it is when the call begins:
    what the call has come to, and the state of the random source, which
    moves when a collection is initialised. *)
Definition lookupOrInit (collections : cache) (siteId : value) (tick : nat)
  : pending * nat :=
  match lookup collections siteId with
  | Missing =>
      let data := fst (single db siteId) in
      let error := snd (single db siteId) in
      if truthy error || negb (truthy data)
      then (Failed (VErr "Site not found"), tick)
      else
        let collection :=
          SecretVaultWrapper.constructor orgConfig_nodes
            (get data "schema_id") OperationType.STORE VUndef VUndef in
        let r := SecretVaultWrapper.init w lib collection tick in
        match fst r with
        | Ok _ => (Initialised (snd r), S tick)
        | Throw err => (Failed err, S tick)
        end
  | hit => (Hit hit, tick)
  end.

(** The rest of the call, on the cache as it is by then: a collection
    that was initialised is written to the cache, over what the cache
    holds for the site, and returned; an error is thrown. *)
Definition conclude (p : pending) (siteId : value) (collections : cache)
  : JS.result found * cache :=
  match p with
  | Hit hit => (Ok hit, collections)
  | Initialised collection =>
      (Ok (Collection collection),
       obj_put (to_string siteId) collection collections)
  | Failed error => (Throw error, collections)
  end.

(** A call of [getSecretVaultCollection(siteId)] that no other call
    overlaps: how the call ends, the cache as it leaves it, and the state
    of the random source. *)
Definition getSecretVaultCollection (collections : cache) (siteId : value)
    (tick : nat) : JS.result found * cache * nat :=
  let p := lookupOrInit collections siteId tick in
  (conclude (fst p) siteId collections, snd p).

(** The record that the feedback handler writes, from the fields of the
    request body. *)
Definition feedbackData (rating message email screenshot metadata : value)
    (timestamp : string) : JS.result value :=
  let! userAgent := prop metadata "userAgent" in
  let! screenSize := prop metadata "screenSize" in
  let! referrer := prop metadata "referrer" in
  Ok (VObj
        [ ("rating", or_else rating (VStr EmptyString));
          ("message", message);
          ("url", or_else (optional metadata "url") (VStr EmptyString));
          ("timestamp", VStr timestamp);
          ("browser", or_else (optional metadata "browser") (VStr EmptyString));
          ("platform", or_else (optional metadata "platform") (VStr EmptyString));
          ("language", or_else (optional metadata "language") (VStr EmptyString));
          ("email", VObj [("%allot", or_else email (VStr EmptyString))]);
          ("screenshot", VObj [("%allot", or_else screenshot (VStr EmptyString))]);
          ("userAgent", VObj [("%allot", or_else userAgent (VStr EmptyString))]);
          ("screenSize", VObj [("%allot", or_else screenSize (VStr EmptyString))]);
          ("referrer", VObj [("%allot", or_else referrer (VStr EmptyString))]) ]).

(** The inner [try] of the feedback handler after the collection is
    there: the record identifiers that it reports. *)
Definition submit (collection : found) (rating message email screenshot
    metadata : value) (timestamp : string) (tick : nat)
  : JS.result (list value) :=
  let! record := feedbackData rating message email screenshot metadata
                   timestamp in
  let! result :=
    match collection with
    | Collection v => writeToNodes w lib v [record] tick
    | _ => Throw (NotAFunction "writeToNodes")
    end in
  let! ids := created result in
  Ok (distinct ids).

Definition InternalServerError : response :=
  {| status := 500; json := VObj [("error", VStr "Internal server error")] |}.

(** [app.post('/api/feedback', ...)], for the parsed body of the request,
    the time of the request and the state of the random source, when no
    other request is handled in between. *)
Definition postFeedback (collections : cache) (body : value)
    (timestamp : string) (tick : nat) : response * cache :=
  match body with
  | VUndef | VNull => (InternalServerError, collections)
  | _ =>
      let siteId := get body "siteId" in
      let message := get body "message" in
      if negb (truthy siteId) then
        ({| status := 400;
            json := VObj [("error", VStr "Site ID is required")] |},
         collections)
      else if negb (truthy message) then
        ({| status := 400;
            json := VObj [("error", VStr "Message is required")] |},
         collections)
      else
        let got := getSecretVaultCollection collections siteId tick in
        let attempt :=
          let! collection := fst (fst got) in
          submit collection (get body "rating") message (get body "email")
            (get body "screenshot") (get body "metadata") timestamp (snd got) in
        match attempt with
        | Ok recordIds =>
            ({| status := 201;
                json := VObj [("success", VBool true);
                              ("message", VStr "Feedback submitted successfully");
                              ("recordIds", VArr recordIds)] |},
             snd (fst got))
        | Throw error =>
            match prop error "message" with
            | Ok m =>
                ({| status := 500;
                    json := VObj [("error",
                                   VStr ("Error processing feedback: "
                                         +:+ to_string m))] |},
                 snd (fst got))
            | Throw _ => (InternalServerError, snd (fst got))
            end
        end
  end.

(** [app.get('/api/debug/feedback/:siteId', ...)], for the route
    parameter, when no other request is handled in between. *)
Definition getDebugFeedback (collections : cache) (siteId : string)
    (tick : nat) : response * cache :=
  let data := fst (single db (VStr siteId)) in
  let error := snd (single db (VStr siteId)) in
  if truthy error || negb (truthy data) then
    ({| status := 404; json := VObj [("error", VStr "Site not found")] |},
     collections)
  else
    let got := getSecretVaultCollection collections (VStr siteId) tick in
    let attempt :=
      let! collection := fst (fst got) in
      match collection with
      | Collection v => readFromNodes w lib v (VObj [])
      | _ => Throw (NotAFunction "readFromNodes")
      end in
    match attempt with
    | Ok feedback =>
        ({| status := 200; json := VObj [("feedback", VArr feedback)] |},
         snd (fst got))
    | Throw _ => (InternalServerError, snd (fst got))
    end.

(** [app.get('/api/widget/:appId', ...)] *)
Definition getWidget (appId : string) : response :=
  let data := fst (single db (VStr appId)) in
  let error := snd (single db (VStr appId)) in
  if truthy error then
    {| status := 500;
       json := VObj [("error", VStr "Failed to fetch app configuration")] |}
  else if negb (truthy data) then
    {| status := 404;
       json := VObj [("error", VStr "App configuration not found")] |}
  else
    match prop (get data "config") "schema_id" with
    | Ok schema_id =>
        {| status := 200;
           json :=
             VObj [("config",
                    VObj (assign (own_props (get data "config")
                                  ++ [("siteId", get data "app_id");
                                      ("schemaId", schema_id)]) []))] |}
    | Throw _ => InternalServerError
    end.

End Handlers.
End Server.

(** ** The widget: adjustColor *)

Module Widget.

(** The value of a digit in base 16. *)
Definition hex_value (c : ascii) : option Z :=
  let n := nat_of_ascii c in
  if (48 <=? n)%nat && (n <=? 57)%nat then Some (Z.of_nat n - 48)%Z
  else if (97 <=? n)%nat && (n <=? 102)%nat then Some (Z.of_nat n - 87)%Z
  else if (65 <=? n)%nat && (n <=? 70)%nat then Some (Z.of_nat n - 55)%Z
  else None.

(** The white space and the line terminators of ASCII, which [parseInt]
    skips at the start. *)
Definition is_space (c : ascii) : bool :=
  let n := nat_of_ascii c in
  ((9 <=? n)%nat && (n <=? 13)%nat) || (n =? 32)%nat.

Fixpoint trim_start (s : string) : string :=
  match s with
  | String c s' => if is_space c then trim_start s' else s
  | EmptyString => s
  end.

(** The value of the longest prefix of digits, [None] when there is no
    digit. *)
Fixpoint hex_digits (acc : option Z) (s : string) : option Z :=
  match s with
  | String c s' =>
      match hex_value c with
      | Some d =>
          hex_digits (Some (16 * match acc with Some a => a | None => 0 end + d)%Z) s'
      | None => acc
      end
  | EmptyString => acc
  end.

(** [parseInt(s, 16)]; [None] is [NaN].  White space is skipped, a sign is
    read, a prefix [0x] or [0X] is dropped, and the digits that follow are
    read as far as they go. *)
Definition parseInt16 (s : string) : option Z :=
  let s1 := trim_start s in
  let signed :=
    match s1 with
    | String c r =>
        if Ascii.eqb c "-" then ((-1)%Z, r)
        else if Ascii.eqb c "+" then (1%Z, r)
        else (1%Z, s1)
    | EmptyString => (1%Z, s1)
    end in
  let digits :=
    match snd signed with
    | String z (String x r) =>
        if Ascii.eqb z "0" && (Ascii.eqb x "x" || Ascii.eqb x "X") then r
        else snd signed
    | _ => snd signed
    end in
  match hex_digits None digits with
  | Some v => Some (fst signed * v)%Z
  | None => None
  end.

Definition hex_char (d : Z) : ascii :=
  match String.get (Z.to_nat d) "0123456789abcdef" with
  | Some c => c
  | None => "0"%char
  end.

(** [n.toString(16)] for an integer from 0 to 255. *)
Definition toString16 (n : Z) : string :=
  if (n <? 16)%Z then String (hex_char n) EmptyString
  else String (hex_char (n / 16)) (String (hex_char (n mod 16)) EmptyString).

(** [s.substr(-2)] *)
Definition substr_last2 (s : string) : string :=
  Str.drop (String.length s - 2) s.

(** The callback of the second [replace]:
    [('0' + Math.min(255, Math.max(0, parseInt(color, 16) + amount)).toString(16)).substr(-2)];
    with [NaN], which [Math.max] and [Math.min] pass on, the string is
    [0NaN]. *)
Definition component (pair : string) (amount : Z) : string :=
  match parseInt16 pair with
  | Some v =>
      substr_last2 ("0" +:+ toString16 (Z.min 255 (Z.max 0 (v + amount))))
  | None => substr_last2 ("0" +:+ "NaN")
  end.

(** [s.replace(/../g, f)]: from the left, two characters that are not line
    terminators are replaced together; a character that cannot start such
    a pair stays. *)
Fixpoint replace_pairs (f : string -> string) (s : string) : string :=
  match s with
  | String a (String b rest as s') =>
      if negb (Str.is_line_terminator a) && negb (Str.is_line_terminator b)
      then f (String a (String b EmptyString)) +:+ replace_pairs f rest
      else String a (replace_pairs f s')
  | _ => s
  end.

(** [s.replace(/^#/, '')] *)
Definition strip_hash (s : string) : string :=
  match s with
  | String c s' => if Ascii.eqb c "#" then s' else s
  | EmptyString => s
  end.

(** [adjustColor(color, amount)], for a string of ASCII characters and an
    integer. *)
Definition adjustColor (color : string) (amount : Z) : string :=
  replace_pairs (fun pair => component pair amount) (strip_hash color).

End Widget.

(** ** Vocabulary of the further properties *)

Module Vocabulary.

(** A string without a line terminator. *)
Fixpoint oneLine (s : string) : bool :=
  match s with
  | EmptyString => true
  | String c s' => negb (Str.at_line_terminator s) && oneLine s'
  end.

(** The character [c] does not occur in [s]. *)
Fixpoint lacks (c : ascii) (s : string) : bool :=
  match s with
  | EmptyString => true
  | String c' s' => negb (Ascii.eqb c' c) && lacks c s'
  end.

(** A document in which no value of an entry carries the marker, at any
    depth, and which holds no [Error]. *)
Fixpoint unmarked (v : value) : bool :=
  match v with
  | VObj fs =>
      forallb (fun kv => negb (has_key "%allot" (snd kv)) && unmarked (snd kv)) fs
  | VArr xs => forallb (fun x => negb (has_key "%allot" x) && unmarked x) xs
  | VErr _ => false
  | _ => true
  end.

(** The values of entries that carry the marker and are reached by the
    walk: the walk does not go below a marked value. *)
Fixpoint markedEntries (v : value) : nat :=
  match v with
  | VObj fs =>
      fold_right (fun kv n =>
                    ((if has_key "%allot" (snd kv) then 1
                      else markedEntries (snd kv)) + n)%nat) 0%nat fs
  | VArr xs =>
      fold_right (fun x n =>
                    ((if has_key "%allot" x then 1 else markedEntries x) + n)%nat)
        0%nat xs
  | _ => 0%nat
  end.

(** A digit of base 16, and one that is not an upper-case letter. *)
Definition isHex (c : ascii) : bool :=
  match Widget.hex_value c with Some _ => true | None => false end.

Definition isLowerHex (c : ascii) : bool :=
  let n := nat_of_ascii c in
  ((48 <=? n)%nat && (n <=? 57)%nat) || ((97 <=? n)%nat && (n <=? 102)%nat).

(** A string of pairs of digits of base 16. *)
Fixpoint hexPairs (s : string) : bool :=
  match s with
  | EmptyString => true
  | String a (String b rest) => isHex a && isHex b && hexPairs rest
  | String _ EmptyString => false
  end.

Fixpoint lowerHex (s : string) : bool :=
  match s with
  | EmptyString => true
  | String c s' => isLowerHex c && lowerHex s'
  end.

End Vocabulary.

(** ** Networks and inputs of the further properties *)

Module Cases.

(** Every node answers 404 with a JSON object that names the error. *)
Definition not_found : World :=
  Reference.world []
    (fun _ _ =>
       Response 404 (Some "application/json")
         ("{" +:+ (Reference.quoted "error" +:+ ":"
                   +:+ Reference.quoted "no such schema") +:+ "}")).

(** Every node is behind a gateway that answers 502 with a page. *)
Definition gateway_down : World :=
  Reference.world [] (fun _ _ => Response 502 (Some "text/html") "Bad Gateway").

(** No node can be reached. *)
Definition unreachable : World :=
  Reference.world [] (fun _ _ => NetworkError "connect ETIMEDOUT").

(** Every node answers 200 with a JSON object that has a [status] of its
    own. *)
Definition status_in_body : World :=
  Reference.world []
    (fun _ _ =>
       Response 200 (Some "application/json")
         ("{" +:+ Reference.quoted "status" +:+ ":"
          +:+ Reference.quoted "stored" +:+ "}")).

(** A record without the marker, with an object and an array inside. *)
Definition nested_plain : value :=
  VObj [("message", VStr "hi");
        ("tags", VArr [VStr "bug"; VNum 2]);
        ("page", VObj [("url", VStr "/pricing"); ("visits", VNum 3)])].

(** What the walk makes of the record with one shareable field, from the
    random source at 0. *)
Definition walked_feedback : value * nat :=
  match NilQLWrapper.encryptDeep (Reference.sharing 3) (VObj [("salt", VNum 1)])
          Examples.feedback 0 with
  | Ok r => r
  | Throw _ => (VUndef, 0%nat)
  end.

(** The vault of three nodes before [init]. *)
Definition fresh_vault : SecretVaultWrapper.t :=
  SecretVaultWrapper.constructor Reference.three_nodes (VStr "schema-1")
    OperationType.STORE VUndef VUndef.

(** A vault that is handed a key of its own. *)
Definition keyed_vault : SecretVaultWrapper.t :=
  SecretVaultWrapper.constructor Reference.three_nodes (VStr "schema-1")
    OperationType.STORE (VObj [("salt", VNum 1)]) VUndef.

(** A vault that is handed the number zero as key. *)
Definition zero_key_vault : SecretVaultWrapper.t :=
  SecretVaultWrapper.constructor Reference.three_nodes (VStr "schema-1")
    OperationType.STORE (VNum 0) VUndef.

(** The engine that [init] returns for a vault on the quiet network. *)
Definition engine_of (v : SecretVaultWrapper.t) : NilQLWrapper.t :=
  match fst (SecretVaultWrapper.init Examples.quiet (Reference.sharing 3) v 0) with
  | Ok e => e
  | Throw _ => Examples.engine_without_key
  end.

Definition engine_of_keyed_vault : NilQLWrapper.t := engine_of keyed_vault.

Definition engine_of_zero_key_vault : NilQLWrapper.t := engine_of zero_key_vault.

(** A second record without an identifier. *)
Definition other_record : value := VObj [("message", VStr "bye")].

(** A share of a record whose identifier is an object. *)
Definition share_with_object_id (n : Z) : value :=
  VObj [("_id", VObj [("$oid", VStr "abc")]);
        ("age", VObj [("%allot", VNum n)])].

(** The tokens of the three nodes, and what they answer about their
    schemas, on the quiet network. *)
Definition tokens : list value :=
  match SecretVaultSchemas.generateTokensForAllNodes Examples.quiet fresh_vault with
  | Ok ts => ts
  | Throw _ => []
  end.

Definition schemas : list value :=
  match SecretVaultSchemas.getSchemas Examples.quiet fresh_vault with
  | Ok outs => outs
  | Throw _ => []
  end.

(** A database that knows one site. *)
Definition row : value :=
  VObj [("app_id", VStr "site-1");
        ("schema_id", VStr "schema-1");
        ("config", VObj [("theme", VStr "dark");
                         ("schema_id", VStr "schema-1")])].

Definition db_known : Server.Supabase :=
  {| Server.single := fun id =>
       if strict_eq id (VStr "site-1") then (row, VNull)
       else (VNull, VObj [("message", VStr "no rows")]) |}.

(** The collection of that site, as [getSecretVaultCollection] builds
    it, and a cache that holds it. *)
Definition site_collection : SecretVaultWrapper.t :=
  snd (SecretVaultWrapper.init Examples.quiet (Reference.sharing 3)
         (SecretVaultWrapper.constructor Server.orgConfig_nodes
            (VStr "schema-1") OperationType.STORE VUndef VUndef) 0).

(** The collection of the same site, initialised by a call that found the
    random source at 5: its engine has another key. *)
Definition site_collection_later : SecretVaultWrapper.t :=
  snd (SecretVaultWrapper.init Examples.quiet (Reference.sharing 3)
         (SecretVaultWrapper.constructor Server.orgConfig_nodes
            (VStr "schema-1") OperationType.STORE VUndef VUndef) 5).

Definition cache_with_site : Server.cache := [("site-1", site_collection)].

(** Bodies of feedback requests: a complete one, one without [metadata],
    and one whose site is named like a method of every object. *)
Definition body_full : value :=
  VObj [("siteId", VStr "site-1");
        ("rating", VNum 5);
        ("message", VStr "hi");
        ("email", VStr "a@b.c");
        ("metadata", VObj [("url", VStr "/pricing");
                           ("userAgent", VStr "Firefox")])].

Definition body_without_metadata : value :=
  VObj [("siteId", VStr "site-1"); ("message", VStr "hi")].

Definition body_constructor : value :=
  VObj [("siteId", VStr "constructor");
        ("message", VStr "hi");
        ("metadata", VObj [])].

Definition noon : string := "2025-01-01T12:00:00.000Z".

End Cases.

(** * Properties *)

Import NilQLWrapper SecretVaultWrapper.

(** ** Object properties *)

Lemma assoc_obj_set_eq {V : Type} {k : string} {v : V} fs :
  assoc k (obj_set k v fs) = Some v.
Proof.
  induction fs as [|[k' v'] fs IH]; simpl.
  - now rewrite String.eqb_refl.
  - destruct (String.eqb k k') eqn:E; simpl.
    + now rewrite String.eqb_refl.
    + now rewrite E.
Qed.

Lemma assoc_obj_set_ne {V : Type} (k k' : string) (v : V) fs :
  k <> k' -> assoc k (obj_set k' v fs) = assoc k fs.
Proof.
  intros Hne. induction fs as [|[k'' v''] fs IH]; simpl.
  - destruct (String.eqb k k') eqn:E; [|reflexivity].
    apply String.eqb_eq in E. contradiction.
  - destruct (String.eqb k' k'') eqn:E; simpl.
    + apply String.eqb_eq in E. subst k''.
      destruct (String.eqb k k') eqn:E'; [|reflexivity].
      apply String.eqb_eq in E'. contradiction.
    + destruct (String.eqb k k''); [reflexivity|exact IH].
Qed.

Lemma assoc_assign_absent {V : Type} (k : string) (ps o : list (string * V)) :
  (forall p, In p ps -> fst p <> k) ->
  assoc k (assign ps o) = assoc k o.
Proof.
  revert o. induction ps as [|[k' v'] ps IH]; intros o Hps; simpl.
  - reflexivity.
  - unfold assign in *. simpl. rewrite IH.
    + apply assoc_obj_set_ne. intros ->. apply (Hps (k', v')); [now left|reflexivity].
    + intros p Hp. apply Hps. now right.
Qed.

Lemma assoc_assign_last {V : Type} (k : string) (v : V) ps qs o :
  (forall p, In p qs -> fst p <> k) ->
  assoc k (assign (ps ++ (k, v) :: qs) o) = Some v.
Proof.
  intros Hqs. unfold assign. rewrite fold_left_app. simpl.
  change (assoc k (assign qs (obj_set k v (fold_left
            (fun acc kv => obj_set (fst kv) (snd kv) acc) ps o))) = Some v).
  rewrite assoc_assign_absent by exact Hqs.
  apply assoc_obj_set_eq.
Qed.

(** ** The engine guard *)

(** C6, as the code has it: an engine whose key slot is empty (every
    engine built without a key of its own, until [init] has set one)
    rejects [encrypt], [decrypt], [prepareAndAllot] and [unify] with the
    not-initialized error, whatever the arguments. *)
Theorem no_key_not_initialized (lib : Nilql) (e : NilQLWrapper.t)
    (data shares : value) (documents : list value) (tick : nat) :
  truthy (NilQLWrapper.secretKey e) = false ->
  encrypt lib e data tick = Throw NotInitialized /\
  decrypt lib e shares = Throw NotInitialized /\
  prepareAndAllot lib e data tick = Throw NotInitialized /\
  unify lib e documents = Throw NotInitialized.
Proof.
  intros Hkey.
  unfold encrypt, decrypt, prepareAndAllot, unify.
  rewrite Hkey. simpl. repeat split.
Qed.

Lemma no_key_not_initialized_witness :
  truthy (NilQLWrapper.secretKey Examples.engine_without_key) = false /\
  encrypt (Reference.sharing 3) Examples.engine_without_key (VNum 5) 0
  = Throw NotInitialized.
Proof.
  split; [reflexivity|].
  apply (no_key_not_initialized (Reference.sharing 3) _ (VNum 5) VNull [] 0).
  reflexivity.
Defined.

(** C6 as stated fails: an engine built with a key of its own encrypts
    before [init] has been called. *)
Lemma supplied_key_encrypts_before_init :
  encrypt (Reference.sharing 3) Examples.engine_with_key (VNum 5) 0
  = Ok (VArr [VNum 18; VNum 104747; VNum (-104760)]).
Proof. vm_compute. reflexivity. Qed.

(** ** Initialisation and the key type *)

(** C7, as the code has it: with no key and no seed, a key type other
    than the two known ones makes [init] fail with the unsupported-key-type
    error, and the engine is left as it was, without a key. *)
Theorem unknown_key_type_rejected (lib : Nilql) (e : NilQLWrapper.t) (tick : nat) :
  NilQLWrapper.secretKey e = VNull ->
  truthy (NilQLWrapper.secretKeySeed e) = false ->
  strict_eq (keyType e) KeyType.SECRET = false ->
  strict_eq (keyType e) KeyType.CLUSTER = false ->
  NilQLWrapper.init lib e tick = (Throw UnsupportedKeyType, e) /\
  NilQLWrapper.secretKey (snd (NilQLWrapper.init lib e tick)) = VNull.
Proof.
  intros Hkey Hseed Hs Hc.
  assert (NilQLWrapper.init lib e tick = (Throw UnsupportedKeyType, e)) as H.
  { unfold NilQLWrapper.init. rewrite Hseed. simpl. rewrite Hkey. simpl.
    rewrite Hs, Hc. reflexivity. }
  split; [exact H|]. rewrite H. exact Hkey.
Qed.

Lemma unknown_key_type_rejected_witness :
  NilQLWrapper.init (Reference.sharing 3) Examples.engine_unknown_type 0
  = (Throw UnsupportedKeyType, Examples.engine_unknown_type).
Proof.
  apply (unknown_key_type_rejected (Reference.sharing 3)); reflexivity.
Defined.

(** C7 as stated fails: with a seed, [init] makes the key from the seed
    and never looks at the key type. *)
Lemma unknown_key_type_with_seed_initialises :
  fst (NilQLWrapper.init (Reference.sharing 3)
         Examples.engine_unknown_type_seeded 0) = Ok tt /\
  truthy (NilQLWrapper.secretKey
            (snd (NilQLWrapper.init (Reference.sharing 3)
                    Examples.engine_unknown_type_seeded 0))) = true.
Proof. vm_compute. split; reflexivity. Qed.

(** ** Share selection *)

Lemma nodeData_lookup (v : SecretVaultWrapper.t) (index j : nat)
    (transformedData : list (list value)) (encryptedShares : list value) :
  transformedData !! j = Some encryptedShares ->
  nodeData v index transformedData !! j = Some (pick v index encryptedShares).
Proof.
  intros H. unfold nodeData. rewrite list_lookup_fmap, H. reflexivity.
Qed.

Lemma allotData_one (lib : Nilql) (v : SecretVaultWrapper.t) (item : value)
    (tick : nat) (td : list (list value) * nat) :
  allotData lib v [item] tick = Ok td -> exists shares, fst td = [shares].
Proof.
  unfold allotData. simpl.
  destruct (nilql v) as [e|err]; simpl; [|discriminate].
  destruct (prepareAndAllot lib e item tick) as [r|err]; simpl; [|discriminate].
  intros H. injection H as <-. eauto.
Qed.

(** C2: in a write and in an update, the leg of the node at [index] is
    one request to that node, to [data/create] or [data/update], made with
    the token of the node, and what the request carries for a record is,
    when the allotment of the record has as many elements as there are
    nodes, the element at [index], and for any other length element 0 as
    it is.  A write carries this for every record of the batch, in the
    order of the batch; an update carries it for its one record, under
    [$set].  The outcome that the caller gets for the node is the outcome
    of that request. *)
Theorem node_receives_its_share (w : World) (lib : Nilql)
    (v : SecretVaultWrapper.t) (data : list value)
    (recordUpdate filter : value) (tick index : nat) (n : node)
    (jwt : string) :
  nodes v !! index = Some n ->
  createJWT w (did n) = inl jwt ->
  (forall ids td,
     idData w data tick = Ok ids ->
     allotData lib v (fst ids) (snd ids) = Ok td ->
     exists sent,
       let payload := VObj [("schema", schemaId v); ("data", VArr sent)] in
       writeLegs w v (fst td) !! index
       = Some (requestNode w n "data/create" payload) /\
       tryNode w n "data/create" payload
       = makeRequest w (url n) "data/create" jwt payload "POST" /\
       (exists outs,
          writeToNodes w lib v data tick = Ok outs /\
          outs !! index
          = Some (outcome [("schemaId", schemaId v)]
                    (requestNode w n "data/create" payload))) /\
       length sent = length (fst td) /\
       forall j shares,
         fst td !! j = Some shares ->
         (length shares <> length (nodes v) ->
          sent !! j = Some (JS.index shares 0)) /\
         (length shares = length (nodes v) ->
          sent !! j = shares !! index)) /\
  (forall td,
     allotData lib v [recordUpdate] tick = Ok td ->
     exists shares set,
       let payload :=
         VObj [("schema", schemaId v);
               ("update", VObj [("$set", set)]);
               ("filter", default_arg filter (VObj []))] in
       fst td = [shares] /\
       updateLegs w v (fst td) (default_arg filter (VObj [])) !! index
       = Some (requestNode w n "data/update" payload) /\
       tryNode w n "data/update" payload
       = makeRequest w (url n) "data/update" jwt payload "POST" /\
       (exists outs,
          updateDataToNodes w lib v recordUpdate filter tick = Ok outs /\
          outs !! index
          = Some (outcome [] (requestNode w n "data/update" payload))) /\
       (length shares <> length (nodes v) -> set = JS.index shares 0) /\
       (length shares = length (nodes v) -> Some set = shares !! index)).
Proof.
  intros Hn Hjwt.
  assert (forall endpoint payload,
            tryNode w n endpoint payload
            = makeRequest w (url n) endpoint jwt payload "POST") as Htry.
  { intros endpoint payload. unfold tryNode, generateNodeToken.
    now rewrite Hjwt. }
  assert (forall shares,
            (length shares <> length (nodes v) ->
             pick v index shares = JS.index shares 0) /\
            (length shares = length (nodes v) ->
             Some (pick v index shares) = shares !! index)) as Hpick.
  { intros shares. unfold pick. split; intros Hlen.
    - destruct (Nat.eqb_spec (length shares) (length (nodes v)));
        [contradiction|reflexivity].
    - rewrite Hlen, Nat.eqb_refl. cbn [negb]. unfold JS.index.
      destruct (shares !! index) eqn:E; [reflexivity|].
      apply lookup_ge_None in E. apply lookup_lt_Some in Hn. lia. }
  split.
  - intros ids td Hids Htd.
    exists (nodeData v index (fst td)). cbv zeta.
    split; [|split; [|split; [|split]]].
    + unfold writeLegs. now rewrite list_lookup_imap, Hn.
    + apply Htry.
    + eexists. split.
      * unfold writeToNodes. rewrite Hids. cbn [bind]. rewrite Htd.
        cbn [bind]. reflexivity.
      * unfold allSettled, writeLegs.
        now rewrite list_lookup_fmap, list_lookup_imap, Hn.
    + unfold nodeData. apply length_map.
    + intros j shares Hj. rewrite (nodeData_lookup v index j _ _ Hj).
      destruct (Hpick shares) as [H0 Hi]. split; intros Hlen.
      * now rewrite H0.
      * now rewrite <- Hi.
  - intros td Htd.
    destruct (allotData_one lib v recordUpdate tick td Htd) as [shares Hone].
    exists shares, (pick v index shares). cbv zeta.
    assert (JS.index (nodeData v index (fst td)) 0 = pick v index shares)
      as Hset by now rewrite Hone.
    split; [exact Hone|]. split; [|split; [|split]].
    + unfold updateLegs. rewrite list_lookup_imap, Hn. simpl.
      unfold updateDataOnNode, updatePayload. now rewrite Hset.
    + apply Htry.
    + eexists. split.
      * unfold updateDataToNodes. rewrite Htd. cbn [bind]. reflexivity.
      * unfold allSettled, updateLegs.
        rewrite list_lookup_fmap, list_lookup_imap, Hn. simpl.
        unfold updateDataOnNode, updatePayload. now rewrite Hset.
    + apply Hpick.
Qed.

(** The second of three nodes, in a write of a record with a shareable
    field, which has three variants, and of a record without, which has
    one: the request carries the second variant of the first record and
    the one variant of the second. *)
Lemma node_receives_its_share_witness :
  exists sent,
    writeLegs Examples.quiet Examples.vault Examples.two_allotted !! 1%nat
    = Some (requestNode Examples.quiet Examples.node_b "data/create"
              (VObj [("schema", schemaId Examples.vault);
                     ("data", VArr sent)])) /\
    sent !! 0%nat
    = [ VObj [("message", VStr "hi"); ("age", VObj [("%allot", VNum 15855)]);
              ("_id", VStr "uuid-0")];
        VObj [("message", VStr "hi"); ("age", VObj [("%allot", VNum 120584)]);
              ("_id", VStr "uuid-0")];
        VObj [("message", VStr "hi"); ("age", VObj [("%allot", VNum (-136398))]);
              ("_id", VStr "uuid-0")] ] !! 1%nat /\
    sent !! 1%nat
    = Some (JS.index [VObj [("message", VStr "hi"); ("_id", VStr "uuid-1")]] 0).
Proof.
  destruct (proj1 (node_receives_its_share Examples.quiet (Reference.sharing 3)
                     Examples.vault Examples.two_records Examples.feedback
                     VUndef 0 1 Examples.node_b "jwt.did:b"
                     eq_refl eq_refl)
              (Examples.two_identified, 2%nat) (Examples.two_allotted, 3%nat)
              eq_refl eq_refl)
    as (sent & Hleg & _ & _ & _ & Hsent).
  exists sent. split; [exact Hleg|]. split.
  - refine (proj2 (Hsent 0%nat _ eq_refl) eq_refl).
  - refine (proj1 (Hsent 1%nat _ eq_refl) _). discriminate.
Defined.

(** The scenario of the design: three nodes and a record with a plain
    and a shareable field; the plain field is the same in the three
    variants, the shares differ and none is the value. *)
Example three_variants :
  allotData (Reference.sharing 3) Examples.vault [Examples.feedback] 0
  = Ok ([[ VObj [("message", VStr "hi"); ("age", VObj [("%allot", VNum 17)])];
           VObj [("message", VStr "hi"); ("age", VObj [("%allot", VNum 104746)])];
           VObj [("message", VStr "hi"); ("age", VObj [("%allot", VNum (-104722))])] ]],
        1%nat).
Proof. vm_compute. reflexivity. Qed.

(** A record without a shareable field has one variant, which every node
    receives. *)
Example one_variant_for_all :
  (let! allotted := allotData (Reference.sharing 3) Examples.vault
                      [Examples.plain_record] 0 in
   Ok (map (fun index => nodeData Examples.vault index (fst allotted)) [0; 1; 2]%nat))
  = Ok [[Examples.plain_record]; [Examples.plain_record]; [Examples.plain_record]].
Proof. vm_compute. reflexivity. Qed.

(** ** Fan-out *)

Section FanOut.
Context (w : World).

Lemma settle_length (promises : list settled) slots i :
  length (settle promises slots i) = length slots.
Proof.
  unfold settle. destruct (promises !! i); [apply length_insert|reflexivity].
Qed.

Lemma settle_all_length (promises : list settled) order slots :
  length (fold_left (settle promises) order slots) = length slots.
Proof.
  revert slots. induction order as [|i order IH]; intros slots; simpl.
  - reflexivity.
  - rewrite IH. apply settle_length.
Qed.

(** A slot holds the report of its own promise once that promise has
    settled, and is untouched by the others. *)
Lemma settle_all_lookup (promises : list settled) order slots i :
  length slots = length promises ->
  fold_left (settle promises) order slots !! i
  = match promises !! i with
    | Some s => if decide (i ∈ order) then Some (Some s) else slots !! i
    | None => slots !! i
    end.
Proof.
  revert slots. induction order as [|j order IH]; intros slots Hlen; simpl.
  - destruct (promises !! i); [|reflexivity].
    destruct (decide (i ∈ [])) as [Hin|]; [|reflexivity].
    apply elem_of_nil in Hin. contradiction.
  - rewrite IH by (rewrite settle_length; exact Hlen).
    destruct (promises !! i) as [s|] eqn:Hi.
    + destruct (decide (i ∈ order)) as [Hin|Hnin].
      * destruct (decide (i ∈ j :: order)) as [|Hn]; [reflexivity|].
        exfalso. apply Hn. apply elem_of_cons. now right.
      * unfold settle. destruct (decide (i = j)) as [->|Hne].
        -- rewrite Hi. rewrite list_lookup_insert_eq.
           ++ destruct (decide (j ∈ j :: order)) as [|Hn]; [reflexivity|].
              exfalso. apply Hn. apply elem_of_cons. now left.
           ++ rewrite Hlen. apply lookup_lt_Some in Hi. exact Hi.
        -- destruct (decide (i ∈ j :: order)) as [Hin|_].
           ++ apply elem_of_cons in Hin. destruct Hin; contradiction.
           ++ destruct (promises !! j); [|reflexivity].
              apply list_lookup_insert_ne. congruence.
    + unfold settle. destruct (promises !! j) eqn:Hj; [|reflexivity].
      apply list_lookup_insert_ne. intros ->. congruence.
Qed.

Lemma filled_all (promises : list settled) :
  filled (map Some promises) = Some promises.
Proof.
  induction promises as [|s l IH]; simpl; [reflexivity|].
  now rewrite IH.
Qed.

(** Whatever the order in which the promises settle, [Promise.allSettled]
    reports them in the order of its argument. *)
Lemma allSettled_any_order (promises : list settled) (order : list nat) :
  Permutation order (seq 0 (length promises)) ->
  allSettled_in order promises = Some (allSettled promises).
Proof.
  intros Hperm. unfold allSettled_in, allSettled.
  rewrite <- filled_all. f_equal.
  apply list_eq. intros i.
  rewrite settle_all_lookup by apply length_replicate.
  rewrite list_lookup_fmap.
  destruct (promises !! i) as [s|] eqn:Hi; simpl.
  - destruct (decide (i ∈ order)) as [|Hn]; [reflexivity|].
    exfalso. apply Hn. rewrite Hperm. apply elem_of_seq.
    apply lookup_lt_Some in Hi. lia.
  - apply lookup_replicate_None. apply lookup_ge_None in Hi. lia.
Qed.

Lemma outcome_of_leg (n : node) (endpoint : string) (payload : value)
    (extra : list (string * value)) :
  (forall p, In p extra -> fst p <> "node") ->
  let out := outcome extra (requestNode w n endpoint payload) in
  get out "node" = node_value n /\
  match tryNode w n endpoint payload with
  | Ok result =>
      out = VObj (assign (own_props result ++ ("node", node_value n) :: extra) [])
  | Throw error => out = VObj [("error", error); ("node", node_value n)]
  end.
Proof.
  intros Hextra. unfold requestNode.
  destruct (tryNode w n endpoint payload) as [result|error]; simpl.
  - split; [|reflexivity].
    now rewrite assoc_assign_last.
  - split; reflexivity.
Qed.

(** The legs of every operation are [requestNode] at each node, with a
    payload that may depend on the position. *)
Lemma fansOut_legs (ns : list node) (endpoint : string)
    (payload : nat -> value) (extra : list (string * value)) :
  (forall p, In p extra -> fst p <> "node") ->
  let legs := imap (fun i n => requestNode w n endpoint (payload i)) ns in
  Spec.fansOut ns (fun i n => tryNode w n endpoint (payload i)) extra
    legs (map (outcome extra) (allSettled legs)).
Proof.
  intros Hextra legs. unfold Spec.fansOut.
  assert (length legs = length ns) as Hlen by apply length_imap.
  split; [|split].
  - intros order Hperm. apply allSettled_any_order. now rewrite Hlen.
  - unfold allSettled. now rewrite length_map.
  - intros i n Hi.
    exists (outcome extra (requestNode w n endpoint (payload i))).
    split.
    + unfold allSettled, legs.
      rewrite list_lookup_fmap, list_lookup_imap, Hi. reflexivity.
    + apply outcome_of_leg. exact Hextra.
Qed.

Lemma imap_const {A B} (f : A -> B) (l : list A) :
  imap (fun _ => f) l = map f l.
Proof.
  apply list_eq. intros i.
  rewrite list_lookup_imap, list_lookup_fmap. reflexivity.
Qed.

End FanOut.

(** C3: write, update, delete and flush return one outcome per
    configured node; whatever the order in which the legs settle, the
    outcome at position [i] is that of node [i] and carries its
    descriptor; a failed leg becomes the outcome of its node, the error
    under [error], next to the outcomes of the other nodes; and the call
    itself returns: a write or an update throws only when the allotment
    before the fan-out does. *)
Theorem fan_out_one_outcome_per_node (w : World) (lib : Nilql)
    (v : SecretVaultWrapper.t) (data : list value)
    (recordUpdate filter : value) (tick : nat) :
  Spec.fansOut (nodes v)
    (fun _ n => tryNode w n "data/flush" (VObj [("schema", schemaId v)]))
    [] (flushLegs w v) (flushData w v) /\
  Spec.fansOut (nodes v)
    (fun _ n => tryNode w n "data/delete"
                  (VObj [("schema", schemaId v);
                         ("filter", default_arg filter (VObj []))]))
    [] (deleteLegs w v (default_arg filter (VObj [])))
    (deleteDataFromNodes w v filter) /\
  (forall ids td,
     idData w data tick = Ok ids ->
     allotData lib v (fst ids) (snd ids) = Ok td ->
     exists outs,
       writeToNodes w lib v data tick = Ok outs /\
       Spec.fansOut (nodes v)
         (fun i n => tryNode w n "data/create" (writePayload v (fst td) i))
         [("schemaId", schemaId v)] (writeLegs w v (fst td)) outs) /\
  (forall td,
     allotData lib v [recordUpdate] tick = Ok td ->
     exists outs,
       updateDataToNodes w lib v recordUpdate filter tick = Ok outs /\
       Spec.fansOut (nodes v)
         (fun i n => tryNode w n "data/update"
                       (updatePayload v (fst td)
                          (default_arg filter (VObj [])) i))
         [] (updateLegs w v (fst td) (default_arg filter (VObj []))) outs).
Proof.
  split; [|split; [|split]].
  - unfold flushData, flushLegs, flushDataFromNode.
    rewrite <- (imap_const (fun n => requestNode w n "data/flush" _)).
    apply (fansOut_legs w (nodes v) "data/flush" (fun _ => _) []).
    intros p [].
  - unfold deleteDataFromNodes, deleteLegs, deleteDataFromNode.
    rewrite <- (imap_const (fun n => requestNode w n "data/delete" _)).
    apply (fansOut_legs w (nodes v) "data/delete" (fun _ => _) []).
    intros p [].
  - intros ids td Hids Htd.
    unfold writeToNodes. rewrite Hids. simpl. rewrite Htd. simpl.
    eexists. split; [reflexivity|].
    apply (fansOut_legs w (nodes v) "data/create"
             (fun i => writePayload v (fst td) i) [("schemaId", schemaId v)]).
    intros p [<-|[]]. discriminate.
  - intros td Htd.
    unfold updateDataToNodes. rewrite Htd. simpl.
    eexists. split; [reflexivity|].
    apply (fansOut_legs w (nodes v) "data/update"
             (fun i => updatePayload v (fst td) _ i) []).
    intros p [].
Qed.

(** The scenario of the design: three nodes, the second fails. *)
Example write_with_failing_second_node :
  writeToNodes Examples.second_node_fails (Reference.sharing 3)
    Examples.vault [Examples.feedback] 0
  = Ok [ VObj [("status", VNum 200);
               ("node", node_value Examples.node_a);
               ("schemaId", VStr "schema-1")];
         VObj [("error", VErr "signing failed");
               ("node", node_value Examples.node_b)];
         VObj [("status", VNum 200);
               ("node", VObj [("url", VStr "https://node-c");
                              ("did", VStr "did:c")]);
               ("schemaId", VStr "schema-1")] ].
Proof. vm_compute. reflexivity. Qed.

(** ** makeRequest *)

Section MakeRequest.
Context (w : World).

(** [makeRequest] throws exactly when the message of the caught error has
    a part in braces after [body: ] that is not JSON. *)
Lemma makeRequest_throws (nodeUrl endpoint token : string) (payload : value)
    (method : string) (e : value) :
  makeRequest w nodeUrl endpoint token payload method = Throw e <->
  exists error b,
    request w nodeUrl endpoint token payload method = Throw error /\
    Str.match_body (match get error "message" with
                    | VStr m => m
                    | _ => EmptyString
                    end) = Some b /\
    JSON_parse w b = None /\
    e = VErr (syntax_error_message w b).
Proof.
  unfold makeRequest, request_failed.
  destruct (request w nodeUrl endpoint token payload method) as [r|error].
  - split; [discriminate|]. intros (? & ? & H & _). discriminate.
  - destruct (Str.match_body _) as [b|] eqn:Hb; simpl.
    + destruct (JSON_parse w b) eqn:Hp; simpl.
      * split; [discriminate|].
        intros (error' & b' & H & Hb' & Hp' & _).
        injection H as <-. rewrite Hb in Hb'. injection Hb' as <-. congruence.
      * split.
        -- intros H. injection H as <-. exists error, b. auto.
        -- intros (error' & b' & H & Hb' & _ & ->).
           injection H as <-. rewrite Hb in Hb'. injection Hb' as <-.
           reflexivity.
    + split; [discriminate|].
      intros (error' & b' & H & Hb' & _). injection H as <-. congruence.
Qed.

(** When it returns after a failed request, the result has the parsed
    status or [null] under [status], and the parsed body or the wrapped
    error under [error]. *)
Lemma makeRequest_failed_request (nodeUrl endpoint token : string)
    (payload : value) (method : string) (error r : value) :
  request w nodeUrl endpoint token payload method = Throw error ->
  makeRequest w nodeUrl endpoint token payload method = Ok r ->
  exists status body,
    r = VObj [("status", status); ("error", body)] /\
    (status = VNull \/ exists ds, status = VNum (Str.parseInt ds)) /\
    (body = VObj [("errors", VArr [error])] \/
     exists b, JSON_parse w b = Some body).
Proof.
  intros Hreq. unfold makeRequest, request_failed. rewrite Hreq.
  destruct (Str.match_body _) as [b|]; simpl.
  - destruct (JSON_parse w b) as [body|] eqn:Hp; simpl; [|discriminate].
    intros H. injection H as <-. eexists _, body. split; [reflexivity|].
    split.
    + destruct (Str.match_status _); eauto.
    + right. eauto.
  - intros H. injection H as <-. eexists _, _. split; [reflexivity|].
    split.
    + destruct (Str.match_status _); eauto.
    + now left.
Qed.

End MakeRequest.

(** C9 fails on the code: a node answers 500 with the body [{oops}].  The
    [catch] block of [makeRequest] finds the braces after [body: ] and
    hands them to [JSON.parse], whose SyntaxError leaves [makeRequest];
    the leg of the node is rejected although its token was generated. *)
Theorem makeRequest_rethrows_on_malformed_error_body :
  generateNodeToken Examples.malformed_error_body "did:a" = Ok "jwt.did:a" /\
  makeRequest Examples.malformed_error_body "https://node-a" "data/create"
    "jwt.did:a" (VObj []) "POST"
  = Throw (VErr "Unexpected token in JSON") /\
  writeDataToNode Examples.malformed_error_body Examples.vault [] Examples.node_a 0
  = Rejected (VObj [("error", VErr "Unexpected token in JSON");
                    ("node", node_value Examples.node_a)]).
Proof. vm_compute. repeat split. Qed.

(** ** The allotment walk *)

(** Induction on values, with the hypothesis for the elements of an array
    and the values of an object. *)
Lemma value_induction (P : value -> Prop) :
  P VUndef -> P VNull -> (forall b, P (VBool b)) -> (forall n, P (VNum n)) ->
  (forall s, P (VStr s)) ->
  (forall xs, Forall P xs -> P (VArr xs)) ->
  (forall fs, Forall (fun kv => P (snd kv)) fs -> P (VObj fs)) ->
  (forall m, P (VErr m)) ->
  forall v, P v.
Proof.
  intros Hu Hn Hb Hz Hs Ha Ho He.
  fix IH 1. intros [| |b|n|s|xs|fs|m].
  - exact Hu.
  - exact Hn.
  - apply Hb.
  - apply Hz.
  - apply Hs.
  - apply Ha. induction xs as [|x xs IHxs]; constructor; [apply IH|exact IHxs].
  - apply Ho. induction fs as [|[k x] fs IHfs]; constructor;
      [apply IH|exact IHfs].
  - apply He.
Qed.

Lemma fresh_key_spec (k : string) fs :
  Spec.fresh_key k fs = true <-> k ∉ map fst fs.
Proof.
  induction fs as [|[k' v] fs IH]; simpl.
  - split; [intros _ H; now apply elem_of_nil in H|reflexivity].
  - rewrite andb_true_iff, IH, not_elem_of_cons, negb_true_iff.
    split; intros [H1 H2]; split; auto.
    + intros ->. now rewrite String.eqb_refl in H1.
    + destruct (String.eqb_spec k k'); [contradiction|reflexivity].
Qed.

Lemma distinct_keys_spec fs :
  Spec.distinct_keys fs = true <-> NoDup (map fst fs).
Proof.
  induction fs as [|[k v] fs IH]; simpl.
  - split; [constructor|reflexivity].
  - rewrite andb_true_iff, fresh_key_spec, IH, NoDup_cons. reflexivity.
Qed.

Lemma obj_set_fresh {V : Type} (k : string) (v : V) (fs : list (string * V)) :
  k ∉ map fst fs -> obj_set k v fs = (fs ++ [(k, v)])%list.
Proof.
  induction fs as [|[k' v'] fs IH]; simpl; intros Hk; [reflexivity|].
  apply not_elem_of_cons in Hk as [Hne Hk].
  destruct (String.eqb_spec k k'); [contradiction|].
  now rewrite IH.
Qed.

Lemma arr_set_end {V : Type} (hole v : V) (xs : list V) :
  arr_set hole (length xs) v xs = (xs ++ [v])%list.
Proof.
  unfold arr_set. destruct (decide (length xs < length xs)%nat); [lia|].
  now rewrite Nat.sub_diag.
Qed.

Lemma assoc_Forall2 (Q : value -> value -> Prop) (k : string) (x : value)
    (fs gs : list (string * value)) :
  Forall2 (fun f g => fst f = fst g /\ Q (snd f) (snd g)) fs gs ->
  assoc k fs = Some x ->
  exists y, assoc k gs = Some y /\ Q x y.
Proof.
  induction 1 as [|[k1 x1] [k2 x2] fs gs [Hk HQ] _ IH]; simpl;
    [discriminate|].
  simpl in Hk, HQ. subst k2.
  destruct (String.eqb k k1); [|exact IH].
  intros H. injection H as <-. eauto.
Qed.

(** Under a name that is written, the entries that are written are the
    entries. *)
Lemma assoc_written (k : string) (fs : list (string * value)) :
  String.eqb k "__proto__" = false ->
  assoc k (Spec.written fs) = assoc k fs.
Proof.
  intros Hk. induction fs as [|[k' x] fs IH]; simpl; [reflexivity|].
  destruct (String.eqb_spec k' "__proto__") as [->|Hne]; simpl.
  - now rewrite Hk.
  - now rewrite IH.
Qed.

Lemma assoc_Forall2_None (Q : value -> value -> Prop) (k : string)
    (fs gs : list (string * value)) :
  Forall2 (fun f g => fst f = fst g /\ Q (snd f) (snd g)) fs gs ->
  assoc k fs = None -> assoc k gs = None.
Proof.
  induction 1 as [|[k1 x1] [k2 x2] fs gs [Hk HQ] _ IH]; simpl;
    [reflexivity|].
  simpl in Hk. subst k2.
  destruct (String.eqb k k1); [discriminate|exact IH].
Qed.

Section Walk.
Context (lib : Nilql) (key : value).

(** The loop over the entries of an object, for a [step] that relates
    each value to what it stores by [Q]. *)
Lemma encryptProps_ok (step : value -> nat -> result (value * nat))
    (Q : value -> value -> Prop) (fs : list (string * value)) :
  Forall (fun kv => forall t r, step (snd kv) t = Ok r -> Q (snd kv) (fst r)) fs ->
  forall acc tick r,
    NoDup (map fst acc ++ map fst fs) ->
    encryptProps step fs acc tick = Ok r ->
    exists gs, fst r = acc ++ gs /\
      Forall2 (fun f g => fst f = fst g /\ Q (snd f) (snd g))
        (Spec.written fs) gs.
Proof.
  induction 1 as [|[k x] fs Hx _ IH]; intros acc tick r Hnd; simpl.
  - intros H. injection H as <-. exists []. split; [now rewrite app_nil_r|constructor].
  - destruct (step x tick) as [[x' t']|e] eqn:Hstep; simpl; [|discriminate].
    intros Hrest. unfold obj_put in Hrest.
    destruct (String.eqb k "__proto__") eqn:Hproto; simpl.
    + apply IH in Hrest; [exact Hrest|].
      simpl in Hnd. apply NoDup_app in Hnd as (Ha & Hdisj & Hf).
      apply NoDup_cons in Hf as [_ Hf].
      apply NoDup_app. repeat split; auto.
      intros y Hy Hy'. apply (Hdisj y Hy). apply elem_of_cons. now right.
    + assert (k ∉ map fst acc) as Hfresh.
      { simpl in Hnd. apply NoDup_app in Hnd as (_ & Hdisj & _).
        intros Hin. apply (Hdisj k Hin). apply elem_of_cons. now left. }
      rewrite (obj_set_fresh k x' acc Hfresh) in Hrest.
      apply IH in Hrest as (gs & Hr & Hgs).
      * exists ((k, x') :: gs). split.
        -- rewrite Hr. now rewrite <- app_assoc.
        -- constructor; [|exact Hgs]. split; [reflexivity|].
           apply (Hx tick (x', t') Hstep).
      * rewrite map_app. simpl. rewrite <- app_assoc. exact Hnd.
Qed.

Lemma encryptElems_ok (step : value -> nat -> result (value * nat))
    (Q : value -> value -> Prop) (xs : list value) :
  Forall (fun x => forall t r, step x t = Ok r -> Q x (fst r)) xs ->
  forall acc tick r,
    encryptElems step (length acc) xs acc tick = Ok r ->
    exists ys, fst r = acc ++ ys /\ Forall2 Q xs ys.
Proof.
  induction 1 as [|x xs Hx _ IH]; intros acc tick r; simpl.
  - intros H. injection H as <-. exists []. split; [now rewrite app_nil_r|constructor].
  - destruct (step x tick) as [[x' t']|e] eqn:Hstep; simpl; [|discriminate].
    rewrite arr_set_end.
    replace (S (length acc)) with (length (acc ++ [x']))
      by (rewrite length_app; simpl; lia).
    intros Hrest. apply IH in Hrest as (ys & Hr & Hys).
    exists (x' :: ys). split.
    + rewrite Hr. now rewrite <- app_assoc.
    + constructor; [|exact Hys]. apply (Hx tick (x', t') Hstep).
Qed.

Lemma encryptProps_throws (step : value -> nat -> result (value * nat))
    (fs : list (string * value)) acc tick e :
  encryptProps step fs acc tick = Throw e ->
  exists kv t, In kv fs /\ step (snd kv) t = Throw e.
Proof.
  revert acc tick. induction fs as [|[k x] fs IH]; intros acc tick; simpl.
  - discriminate.
  - destruct (step x tick) as [[x' t']|e'] eqn:Hstep; simpl.
    + intros H. apply IH in H as (kv & t & Hin & Hs). eauto.
    + intros H. injection H as <-. exists (k, x), tick. auto.
Qed.

Lemma encryptElems_throws (step : value -> nat -> result (value * nat))
    (xs : list value) i acc tick e :
  encryptElems step i xs acc tick = Throw e ->
  exists x t, In x xs /\ step x t = Throw e.
Proof.
  revert i acc tick. induction xs as [|x xs IH]; intros i acc tick; simpl.
  - discriminate.
  - destruct (step x tick) as [[x' t']|e'] eqn:Hstep; simpl.
    + intros H. apply IH in H as (y & t & Hin & Hs). eauto.
    + intros H. injection H as <-. exists x, tick. auto.
Qed.

Lemma encryptEntry_walks (v : value) :
  Spec.walks lib key v ->
  Spec.well_formed v = true ->
  forall tick,
    match encryptEntry lib (encryptDeep lib key) key v tick with
    | Ok r => Spec.allotted_entry lib key v (fst r)
    | Throw e => exists x t, nilql_encrypt lib key x t = Throw e
    end.
Proof.
  intros Hv Hwf tick. unfold encryptEntry.
  destruct (is_object v) eqn:Hobj.
  - destruct (has_key "%allot" v) eqn:Hmark.
    + destruct (nilql_encrypt lib key (get v "%allot") tick) as [s|e] eqn:Henc;
        simpl.
      * eapply Spec.entry_marked; eauto.
      * eauto.
    + specialize (Hv Hwf tick).
      destruct (encryptDeep lib key v tick) as [r|e]; [|exact Hv].
      now apply Spec.entry_nested.
  - simpl. now apply Spec.entry_leaf.
Qed.

Lemma encryptDeep_walks (v : value) : Spec.walks lib key v.
Proof.
  induction v as [| | | | |xs IH|fs IH|m] using value_induction;
    intros Hwf tick; simpl; try (now apply Spec.allotted_leaf).
  - simpl in Hwf. rewrite forallb_forall in Hwf.
    destruct (encryptElems _ 0 xs [] tick) as [r|e] eqn:Hloop; simpl.
    + apply Spec.allotted_array.
      apply (encryptElems_ok _ (Spec.allotted_entry lib key) xs) with (acc := [])
        in Hloop as (ys & -> & Hys); [exact Hys|].
      apply Forall_forall. intros x Hx t r' Hstep.
      rewrite Forall_forall in IH.
      pose proof (encryptEntry_walks x (IH x Hx)
                    (Hwf x (proj1 (list_elem_of_In _ _) Hx)) t) as H.
      now rewrite Hstep in H.
    + apply encryptElems_throws in Hloop as (x & t & Hx & Hstep).
      rewrite Forall_forall in IH.
      pose proof (encryptEntry_walks x (IH x (proj2 (list_elem_of_In _ _) Hx))
                    (Hwf x Hx) t) as H.
      now rewrite Hstep in H.
  - simpl in Hwf. apply andb_true_iff in Hwf as [Hkeys Hwf].
    rewrite forallb_forall in Hwf. apply distinct_keys_spec in Hkeys.
    destruct (encryptProps _ fs [] tick) as [r|e] eqn:Hloop; simpl.
    + apply Spec.allotted_object.
      apply (encryptProps_ok _ (Spec.allotted_entry lib key) fs) with (acc := [])
        in Hloop as (gs & -> & Hgs); [exact Hgs| |exact Hkeys].
      apply Forall_forall. intros kv Hkv t r' Hstep.
      rewrite Forall_forall in IH.
      pose proof (encryptEntry_walks (snd kv) (IH kv Hkv)
                    (Hwf kv (proj1 (list_elem_of_In _ _) Hkv)) t) as H.
      now rewrite Hstep in H.
    + apply encryptProps_throws in Hloop as (kv & t & Hkv & Hstep).
      rewrite Forall_forall in IH.
      pose proof (encryptEntry_walks (snd kv)
                    (IH kv (proj2 (list_elem_of_In _ _) Hkv)) (Hwf kv Hkv) t) as H.
      now rewrite Hstep in H.
  - apply Spec.allotted_error.
Qed.

End Walk.

(** *** Plain leaves *)

Section PlainLeaves.
Context (lib : Nilql) (key : value).

Lemma plainPath_undefined (p : list Spec.step) :
  Spec.plainPath p VUndef = true -> p = [].
Proof. destruct p as [|[k|i] p]; [reflexivity|discriminate|discriminate]. Qed.

(** What holds of the walk of a value holds of the walk of an entry. *)
Lemma entry_plain_path (p : list Spec.step) :
  (forall v r, Spec.allotted lib key v r -> Spec.plainPath p v = true ->
               Spec.plainPath p r = true /\ Spec.at_path p r = Spec.at_path p v) ->
  forall x y, Spec.allotted_entry lib key x y -> Spec.plainPath p x = true ->
              Spec.plainPath p y = true /\ Spec.at_path p y = Spec.at_path p x.
Proof.
  intros HA x y Hxy Hp.
  inversion Hxy as [x0 Hleaf|x0 t s Hobj Hk Henc|x0 y0 Hobj Hk Hw]; subst.
  - auto.
  - exfalso. destruct x as [| | | | | |fs|]; try discriminate.
    destruct p as [|[k|i] p]; [discriminate| |discriminate].
    cbn [Spec.plainPath] in Hp. rewrite Hk in Hp.
    destruct (String.eqb k "__proto__"); discriminate.
  - now apply HA.
Qed.

(** A leaf on a plain path of a document is on that path, unchanged, in
    the walked document. *)
Lemma allotted_plain_path (p : list Spec.step) :
  forall v r, Spec.allotted lib key v r -> Spec.plainPath p v = true ->
              Spec.plainPath p r = true /\ Spec.at_path p r = Spec.at_path p v.
Proof.
  induction p as [|s p IH]; intros v r Hvr Hp.
  - inversion Hvr; subst; try discriminate. auto.
  - pose proof (entry_plain_path p IH) as HB.
    destruct s as [k|i], v as [| | | | |xs|fs|m]; try discriminate.
    + inversion Hvr as [? Hleaf| |fs' gs Hgs|]; subst; [discriminate|].
      cbn [Spec.plainPath Spec.follow] in Hp.
      apply andb_true_iff in Hp as [Hp Hrest].
      apply andb_true_iff in Hp as [Hk Hm].
      apply negb_true_iff in Hk. apply negb_true_iff in Hm.
      assert (has_key "%allot" (VObj gs) = false) as Hm'.
      { simpl in *. destruct (assoc "%allot" fs) eqn:E; [discriminate|].
        rewrite <- (assoc_written "%allot" fs eq_refl) in E.
        now rewrite (assoc_Forall2_None _ _ _ _ Hgs E). }
      cbn [Spec.plainPath Spec.at_path Spec.follow]. rewrite Hk, Hm'.
      cbn [negb andb get] in *.
      destruct (assoc k fs) as [x|] eqn:E.
      * rewrite <- (assoc_written k fs Hk) in E.
        destruct (assoc_Forall2 _ _ _ _ _ Hgs E) as (y & -> & Hxy).
        now apply HB.
      * rewrite <- (assoc_written k fs Hk) in E.
        rewrite (assoc_Forall2_None _ _ _ _ Hgs E). auto.
    + inversion Hvr as [? Hleaf|xs' ys Hys| |]; subst; [discriminate|].
      cbn [Spec.plainPath Spec.at_path Spec.follow] in *.
      unfold JS.index in *.
      destruct (xs !! i) as [x|] eqn:E.
      * destruct (Forall2_lookup_l _ _ _ _ _ Hys E) as (y & -> & Hxy).
        now apply HB.
      * assert (ys !! i = None) as ->; [|auto].
        apply lookup_ge_None. apply lookup_ge_None in E.
        now rewrite <- (Forall2_length _ _ _ Hys).
Qed.

End PlainLeaves.

Lemma assoc_map (k : string) (g : string -> value -> value) fs :
  assoc k (map (fun kv => (fst kv, g (fst kv) (snd kv))) fs)
  = g k <$> assoc k fs.
Proof.
  induction fs as [|[k' x] fs IH]; simpl; [reflexivity|].
  destruct (String.eqb_spec k k') as [->|]; [reflexivity|exact IH].
Qed.

(** The reference library leaves the plain leaves where they are. *)
Lemma variantField_plain (i : nat) (p : list Spec.step) :
  forall x, Spec.plainPath p x = true ->
            Spec.at_path p (Reference.variantField i x) = Spec.at_path p x.
Proof.
  induction p as [|s p IH]; intros x Hp.
  - destruct x; try discriminate; reflexivity.
  - destruct s as [k|j], x as [| | | | |xs|fs|m]; try discriminate.
    + cbn [Spec.plainPath Spec.follow] in Hp.
      apply andb_true_iff in Hp as [Hp Hrest].
      apply andb_true_iff in Hp as [_ Hm]. apply negb_true_iff in Hm.
      cbn [Reference.variantField]. rewrite Hm.
      cbn [Spec.at_path Spec.follow get] in *.
      rewrite (assoc_map k (fun _ y => Reference.variantField i y)).
      destruct (assoc k fs) as [y|]; simpl; [now apply IH|reflexivity].
    + cbn [Spec.plainPath Spec.follow] in Hp.
      cbn [Reference.variantField Spec.at_path Spec.follow].
      unfold JS.index in *. rewrite list_lookup_fmap.
      destruct (xs !! j) as [y|]; simpl; [now apply IH|reflexivity].
Qed.

Lemma sharing_keepsPlain (n : nat) : Spec.keepsPlain (Reference.sharing n).
Proof.
  intros d vs p Hallot Hp s Hs. simpl in Hallot. injection Hallot as <-.
  apply in_map_iff in Hs as (i & <- & _).
  rewrite <- (variantField_plain i p d Hp).
  destruct d as [| | | | |xs|fs|m]; try reflexivity.
  destruct p as [|[k|j] p]; try discriminate.
  cbn [Spec.plainPath] in Hp.
  apply andb_true_iff in Hp as [Hp _].
  apply andb_true_iff in Hp as [_ Hm]. apply negb_true_iff in Hm.
  cbn [Reference.variant Reference.variantField]. now rewrite Hm.
Qed.




(** ** Read reassembly *)

Section Reassembly.
Context (w : World) (lib : Nilql).

Lemma sound_nil : Spec.sound [].
Proof. constructor. Qed.

Lemma prop_defined (v : value) (k : string) :
  Spec.nullish v = false -> prop v k = Ok (get v k).
Proof. destruct v; simpl; intros H; try discriminate; reflexivity. Qed.

Lemma prop_nullish (v : value) (k : string) :
  Spec.nullish v = true -> exists e, prop v k = Throw e.
Proof. destruct v; simpl; intros H; try discriminate; eauto. Qed.

Lemma someSameId_defined (record : value) (ss : list value) :
  Spec.nullish record = false ->
  Forall (fun s => Spec.nullish s = false) ss ->
  someSameId record ss = Ok (existsb (Spec.sameId record) ss).
Proof.
  intros Hr. induction 1 as [|s ss Hs _ IH]; simpl; [reflexivity|].
  rewrite (prop_defined s "_id" Hs), (prop_defined record "_id" Hr). simpl.
  unfold Spec.sameId at 1.
  destruct (strict_eq (get s "_id") (get record "_id")); [reflexivity|exact IH].
Qed.

Lemma someSameId_nullish (record : value) (ss : list value) :
  Spec.nullish record = true ->
  someSameId record ss = Ok false \/ exists e, someSameId record ss = Throw e.
Proof.
  intros Hr. destruct ss as [|s ss]; simpl; [now left|right].
  destruct (prop s "_id") as [a|e]; simpl; [|eauto].
  destruct (prop_nullish record "_id" Hr) as [e ->]. simpl. eauto.
Qed.

(** A record that is [null] or [undefined] makes the scan throw. *)
Lemma place_nullish (record : value) (acc : list group) :
  Spec.nullish record = true -> exists e, place record acc = Throw e.
Proof.
  intros Hr. induction acc as [|g acc IH]; simpl.
  - destruct (prop_nullish record "_id" Hr) as [e ->]. simpl. eauto.
  - destruct (someSameId_nullish record (shares g) Hr) as [->|[e ->]]; simpl.
    + destruct IH as [e ->]. simpl. eauto.
    + eauto.
Qed.

(** On any other record the body of the loop is the first-match join. *)
Lemma place_join (record : value) (acc : list group) :
  Spec.nullish record = false -> Spec.sound acc ->
  place record acc = Ok (Spec.join record acc) /\ Spec.sound (Spec.join record acc).
Proof.
  intros Hr. induction 1 as [|g acc Hg Hacc IH]; simpl.
  - rewrite (prop_defined record "_id" Hr). simpl. split; [reflexivity|].
    repeat constructor. exact Hr.
  - rewrite (someSameId_defined record (shares g) Hr Hg). simpl.
    destruct (existsb (Spec.sameId record) (shares g)).
    + split; [reflexivity|]. constructor; [|exact Hacc]. simpl.
      apply Forall_app. split; [exact Hg|]. repeat constructor. exact Hr.
    + destruct IH as [-> IH]. simpl. split; [reflexivity|].
      constructor; assumption.
Qed.

Lemma placeAll_join (records : list value) (acc : list group) :
  Spec.sound acc ->
  forallb (fun r => negb (Spec.nullish r)) records = true ->
  placeAll records acc
  = Ok (fold_left (fun groups r => Spec.join r groups) records acc).
Proof.
  revert acc. induction records as [|r records IH]; intros acc Hacc; simpl.
  - reflexivity.
  - rewrite andb_true_iff, negb_true_iff. intros [Hr Hall].
    destruct (place_join r acc Hr Hacc) as [-> Hsound]. simpl.
    now apply IH.
Qed.

Lemma placeAll_nullish (records : list value) (acc : list group) :
  Spec.sound acc ->
  forallb (fun r => negb (Spec.nullish r)) records = false ->
  exists e, placeAll records acc = Throw e.
Proof.
  revert acc. induction records as [|r records IH]; intros acc Hacc; simpl.
  - discriminate.
  - destruct (Spec.nullish r) eqn:Hr; simpl.
    + intros _. destruct (place_nullish r acc Hr) as [e ->]. simpl. eauto.
    + intros Hall. destruct (place_join r acc Hr Hacc) as [-> Hsound]. simpl.
      now apply IH.
Qed.

Lemma placeAll_app (xs ys : list value) (acc : list group) :
  placeAll (xs ++ ys) acc = (let! acc1 := placeAll xs acc in placeAll ys acc1).
Proof.
  revert acc. induction xs as [|x xs IH]; intros acc; simpl; [reflexivity|].
  destruct (place x acc); simpl; [apply IH|reflexivity].
Qed.

Lemma groupNode_recordsOf (acc : list group) (nodeResult : value) :
  groupNode acc nodeResult
  = (let! records := Spec.recordsOf nodeResult in placeAll records acc).
Proof.
  unfold groupNode, Spec.recordsOf.
  destruct (truthy (get nodeResult "data")); reflexivity.
Qed.

(** The nested loops of [reduce] scan the flattened stream. *)
Lemma recordGroups_flatten (results : list value) :
  forall acc,
    match Spec.flatten results with
    | Ok stream => recordGroups results acc = placeAll stream acc
    | Throw _ => exists e, recordGroups results acc = Throw e
    end.
Proof.
  unfold Spec.flatten.
  induction results as [|r results IH]; intros acc; simpl; [reflexivity|].
  rewrite groupNode_recordsOf.
  destruct (Spec.recordsOf r) as [records|e]; simpl; [|eauto].
  destruct (mapM Spec.recordsOf results) as [lists|e] eqn:Hrest; simpl in *.
  - rewrite placeAll_app.
    destruct (placeAll records acc) as [acc1|e]; simpl; [apply IH|reflexivity].
  - destruct (placeAll records acc) as [acc1|e']; simpl; [apply IH|eauto].
Qed.

Lemma mapM_lookup {A B : Type} (f : A -> result B) (l : list A) (out : list B) :
  mapM f l = Ok out ->
  length out = length l /\
  forall j a, l !! j = Some a -> exists b, out !! j = Some b /\ f a = Ok b.
Proof.
  revert out. induction l as [|a l IH]; intros out; simpl.
  - intros H. injection H as <-. split; [reflexivity|]. intros j a' H.
    rewrite lookup_nil in H. discriminate.
  - destruct (f a) as [b|e] eqn:Hb; simpl; [|discriminate].
    destruct (mapM f l) as [bs|e]; simpl; [|discriminate].
    intros H. injection H as <-. destruct (IH bs eq_refl) as [Hlen Hlk].
    split; [simpl; now rewrite Hlen|].
    intros [|j] a'; simpl.
    + intros H. injection H as <-. eauto.
    + apply Hlk.
Qed.

(** The outcome of a node whose token or whose request failed has no
    [data]. *)
Lemma failed_node_no_records (n : node) (payload : value) :
  (exists error, generateNodeToken w (did n) = Throw error) \/
  (exists jwt error,
     generateNodeToken w (did n) = Ok jwt /\
     request w (url n) "data/read" jwt payload "POST" = Throw error) ->
  Spec.recordsOf (outcome [] (requestNode w n "data/read" payload)) = Ok [].
Proof.
  unfold requestNode, tryNode.
  intros [[error Htok]|(jwt & error & Htok & Hreq)]; rewrite Htok; simpl.
  - reflexivity.
  - destruct (makeRequest w (url n) "data/read" jwt payload "POST")
      as [r|e] eqn:Hmk; simpl; [|reflexivity].
    destruct (makeRequest_failed_request w _ _ _ _ _ _ _ Hreq Hmk)
      as (status & body & -> & _). reflexivity.
Qed.

End Reassembly.

(** *** The groups are the classes of [_id] *)

Lemma strict_eq_true (a b : value) :
  strict_eq a b = true -> a = b /\ strict_eq a a = true.
Proof.
  destruct a, b; simpl; try discriminate; intros H.
  - auto.
  - auto.
  - apply Bool.eqb_prop in H. subst. split; [reflexivity|apply Bool.eqb_reflx].
  - apply Z.eqb_eq in H. subst. split; [reflexivity|apply Z.eqb_refl].
  - apply String.eqb_eq in H. subst. split; [reflexivity|apply String.eqb_refl].
Qed.

Lemma join_members (r : value) (groups : list group) (g : group) (s : value) :
  In g (Spec.join r groups) -> In s (shares g) ->
  s = r \/ exists g0, In g0 groups /\ In s (shares g0).
Proof.
  induction groups as [|g1 groups IH]; simpl.
  - intros [<-|[]]. simpl. intros [<-|[]]. now left.
  - destruct (existsb (Spec.sameId r) (shares g1)).
    + intros [<-|Hg]; simpl.
      * intros Hs. apply in_app_iff in Hs as [Hs|[<-|[]]]; [right|now left].
        exists g1. auto.
      * intros Hs. right. exists g. auto.
    + intros [<-|Hg] Hs.
      * right. exists g1. auto.
      * destruct (IH Hg Hs) as [->|(g0 & Hg0 & Hs0)]; [now left|].
        right. exists g0. auto.
Qed.

Lemma join_grouped (r : value) (groups : list group) :
  Spec.groupedById groups -> Spec.groupedById (Spec.join r groups).
Proof.
  intros [Hone Hapart]. induction groups as [|g groups IH]; simpl.
  - split; [|repeat constructor].
    constructor; [|constructor]. exists r, []. simpl. auto.
  - apply Forall_cons in Hone as [Hg Hone].
    inversion Hapart as [|g' groups' Hg_apart Hrest]; subst.
    destruct (existsb (Spec.sameId r) (shares g)) eqn:Hhit.
    + apply existsb_exists in Hhit as (s0 & Hs0 & Hsame).
      unfold Spec.sameId in Hsame. apply strict_eq_true in Hsame as [Heq Hrefl].
      split.
      * constructor; [|exact Hone].
        destruct Hg as (h & t & Hsh & Hidx & Ht).
        exists h, (t ++ [r]). simpl. rewrite Hsh. split; [reflexivity|].
        split; [exact Hidx|]. apply Forall_app. split; [exact Ht|].
        constructor; [|constructor].
        rewrite Hsh in Hs0. destruct Hs0 as [<-|Hs0].
        -- now rewrite <- Heq.
        -- rewrite Forall_forall in Ht.
           specialize (Ht s0 (proj2 (list_elem_of_In _ _) Hs0)).
           apply strict_eq_true in Ht as [Ht _]. rewrite <- Heq, Ht.
           rewrite <- Ht. exact Hrefl.
      * constructor; [|exact Hrest].
        rewrite Forall_forall in Hg_apart. apply Forall_forall.
        intros g2 Hg2 s s' Hs Hs'. simpl in Hs.
        apply in_app_iff in Hs as [Hs|[<-|[]]].
        -- now apply (Hg_apart g2 Hg2).
        -- rewrite <- Heq. now apply (Hg_apart g2 Hg2).
    + destruct (IH Hone Hrest) as [Hone' Hrest'].
      split; [now constructor|]. constructor; [|exact Hrest'].
      rewrite Forall_forall in Hg_apart. apply Forall_forall.
      intros g2 Hg2 s s' Hs Hs'.
      apply list_elem_of_In in Hg2.
      destruct (join_members r groups g2 s' Hg2 Hs') as [->|(g0 & Hg0 & Hs0)].
      * destruct (strict_eq (get s "_id") (get r "_id")) eqn:E; [|reflexivity].
        assert (existsb (Spec.sameId r) (shares g) = true) as Habs.
        { apply existsb_exists. exists s. split; [exact Hs|exact E]. }
        congruence.
      * apply (Hg_apart g0 (proj2 (list_elem_of_In _ _) Hg0)); assumption.
Qed.

Lemma join_keeps_all (r : value) (groups : list group) :
  Permutation (concat (map shares (Spec.join r groups)))
    (r :: concat (map shares groups)).
Proof.
  induction groups as [|g groups IH]; simpl; [reflexivity|].
  destruct (existsb (Spec.sameId r) (shares g)); simpl.
  - rewrite <- app_assoc. simpl.
    rewrite <- Permutation_middle. reflexivity.
  - rewrite IH. rewrite <- Permutation_middle. reflexivity.
Qed.

Lemma joins_grouped (stream : list value) (groups : list group) :
  Spec.groupedById groups ->
  Spec.groupedById (fold_left (fun groups r => Spec.join r groups) stream groups) /\
  Permutation
    (concat (map shares (fold_left (fun groups r => Spec.join r groups)
                           stream groups)))
    (concat (map shares groups) ++ stream).
Proof.
  revert groups. induction stream as [|r stream IH]; intros groups Hg; simpl.
  - split; [exact Hg|]. now rewrite app_nil_r.
  - destruct (IH (Spec.join r groups) (join_grouped r groups Hg)) as [H1 H2].
    split; [exact H1|]. rewrite H2, join_keeps_all.
    now rewrite <- Permutation_middle.
Qed.

(** The scenario of the design: two nodes return a share of the record
    [abc], the third fails; there is one group, unified from the two
    shares. *)
Example read_with_unreachable_third_node :
  readResults Examples.third_node_unreachable Examples.vault VUndef
  = [ VObj [("status", VNum 200);
            ("data", VArr [VObj [("_id", VStr "abc");
                                 ("age", VObj [("%allot", VNum 18)])]]);
            ("node", node_value Examples.node_a)];
      VObj [("status", VNum 200);
            ("data", VArr [VObj [("_id", VStr "abc");
                                 ("age", VObj [("%allot", VNum 23)])]]);
            ("node", node_value Examples.node_b)];
      VObj [("status", VNull);
            ("error", VObj [("errors", VArr [VErr "connect ETIMEDOUT"])]);
            ("node", VObj [("url", VStr "https://node-c");
                           ("did", VStr "did:c")])] ] /\
  readFromNodes Examples.third_node_unreachable (Reference.sharing 3)
    Examples.vault VUndef
  = Ok [VObj [("_id", VStr "abc"); ("age", VNum 41)]].
Proof. vm_compute. split; reflexivity. Qed.

Lemma mapM_ext {A B : Type} (f g : A -> result B) (l : list A) :
  (forall a, f a = g a) -> mapM f l = mapM g l.
Proof.
  intros H. induction l as [|a l IH]; simpl; [reflexivity|].
  now rewrite H, IH.
Qed.

Lemma mapM_Forall2 {A B : Type} (f : A -> result B) (l : list A) :
  Forall (fun a => exists b, f a = Ok b) l ->
  exists out, mapM f l = Ok out /\ Forall2 (fun a b => f a = Ok b) l out.
Proof.
  induction 1 as [|a l [b Hb] _ (out & Hout & Hall)]; simpl.
  - exists []. split; [reflexivity|constructor].
  - rewrite Hb, Hout. simpl. exists (b :: out). split; [reflexivity|].
    now constructor.
Qed.

(** What the code calls for a group is the recombine of the engine. *)
Lemma recombine_engine (lib : Nilql) (v : SecretVaultWrapper.t) (g : group) :
  recombine lib v g = Spec.recombineGroup lib (nilqlWrapper v) g.
Proof.
  unfold recombine, nilql, Spec.recombineGroup.
  destruct (nilqlWrapper v); reflexivity.
Qed.

(** C4: a read flattens the records of the outcomes that have [data],
    which the outcome of a failed node has not; it scans the stream once,
    each record joining the first group that holds a record with its
    [_id] or else starting a new group; it unifies every group once, with
    the engine of the vault, on all the shares of the group in the order
    in which they arrived, and returns the unified records, one per group
    in the order of the groups: the read is the list of what [unify]
    makes of the groups, it returns whenever [unify] returns for every
    group, and it fails with what [unify] fails with otherwise.  The
    groups so made hold every record of the stream once, the records of a
    group have one [_id] and the records of two groups different ones. *)
Theorem read_reassembly (w : World) (lib : Nilql) (v : SecretVaultWrapper.t)
    (filter : value) :
  Spec.alike (readFromNodes w lib v filter)
    (Spec.reassemble lib (nilqlWrapper v) (readResults w v filter)) /\
  (forall i n,
     nodes v !! i = Some n ->
     ((exists error, generateNodeToken w (did n) = Throw error) \/
      (exists jwt error,
         generateNodeToken w (did n) = Ok jwt /\
         request w (url n) "data/read" jwt
           (VObj [("schema", schemaId v);
                  ("filter", default_arg filter (VObj []))]) "POST"
         = Throw error)) ->
     exists out,
       readResults w v filter !! i = Some out /\ Spec.recordsOf out = Ok []) /\
  (forall stream groups e,
     Spec.flatten (readResults w v filter) = Ok stream ->
     Spec.firstMatchGroups stream = Ok groups ->
     nilqlWrapper v = Some e ->
     readFromNodes w lib v filter
     = mapM (fun g => unify lib e (shares g)) groups /\
     (Forall (fun g => exists u, unify lib e (shares g) = Ok u) groups ->
      exists out,
        readFromNodes w lib v filter = Ok out /\
        Forall2 (fun g u => unify lib e (shares g) = Ok u) groups out)) /\
  (forall stream groups,
     Spec.firstMatchGroups stream = Ok groups ->
     Spec.groupedById groups /\
     Permutation (concat (map shares groups)) stream).
Proof.
  assert (forall stream,
            Spec.flatten (readResults w v filter) = Ok stream ->
            recordGroups (readResults w v filter) []
            = placeAll stream []) as Hscan.
  { intros stream Hflat.
    pose proof (recordGroups_flatten (readResults w v filter) []) as H.
    now rewrite Hflat in H. }
  split; [|split; [|split]]; cycle 3.
  { intros stream groups. unfold Spec.firstMatchGroups.
    destruct (forallb _ stream); [|discriminate].
    intros H. injection H as <-.
    apply (joins_grouped stream []). split; constructor. }
  - unfold readFromNodes, Spec.reassemble.
    pose proof (recordGroups_flatten (readResults w v filter) []) as H.
    destruct (Spec.flatten (readResults w v filter)) as [stream|e]; simpl.
    + rewrite H. unfold Spec.firstMatchGroups.
      destruct (forallb _ stream) eqn:Hall.
      * rewrite (placeAll_join stream [] sound_nil Hall). simpl.
        rewrite (mapM_ext (recombine lib v)
                   (Spec.recombineGroup lib (nilqlWrapper v)))
          by apply recombine_engine.
        destruct (mapM _ _); simpl; auto.
      * destruct (placeAll_nullish stream [] sound_nil Hall) as [e ->].
        simpl. exact I.
    + destruct H as [e' ->]. simpl. exact I.
  - intros i n Hn Hfail.
    exists (outcome [] (readDataFromNode w v (default_arg filter (VObj [])) n)).
    split.
    + unfold readResults, allSettled, readLegs.
      rewrite !list_lookup_fmap, Hn. reflexivity.
    + now apply failed_node_no_records.
  - intros stream groups e Hflat Hgroups He.
    assert (readFromNodes w lib v filter
            = mapM (fun g => unify lib e (shares g)) groups) as Hread.
    { unfold readFromNodes. rewrite (Hscan stream Hflat).
      unfold Spec.firstMatchGroups in Hgroups.
      destruct (forallb _ stream) eqn:Hall; [|discriminate].
      injection Hgroups as <-.
      rewrite (placeAll_join stream [] sound_nil Hall). simpl.
      apply mapM_ext. intros g. unfold recombine, nilql. now rewrite He. }
    split; [exact Hread|].
    intros Hall. rewrite Hread. now apply mapM_Forall2.
Qed.

(** ** The reference sharing library meets the engine contract *)

Lemma assoc_In (k : string) (x : value) fs :
  assoc k fs = Some x -> In (k, x) fs.
Proof.
  induction fs as [|[k' x'] fs IH]; simpl; [discriminate|].
  destruct (String.eqb_spec k k') as [->|].
  - intros H. injection H as <-. now left.
  - intros H. right. now apply IH.
Qed.

Lemma get_object (d : value) (k : string) (fs : list (string * value)) :
  get d k = VObj fs -> exists ds, d = VObj ds /\ assoc k ds = Some (VObj fs).
Proof.
  destruct d as [| | | | | |ds|m]; simpl; try discriminate.
  - destruct (assoc k ds) as [x|] eqn:E; [|discriminate].
    intros ->. eauto.
  - destruct (String.eqb k "message"); discriminate.
Qed.

Lemma sum_app (xs ys : list Z) :
  Reference.sum (xs ++ ys) = (Reference.sum xs + Reference.sum ys)%Z.
Proof.
  unfold Reference.sum. induction xs as [|x xs IH]; simpl; [reflexivity|].
  rewrite IH. lia.
Qed.

Lemma split_sum (n : nat) (key : value) (z : Z) (tick : nat) :
  Reference.sum (Reference.split n key z tick) = z.
Proof.
  unfold Reference.split. rewrite sum_app. simpl. lia.
Qed.

Lemma split_length (n : nat) (key : value) (z : Z) (tick : nat) :
  (0 < n)%nat -> length (Reference.split n key z tick) = n.
Proof.
  intros Hn. unfold Reference.split.
  rewrite length_app, length_map, length_seq. simpl. lia.
Qed.

Lemma shares_collected (zs : list Z) :
  map (fun i => Reference.number
                  (Reference.share_of i (VArr (map VNum zs))))
      (seq 0 (length zs)) = zs.
Proof.
  apply list_eq. intros i. rewrite list_lookup_fmap.
  destruct (zs !! i) as [z|] eqn:Hz.
  - rewrite lookup_seq_lt by (now apply lookup_lt_Some in Hz). simpl.
    unfold JS.index. now rewrite list_lookup_fmap, Hz.
  - apply lookup_ge_None in Hz. now rewrite lookup_seq_ge.
Qed.

Lemma sharing_round_trip (n : nat) (key : value) (d : value) (F : string)
    (x s : value) (tick : nat) (vs : list value) :
  (0 < n)%nat ->
  get d F = VObj [("%allot", s)] ->
  nilql_encrypt (Reference.sharing n) key x tick = Ok s ->
  nilql_allot (Reference.sharing n) d = Ok vs ->
  exists r, nilql_unify (Reference.sharing n) key vs = Ok r /\ get r F = x.
Proof.
  intros Hn Hd Henc Hallot.
  apply get_object in Hd as (fs & -> & HF).
  destruct x as [| | |z| | | |]; simpl in Henc; try discriminate.
  injection Henc as <-.
  simpl in Hallot.
  assert (existsb (fun kv => Reference.marked (snd kv)) fs = true) as Hmarked.
  { apply existsb_exists. eexists. split; [apply (assoc_In _ _ _ HF)|].
    reflexivity. }
  rewrite Hmarked in Hallot. injection Hallot as <-.
  destruct n as [|n]; [lia|].
  eexists. split; [reflexivity|].
  cbn [get].
  rewrite (assoc_map F
             (fun k x => Reference.combine x
                           (map (fun y => get y k)
                              (map (fun i => Reference.variant i (VObj fs))
                                 (seq 0 (S n)))))).
  rewrite (assoc_map F (fun _ x => Reference.variantField 0 x)), HF.
  cbn [fmap option_fmap option_map Reference.variantField has_key assoc
       String.eqb Ascii.eqb Bool.eqb Reference.combine].
  f_equal.
  transitivity (Reference.sum (Reference.split (S n) key z tick));
    [|apply split_sum].
  f_equal.
  rewrite <- (shares_collected (Reference.split (S n) key z tick)).
  rewrite split_length by lia.
  rewrite !map_map. apply map_ext. intros i.
  cbn [Reference.variant get].
  rewrite (assoc_map F (fun _ x => Reference.variantField i x)), HF.
  reflexivity.
Qed.

Lemma written_unreserved (fs : list (string * value)) :
  forallb (fun kv => negb (Spec.reserved (fst kv))) fs = true ->
  Spec.written fs = fs.
Proof.
  induction fs as [|[k x] fs IH]; simpl; [reflexivity|].
  intros [Hk Hfs]%andb_true_iff. unfold Spec.reserved in Hk.
  destruct (String.eqb k "__proto__"); [discriminate|]. simpl.
  now rewrite IH.
Qed.

Lemma markersOnly_unreserved (fs : list (string * value)) :
  Spec.markersOnly (VObj fs) = true ->
  forallb (fun kv => negb (Spec.reserved (fst kv))) fs = true.
Proof.
  simpl. rewrite !forallb_forall. intros H kv Hkv.
  now destruct (proj1 (andb_true_iff _ _) (H kv Hkv)).
Qed.

(** What the walk leaves under a marked field. *)
Lemma allotted_marked (lib : Nilql) (key : value)
    (fs : list (string * value)) (d : value) (F : string) (m : value) :
  Spec.markersOnly (VObj fs) = true ->
  Spec.allotted lib key (VObj fs) d ->
  assoc F fs = Some m -> has_key "%allot" m = true ->
  exists s t,
    nilql_encrypt lib key (get m "%allot") t = Ok s /\
    get d F = VObj [("%allot", s)].
Proof.
  intros Hm Hd HF Hmarked.
  inversion Hd as [? Hleaf| |fs' gs Hgs|]; subst; [discriminate|].
  rewrite (written_unreserved fs (markersOnly_unreserved fs Hm)) in Hgs.
  destruct (assoc_Forall2 _ F m fs gs Hgs HF) as (y & Hy & Hst).
  inversion Hst as [x Hleaf Hx1 Hx2|x t s Hobj Hk Henc Hx1 Hx2|x x' Hobj Hk Hw Hx1 Hx2].
  - exfalso. subst. destruct y; discriminate.
  - exists s, t. split; [exact Henc|]. simpl. rewrite Hy. congruence.
  - congruence.
Qed.

Lemma sharing_recombines (n : nat) (key : value) :
  (0 < n)%nat -> Spec.recombines (Reference.sharing n) key.
Proof.
  intros Hn fs d vs Ht Hd Hallot.
  apply andb_true_iff in Ht as [_ Hm].
  assert (exists r, nilql_unify (Reference.sharing n) key vs = Ok r) as [r Hr].
  { simpl in Hallot. injection Hallot as <-. simpl.
    destruct (Reference.hasMarkedField d); [destruct n; [lia|]|]; simpl;
      destruct (Reference.variant 0 d); eauto. }
  exists r. split; [exact Hr|]. intros F m HF Hmarked.
  destruct (allotted_marked _ key fs d F m Hm Hd HF Hmarked)
    as (s & t & Henc & HdF).
  destruct (sharing_round_trip n key d F _ s t vs Hn HdF Henc Hallot)
    as (r' & Hr' & HF').
  congruence.
Qed.

Lemma variant_keeps_leaf (i : nat) (d : value) (k : string) :
  is_object (get d k) = false ->
  get (Reference.variant i d) k = get d k.
Proof.
  destruct d as [| | | | |xs|fs|m]; try reflexivity.
  simpl. rewrite (assoc_map k (fun _ x => Reference.variantField i x)).
  destruct (assoc k fs) as [x|]; simpl; [|reflexivity].
  destruct x; simpl; try reflexivity; discriminate.
Qed.

Lemma sharing_keepsPlainId (n : nat) :
  (0 < n)%nat -> Spec.keepsPlainId (Reference.sharing n).
Proof.
  intros Hn d vs Hallot Hleaf. simpl in Hallot. injection Hallot as <-.
  split.
  - destruct (Reference.hasMarkedField d); [destruct n; [lia|]|]; discriminate.
  - intros s Hs. apply in_map_iff in Hs as (i & <- & _).
    now apply variant_keeps_leaf.
Qed.

(** ** Round trip and identity *)

Lemma obj_set_keys {V : Type} (k : string) (v : V) (fs : list (string * V)) x :
  x ∈ map fst (obj_set k v fs) <-> x = k \/ x ∈ map fst fs.
Proof.
  induction fs as [|[k' v'] fs IH]; simpl.
  - rewrite elem_of_cons, elem_of_nil. tauto.
  - destruct (String.eqb_spec k k') as [->|Hne]; simpl.
    + rewrite !elem_of_cons. tauto.
    + rewrite !elem_of_cons, IH. tauto.
Qed.

Lemma obj_set_NoDup {V : Type} (k : string) (v : V) (fs : list (string * V)) :
  NoDup (map fst fs) -> NoDup (map fst (obj_set k v fs)).
Proof.
  induction fs as [|[k' v'] fs IH]; simpl; intros Hnd.
  - apply NoDup_singleton.
  - apply NoDup_cons in Hnd as [Hk' Hnd].
    destruct (String.eqb_spec k k') as [->|Hne]; simpl.
    + apply NoDup_cons. auto.
    + apply NoDup_cons. split; [|auto].
      rewrite obj_set_keys. intros [->|H]; contradiction.
Qed.

Lemma assign_NoDup {V : Type} (ps o : list (string * V)) :
  NoDup (map fst o) -> NoDup (map fst (assign ps o)).
Proof.
  revert o. unfold assign.
  induction ps as [|[k v] ps IH]; intros o Hnd; simpl; [exact Hnd|].
  apply IH. now apply obj_set_NoDup.
Qed.

Section TopLevel.
Context (lib : Nilql) (key : value).

Lemma encryptDeep_fields (fs : list (string * value)) (tick : nat) r :
  NoDup (map fst fs) ->
  encryptDeep lib key (VObj fs) tick = Ok r ->
  exists gs, fst r = VObj gs /\
    Forall2 (fun f g => fst f = fst g /\ Spec.stored lib key (snd f) (snd g))
      (Spec.written fs) gs.
Proof.
  intros Hnd. simpl.
  destruct (encryptProps _ fs [] tick) as [r'|e] eqn:Hloop; simpl;
    [|discriminate].
  intros H. injection H as <-.
  apply (encryptProps_ok _ (Spec.stored lib key) fs) with (acc := []) in Hloop
    as (gs & -> & Hgs); [eauto| |exact Hnd].
  apply Forall_forall. intros kv _ t r Hstep. exists t, r. auto.
Qed.

Lemma stored_leaf (x y : value) :
  is_object x = false -> Spec.stored lib key x y -> y = x.
Proof.
  intros Hx (t & r & Hstep & ->). unfold encryptEntry in Hstep.
  rewrite Hx in Hstep. now injection Hstep as <-.
Qed.

Lemma stored_marked (x y : value) :
  has_key "%allot" x = true -> Spec.stored lib key x y ->
  exists t s, nilql_encrypt lib key (get x "%allot") t = Ok s /\
              y = VObj [("%allot", s)].
Proof.
  intros Hx (t & r & Hstep & ->). unfold encryptEntry in Hstep.
  assert (is_object x = true) as Hobj by (destruct x; try discriminate; reflexivity).
  rewrite Hobj, Hx in Hstep.
  destruct (nilql_encrypt lib key (get x "%allot") t) as [s|e] eqn:Henc;
    simpl in Hstep; [|discriminate].
  injection Hstep as <-. eauto.
Qed.

End TopLevel.

Lemma pick_all (v : SecretVaultWrapper.t) (vs : list value) :
  length vs = length (nodes v) ->
  map (fun index => pick v index vs) (seq 0 (length (nodes v))) = vs.
Proof.
  intros Hlen. apply list_eq. intros i. rewrite list_lookup_fmap.
  unfold pick. rewrite Hlen, Nat.eqb_refl. simpl.
  destruct (vs !! i) as [x|] eqn:Hx.
  - rewrite lookup_seq_lt by (rewrite <- Hlen; now apply lookup_lt_Some in Hx).
    simpl. unfold JS.index. now rewrite Hx.
  - apply lookup_ge_None in Hx. rewrite lookup_seq_ge by lia. reflexivity.
Qed.

Lemma template_well_formed (v : value) :
  Spec.template v = true -> Spec.well_formed v = true.
Proof. unfold Spec.template. now intros [H _]%andb_true_iff. Qed.




(** The scenario end to end on the reference library. *)
Example feedback_round_trip :
  (let! r := prepareAndAllot (Reference.sharing 3) Examples.engine_with_key
               Examples.feedback 0 in
   unify (Reference.sharing 3) Examples.engine_with_key (fst r))
  = Ok (VObj [("message", VStr "hi"); ("age", VNum 41)]).
Proof. vm_compute. reflexivity. Qed.

Lemma pick_member (v : SecretVaultWrapper.t) (index : nat) (vs : list value) :
  vs <> [] -> (index < length (nodes v))%nat -> In (pick v index vs) vs.
Proof.
  intros Hne Hidx. unfold pick, JS.index.
  destruct (Nat.eqb_spec (length vs) (length (nodes v))) as [Hlen|Hlen]; simpl.
  - destruct (vs !! index) as [x|] eqn:Hx.
    + apply list_elem_of_In. eapply list_elem_of_lookup_2. exact Hx.
    + apply lookup_ge_None in Hx. lia.
  - destruct vs as [|x vs]; [contradiction|]. now left.
Qed.




(** The batch: [data.map] makes one record per record, and draws one
    identifier for each record without a truthy [_id]. *)
Lemma idData_draws (w : World) (data ids : list value) (tick tick' : nat) :
  idData w data tick = Ok (ids, tick') ->
  length ids = length data /\
  tick' = (tick + length (List.filter
                            (fun record => negb (truthy (get record "_id")))
                            data))%nat.
Proof.
  revert ids tick tick'. induction data as [|record data IH];
    intros ids tick tick'; simpl.
  - intros H. injection H as <- <-. split; [reflexivity|lia].
  - unfold withId.
    destruct (prop record "_id") as [id|e] eqn:Hid; simpl; [|discriminate].
    assert (id = get record "_id") as ->.
    { destruct record; try discriminate; now injection Hid as <-. }
    destruct (truthy (get record "_id")); simpl.
    + destruct (idData w data tick) as [[rs t]|e] eqn:Hrest; simpl;
        [|discriminate].
      intros H. injection H as <- <-.
      destruct (IH rs tick t Hrest) as [Hlen ->]. simpl. split; lia.
    + destruct (idData w data (S tick)) as [[rs t]|e] eqn:Hrest; simpl;
        [|discriminate].
      intros H. injection H as <- <-.
      destruct (IH rs (S tick) t Hrest) as [Hlen ->]. simpl. split; lia.
Qed.

(** ** Frame *)

Module HeapFacts.
Import Heap.

Lemma extends_refl (n : nat) (s : state) : extends n s s.
Proof. split; [reflexivity|lia]. Qed.

Lemma extends_trans (n : nat) (s1 s2 s3 : state) :
  extends n s1 s2 -> extends n s2 s3 -> extends n s1 s3.
Proof. intros [H1 L1] [H2 L2]. split; [congruence|lia]. Qed.

Section Rules.
Context (I : state -> Prop) (n : nat).

Lemma runs_ret {A} (a : A) (Q : A -> Prop) : Q a -> runs I n (ret a) Q.
Proof.
  intros HQ s Hn HI. simpl. split; [apply extends_refl|]. split; [exact HI|].
  intros a' H. now injection H as <-.
Qed.

Lemma runs_throw {A} (e : value) (Q : A -> Prop) : runs I n (throw e) Q.
Proof.
  intros s Hn HI. simpl. split; [apply extends_refl|]. split; [exact HI|].
  discriminate.
Qed.

Lemma runs_lift {A} (r : result A) : runs I n (lift r) whatever.
Proof.
  intros s Hn HI. simpl. split; [apply extends_refl|]. split; [exact HI|].
  intros; exact Logic.I.
Qed.

Lemma runs_bind {A B} (m : M A) (k : A -> M B) (Q : A -> Prop) (R : B -> Prop) :
  runs I n m Q -> (forall a, Q a -> runs I n (k a) R) -> runs I n (bindM m k) R.
Proof.
  intros Hm Hk s Hn HI. specialize (Hm s Hn HI). unfold bindM.
  destruct (m s) as [[a|e] s1]; simpl in Hm; destruct Hm as (Hext & HI1 & HQ).
  - assert (n <= length (cells s1)) as Hn1 by (destruct Hext; lia).
    destruct (Hk a (HQ a eq_refl) s1 Hn1 HI1) as (Hext' & HI2 & HR).
    split; [eapply extends_trans; eassumption|]. split; assumption.
  - simpl. split; [exact Hext|]. split; [exact HI1|]. discriminate.
Qed.

Lemma runs_catch {A} (m : M A) (h : value -> M A) (Q : A -> Prop) :
  runs I n m Q -> (forall e, runs I n (h e) Q) -> runs I n (catch m h) Q.
Proof.
  intros Hm Hh s Hn HI. specialize (Hm s Hn HI). unfold catch.
  destruct (m s) as [[a|e] s1]; simpl in Hm; destruct Hm as (Hext & HI1 & HQ).
  - simpl. auto.
  - assert (n <= length (cells s1)) as Hn1 by (destruct Hext; lia).
    destruct (Hh e s1 Hn1 HI1) as (Hext' & HI2 & HR).
    split; [eapply extends_trans; eassumption|]. split; assumption.
Qed.

Lemma runs_weaken {A} (m : M A) (Q R : A -> Prop) :
  runs I n m Q -> (forall a, Q a -> R a) -> runs I n m R.
Proof.
  intros Hm HQR s Hn HI. destruct (Hm s Hn HI) as (Hext & HI1 & HQ).
  split; [exact Hext|]. split; [exact HI1|]. intros a Ha. apply HQR, HQ, Ha.
Qed.

Lemma runs_read (l : nat) : runs I n (read l) whatever.
Proof.
  intros s Hn HI. unfold read. destruct (cells s !! l); simpl;
    (split; [apply extends_refl|]; split; [exact HI|]; intros; exact Logic.I).
Qed.

Lemma runs_snapshot : runs I n snapshot whatever.
Proof.
  intros s Hn HI. simpl. split; [apply extends_refl|]. split; [exact HI|].
  intros; exact Logic.I.
Qed.

End Rules.

(** The three operations that change the state, first with no condition
    on the store. *)
Lemma runs_alloc (n : nat) (c : cell) : runs any n (alloc c) (fun l => n <= l).
Proof.
  intros s Hn _. simpl. split; [|split; [exact Logic.I|]].
  - unfold extends. simpl. split; [now rewrite take_app_le|].
    rewrite length_app. simpl. lia.
  - intros a H. injection H as <-. exact Hn.
Qed.

Lemma runs_write (n l : nat) (c : cell) :
  n <= l -> runs any n (write l c) whatever.
Proof.
  intros Hl s Hn _. simpl. split; [|split; [exact Logic.I|intros; exact Logic.I]].
  unfold extends. simpl. split; [now rewrite take_insert_ge|].
  now rewrite length_insert.
Qed.

Lemma runs_draw (n : nat) : runs any n draw whatever.
Proof.
  intros s Hn _. simpl. split; [split; [reflexivity|simpl; lia]|].
  split; [exact Logic.I|intros; exact Logic.I].
Qed.

Create HintDb frame.

#[local] Hint Resolve runs_throw runs_lift runs_read runs_snapshot runs_draw
  : frame.

#[local] Hint Extern 1 (whatever _) => exact Logic.I : frame.

#[local] Hint Extern 1 (runs _ _ (ret _) whatever) =>
  apply runs_ret; exact Logic.I : frame.

(** One step of a frame proof: split a sequence, or close a primitive. *)
Ltac frame :=
  repeat lazymatch goal with
    | |- runs _ _ (bindM _ _) _ => eapply runs_bind; [|intros ? ?]
    | |- runs _ _ (ret _) _ => apply runs_ret; exact Logic.I
    | |- runs _ _ (alloc _) _ =>
        eapply runs_weaken; [apply runs_alloc|intros ? ?; exact Logic.I]
    | |- _ => solve [eauto with frame]
    end.

Section Any.
Context (w : World) (lib : Nilql) (fuel : nat) (n : nat).

Lemma runs_mapM {A B} (f : A -> M B) (l : list A) :
  (forall a, runs any n (f a) whatever) -> runs any n (mapM f l) whatever.
Proof. intros Hf. induction l as [|a l IH]; simpl; frame. Qed.

Lemma runs_forM {A} (f : A -> M unit) (l : list A) :
  (forall a, runs any n (f a) whatever) -> runs any n (forM f l) whatever.
Proof. intros Hf. induction l as [|a l IH]; simpl; frame. Qed.

Lemma runs_allocTree (t : value) : runs any n (allocTree t) whatever.
Proof.
  induction t as [| | | | |xs IH|fs IH|m] using value_induction; simpl;
    try (apply runs_ret; exact Logic.I).
  - eapply runs_bind with (Q := whatever); [|intros vs _; frame].
    induction IH as [|x xs Hx _ IHxs]; frame.
  - eapply runs_bind with (Q := whatever); [|intros gs _; frame].
    induction IH as [|[k x] fs Hx _ IHfs]; frame.
  - frame.
Qed.

Lemma runs_prop (v : val) (k : string) : runs any n (prop v k) whatever.
Proof. destruct v; simpl; frame. destruct a; frame. Qed.

Lemma runs_own_props (v : val) : runs any n (own_props v) whatever.
Proof. destruct v; simpl; frame. destruct a; frame. Qed.

Lemma runs_elements (what : string) (v : val) :
  runs any n (elements what v) whatever.
Proof. destruct v; simpl; frame. destruct a; frame. Qed.

Lemma runs_setProp (encrypted : nat) (k : string) (x : val) :
  n <= encrypted -> runs any n (setProp encrypted k x) whatever.
Proof.
  intros Hl. unfold setProp. frame. destruct a; frame. now apply runs_write.
Qed.

Lemma runs_setElem (encrypted i : nat) (x : val) :
  n <= encrypted -> runs any n (setElem encrypted i x) whatever.
Proof.
  intros Hl. unfold setElem. frame. destruct a; frame. now apply runs_write.
Qed.

Lemma runs_push (array : nat) (x : val) :
  n <= array -> runs any n (push array x) whatever.
Proof.
  intros Hl. unfold push. frame. destruct a; frame. now apply runs_write.
Qed.

Lemma runs_argument (v : val) : runs any n (argument fuel v) whatever.
Proof. unfold argument. frame. destruct (reify fuel a v); frame. Qed.

#[local] Hint Resolve runs_allocTree runs_prop runs_own_props runs_elements
  runs_argument : frame.

Lemma runs_encryptEntry (rec : val -> M val) (key : value) (v : val) :
  (forall x, runs any n (rec x) whatever) ->
  runs any n (encryptEntry lib fuel rec key v) whatever.
Proof.
  intros Hrec. destruct v; simpl; frame.
  destruct a as [xs|fs]; [apply Hrec|].
  destruct (assoc "%allot" fs); [frame|apply Hrec].
Qed.

Lemma runs_encryptProps (step : val -> M val) (encrypted : nat)
    (fs : list (string * val)) :
  n <= encrypted ->
  (forall x, runs any n (step x) whatever) ->
  runs any n (encryptProps step encrypted fs) whatever.
Proof.
  intros Hl Hstep. induction fs as [|[k x] fs IH]; simpl; frame.
  now apply runs_setProp.
Qed.

Lemma runs_encryptElems (step : val -> M val) (encrypted i : nat)
    (xs : list val) :
  n <= encrypted ->
  (forall x, runs any n (step x) whatever) ->
  runs any n (encryptElems step encrypted i xs) whatever.
Proof.
  intros Hl Hstep. revert i. induction xs as [|x xs IH]; intros i; simpl; frame.
  now apply runs_setElem.
Qed.

Lemma runs_encryptDeep (depth : nat) (key : value) (obj : val) :
  runs any n (encryptDeep lib fuel depth key obj) whatever.
Proof.
  revert obj. induction depth as [|depth IH]; intros obj; simpl; frame.
  destruct obj; frame.
  destruct a as [xs|fs].
  - eapply runs_bind; [apply runs_alloc|]. intros encrypted Hl. frame.
    apply runs_encryptElems; [exact Hl|].
    intros x. now apply runs_encryptEntry.
  - eapply runs_bind; [apply runs_alloc|]. intros encrypted Hl. frame.
    apply runs_encryptProps; [exact Hl|].
    intros x. now apply runs_encryptEntry.
Qed.

Lemma runs_prepareAndAllot (e : NilQLWrapper.t) (data : val) :
  runs any n (Heap.prepareAndAllot lib fuel e data) whatever.
Proof.
  unfold Heap.prepareAndAllot.
  destruct (negb _); frame. apply runs_encryptDeep.
Qed.

Lemma runs_allotData (v : SecretVaultWrapper.t) (data : val) :
  runs any n (Heap.allotData lib fuel v data) whatever.
Proof.
  unfold Heap.allotData.
  eapply runs_bind; [apply runs_alloc|]. intros encryptedRecords Hl. frame.
  apply runs_forM. intros item. frame.
  - apply runs_prepareAndAllot.
  - now apply runs_push.
Qed.

Lemma runs_withId (record : val) : runs any n (Heap.withId w record) whatever.
Proof. unfold Heap.withId. frame. destruct (negb _); frame. Qed.

Lemma runs_pick (v : SecretVaultWrapper.t) (index : nat) (x : val) :
  runs any n (Heap.pick v index x) whatever.
Proof. destruct x; simpl; frame. destruct a; frame. Qed.

Lemma runs_writeDataToNode (v : SecretVaultWrapper.t) (transformedData : val)
    (nd : SecretVaultWrapper.node) (index : nat) :
  runs any n (Heap.writeDataToNode w fuel v transformedData nd index) whatever.
Proof.
  unfold Heap.writeDataToNode. apply runs_catch; [|intros e; frame]. frame.
  apply runs_mapM. intros x. apply runs_pick.
Qed.

Lemma runs_legs (v : SecretVaultWrapper.t) (transformedData : val)
    (index : nat) (ns : list SecretVaultWrapper.node) :
  runs any n (legs w fuel v transformedData index ns) whatever.
Proof.
  revert index. induction ns as [|nd ns IH]; intros index; simpl; frame.
  apply runs_writeDataToNode.
Qed.

Lemma runs_writeToNodes (v : SecretVaultWrapper.t) (data : val) :
  runs any n (Heap.writeToNodes w lib fuel v data) whatever.
Proof.
  unfold Heap.writeToNodes. frame.
  - apply runs_mapM. intros record. apply runs_withId.
  - apply runs_allotData.
  - apply runs_legs.
Qed.

End Any.

(** The same walk, now keeping track of what the new objects refer to. *)
Section Closed.
Context (lib : Nilql) (fuel : nat) (n : nat).

Lemma runs_alloc_closed (c : cell) :
  fresh_cell n c -> runs (closed n) n (alloc c) (fresh n ∘ Ref).
Proof.
  intros Hc s Hn HI. simpl. split; [|split].
  - unfold extends. simpl. split; [now rewrite take_app_le|].
    rewrite length_app. simpl. lia.
  - intros l c' Hl. simpl. intros Hlk.
    apply lookup_app_Some in Hlk as [Hlk|[_ Hlk]]; [now apply (HI l)|].
    apply list_lookup_singleton_Some in Hlk as [_ <-]. exact Hc.
  - intros a H. injection H as <-. exact Hn.
Qed.

Lemma runs_write_closed (l : nat) (c : cell) :
  n <= l -> fresh_cell n c -> runs (closed n) n (write l c) whatever.
Proof.
  intros Hl Hc s Hn HI. simpl. split; [|split; [|intros; exact Logic.I]].
  - unfold extends. simpl. split; [now rewrite take_insert_ge|].
    now rewrite length_insert.
  - intros l' c' Hl'. simpl. intros Hlk.
    destruct (decide (l = l')) as [->|Hne].
    + destruct (decide (l' < length (cells s))) as [Hlt|Hge].
      * rewrite list_lookup_insert_eq in Hlk by exact Hlt.
        injection Hlk as <-. exact Hc.
      * rewrite list_insert_ge in Hlk by lia. now apply (HI l').
    + rewrite list_lookup_insert_ne in Hlk by exact Hne. now apply (HI l').
Qed.

Lemma runs_draw_closed : runs (closed n) n draw whatever.
Proof.
  intros s Hn HI. simpl. split; [split; [reflexivity|simpl; lia]|].
  split; [exact HI|intros; exact Logic.I].
Qed.

(** An object read at a new address refers to new objects only. *)
Lemma runs_read_closed (l : nat) :
  n <= l -> runs (closed n) n (read l) (fresh_cell n).
Proof.
  intros Hl s Hn HI. unfold read. destruct (cells s !! l) as [c|] eqn:Hc; simpl.
  - split; [apply extends_refl|]. split; [exact HI|].
    intros a H. injection H as <-. now apply (HI l).
  - split; [apply extends_refl|]. split; [exact HI|]. discriminate.
Qed.

Lemma runs_allocTree_closed (t : value) :
  runs (closed n) n (allocTree t) (fresh n).
Proof.
  induction t as [| | | | |xs IH|fs IH|m] using value_induction; simpl;
    try (apply runs_ret; exact Logic.I).
  - eapply runs_bind with (Q := Forall (fresh n)).
    + induction IH as [|x xs Hx _ IHxs].
      * apply runs_ret. constructor.
      * eapply runs_bind; [exact Hx|]. intros v Hv.
        eapply runs_bind; [exact IHxs|]. intros vs Hvs.
        apply runs_ret. now constructor.
    + intros vs Hvs. eapply runs_bind; [now apply runs_alloc_closed|].
      intros l Hl. apply runs_ret. exact Hl.
  - eapply runs_bind with (Q := Forall (fun kv => fresh n (snd kv))).
    + induction IH as [|[k x] fs Hx _ IHfs].
      * apply runs_ret. constructor.
      * eapply runs_bind; [exact Hx|]. intros v Hv.
        eapply runs_bind; [exact IHfs|]. intros gs Hgs.
        apply runs_ret. now constructor.
    + intros gs Hgs. eapply runs_bind; [now apply runs_alloc_closed|].
      intros l Hl. apply runs_ret. exact Hl.
  - eapply runs_bind; [apply runs_alloc_closed|].
    + repeat constructor.
    + intros l Hl. apply runs_ret. exact Hl.
Qed.

Lemma runs_argument_closed (v : val) :
  runs (closed n) n (argument fuel v) whatever.
Proof.
  unfold argument. eapply runs_bind; [apply runs_snapshot|]. intros cs _.
  destruct (reify fuel cs v); [apply runs_ret; exact Logic.I|apply runs_throw].
Qed.

Lemma obj_set_fresh_cell (k : string) (x : val) (gs : list (string * val)) :
  fresh n x -> fresh_cell n (Obj gs) -> fresh_cell n (Obj (obj_set k x gs)).
Proof.
  intros Hx. simpl. induction 1 as [|[k' y] gs Hy Hgs IH]; simpl.
  - repeat constructor. exact Hx.
  - destruct (String.eqb k k'); constructor; simpl; auto.
Qed.

Lemma arr_set_fresh_cell (i : nat) (x : val) (ys : list val) :
  fresh n x -> fresh_cell n (Arr ys) -> fresh_cell n (Arr (arr_set Undef i x ys)).
Proof.
  intros Hx Hys. simpl in *. unfold arr_set.
  destruct (decide (i < length ys)%nat).
  - apply Forall_insert; assumption.
  - apply Forall_app. split; [exact Hys|]. apply Forall_app. split.
    + apply Forall_replicate. exact Logic.I.
    + repeat constructor. exact Hx.
Qed.

Lemma runs_setProp_closed (encrypted : nat) (k : string) (x : val) :
  n <= encrypted -> fresh n x ->
  runs (closed n) n (setProp encrypted k x) whatever.
Proof.
  intros Hl Hx. unfold setProp.
  eapply runs_bind; [now apply runs_read_closed|]. intros [ys|gs] Hc.
  - apply runs_ret. exact Logic.I.
  - apply runs_write_closed; [exact Hl|]. unfold obj_put.
    destruct (String.eqb k "__proto__"); [exact Hc|].
    now apply obj_set_fresh_cell.
Qed.

Lemma runs_setElem_closed (encrypted i : nat) (x : val) :
  n <= encrypted -> fresh n x ->
  runs (closed n) n (setElem encrypted i x) whatever.
Proof.
  intros Hl Hx. unfold setElem.
  eapply runs_bind; [now apply runs_read_closed|]. intros [ys|gs] Hc.
  - apply runs_write_closed; [exact Hl|]. now apply arr_set_fresh_cell.
  - apply runs_ret. exact Logic.I.
Qed.

Lemma runs_encryptEntry_closed (rec : val -> M val) (key : value) (v : val) :
  (forall x, runs (closed n) n (rec x) (fresh n)) ->
  runs (closed n) n (encryptEntry lib fuel rec key v) (fresh n).
Proof.
  intros Hrec. destruct v; simpl; try (apply runs_ret; exact Logic.I).
  eapply runs_bind; [apply runs_read|]. intros [xs|fs] _; [apply Hrec|].
  destruct (assoc "%allot" fs); [|apply Hrec].
  eapply runs_bind; [apply runs_argument_closed|]. intros plain _.
  eapply runs_bind; [apply runs_draw_closed|]. intros t _.
  eapply runs_bind; [apply runs_lift|]. intros s _.
  eapply runs_bind; [apply runs_allocTree_closed|]. intros shares Hshares.
  eapply runs_bind; [apply runs_alloc_closed|].
  - repeat constructor. exact Hshares.
  - intros marked Hm. apply runs_ret. exact Hm.
Qed.

Lemma runs_encryptProps_closed (step : val -> M val) (encrypted : nat)
    (fs : list (string * val)) :
  n <= encrypted ->
  (forall x, runs (closed n) n (step x) (fresh n)) ->
  runs (closed n) n (encryptProps step encrypted fs) whatever.
Proof.
  intros Hl Hstep. induction fs as [|[k x] fs IH]; simpl.
  - apply runs_ret. exact Logic.I.
  - eapply runs_bind; [apply Hstep|]. intros y Hy.
    eapply runs_bind; [now apply runs_setProp_closed|]. intros _ _. exact IH.
Qed.

Lemma runs_encryptElems_closed (step : val -> M val) (encrypted i : nat)
    (xs : list val) :
  n <= encrypted ->
  (forall x, runs (closed n) n (step x) (fresh n)) ->
  runs (closed n) n (encryptElems step encrypted i xs) whatever.
Proof.
  intros Hl Hstep. revert i. induction xs as [|x xs IH]; intros i; simpl.
  - apply runs_ret. exact Logic.I.
  - eapply runs_bind; [apply Hstep|]. intros y Hy.
    eapply runs_bind; [now apply runs_setElem_closed|]. intros _ _. apply IH.
Qed.

(** The walk returns a primitive as it is and a new object for an object,
    and the objects it makes refer to objects it made. *)
Lemma runs_encryptDeep_closed (depth : nat) (key : value) (obj : val) :
  runs (closed n) n (encryptDeep lib fuel depth key obj)
    (fun r => match obj with Ref _ => fresh n r | _ => r = obj end).
Proof.
  revert obj. induction depth as [|depth IH]; intros obj; simpl;
    [apply runs_throw|].
  assert (forall x, runs (closed n) n (encryptDeep lib fuel depth key x) (fresh n))
    as Hrec.
  { intros x. eapply runs_weaken; [apply IH|].
    intros r. destruct x; simpl; intros Hr; subst; auto; exact Logic.I. }
  destruct obj; try (now apply runs_ret).
  eapply runs_bind; [apply runs_read|]. intros [xs|fs] _.
  - eapply runs_bind; [apply runs_alloc_closed; constructor|].
    intros encrypted Hl.
    eapply runs_bind; [|intros _ _; apply runs_ret; exact Hl].
    apply runs_encryptElems_closed; [exact Hl|].
    intros x. now apply runs_encryptEntry_closed.
  - eapply runs_bind; [apply runs_alloc_closed; constructor|].
    intros encrypted Hl.
    eapply runs_bind; [|intros _ _; apply runs_ret; exact Hl].
    apply runs_encryptProps_closed; [exact Hl|].
    intros x. now apply runs_encryptEntry_closed.
Qed.

End Closed.

Lemma prop_reads (v : val) (k : string) (s : state) :
  snd (Heap.prop v k s) = s.
Proof.
  destruct v; simpl; try reflexivity.
  unfold bindM, read. destruct (cells s !! l) as [[xs|fs]|]; reflexivity.
Qed.

Lemma own_props_reads (v : val) (s : state) :
  snd (Heap.own_props v s) = s.
Proof.
  destruct v; simpl; try reflexivity.
  unfold bindM, read. destruct (cells s !! l) as [[xs|fs]|]; reflexivity.
Qed.

(** The callback of [data.map] returns the record itself, the store as it
    was, or a new object that has the generated [_id]. *)
Lemma withId_same_or_copy (w : World) (record : val) (s : state) :
  match Heap.withId w record s with
  | (Ok r, s') =>
      (r = record /\ s' = s) \/
      (exists fs,
         r = Ref (length (cells s)) /\
         cells s' = cells s ++ [Obj fs] /\
         assoc "_id" fs = Some (Str (uuidv4 w (tick s))))
  | (Throw _, s') => s' = s
  end.
Proof.
  unfold Heap.withId, bindM.
  pose proof (prop_reads record "_id" s) as Hp.
  destruct (Heap.prop record "_id" s) as [[id|e] s1]; simpl in Hp; subst s1;
    [|reflexivity].
  destruct (Heap.truthy id); simpl; [now left|].
  pose proof (own_props_reads record s) as Ho.
  destruct (Heap.own_props record s) as [[props|e] s1]; simpl in Ho; subst s1;
    [|reflexivity].
  simpl. right. eexists. split; [reflexivity|]. split; [reflexivity|].
  apply assoc_assign_last. intros p [].
Qed.

Lemma extends_untouched (s s' : state) :
  extends (length (cells s)) s s' -> untouched s s'.
Proof.
  intros [Htake _]. unfold untouched.
  rewrite firstn_all in Htake.
  exists (drop (length (cells s)) (cells s')).
  rewrite <- Htake at 1. now rewrite take_drop.
Qed.

Lemma closed_at_end (s : state) : closed (length (cells s)) s.
Proof.
  intros l c Hl Hc. apply lookup_lt_Some in Hc. lia.
Qed.

End HeapFacts.

(** C10: [writeToNodes] changes no object that existed when it was
    called, however it ends: the array of records and the records are
    as before.  A record without a truthy [_id] is replaced in the batch
    by a new object that has the [_id], a record with one is passed on
    as it is; and the walk of the allotment makes a new object for every
    object it meets, the new objects referring to new objects only. *)
Theorem writeToNodes_leaves_its_input (w : World) (lib : Nilql) (fuel : nat)
    (v : SecretVaultWrapper.t) (data : Heap.val) (s : Heap.state) :
  Heap.untouched s (snd (Heap.writeToNodes w lib fuel v data s)) /\
  (forall record st,
     match Heap.withId w record st with
     | (Ok r, st') =>
         (r = record /\ st' = st) \/
         (exists fs,
            r = Heap.Ref (length (Heap.cells st)) /\
            Heap.cells st' = Heap.cells st ++ [Heap.Obj fs] /\
            assoc "_id" fs = Some (Heap.Str (uuidv4 w (Heap.tick st))))
     | (Throw _, st') => st' = st
     end) /\
  (forall depth key obj st,
     Heap.untouched st (snd (Heap.encryptDeep lib fuel depth key obj st)) /\
     Heap.closed (length (Heap.cells st))
       (snd (Heap.encryptDeep lib fuel depth key obj st)) /\
     forall r, fst (Heap.encryptDeep lib fuel depth key obj st) = Ok r ->
       match obj with
       | Heap.Ref _ => Heap.fresh (length (Heap.cells st)) r
       | _ => r = obj
       end).
Proof.
  split; [|split].
  - apply HeapFacts.extends_untouched.
    apply (HeapFacts.runs_writeToNodes w lib fuel (length (Heap.cells s)) v data s);
      [lia|exact I].
  - intros record st. apply HeapFacts.withId_same_or_copy.
  - intros depth key obj st.
    destruct (HeapFacts.runs_encryptDeep_closed lib fuel (length (Heap.cells st))
                depth key obj st) as (Hext & Hclosed & Hr);
      [lia|apply HeapFacts.closed_at_end|].
    split; [now apply HeapFacts.extends_untouched|]. split; assumption.
Qed.

(** On the store of the example the call makes the objects from address
    3 on, and the result it returns is the result of the model on
    trees. *)
Example write_in_the_store :
  take 3 (Heap.cells (snd (Heap.writeToNodes Examples.quiet (Reference.sharing 3)
                             50 Examples.vault (Heap.Ref 2)
                             Examples.store_with_feedback)))
  = Heap.cells Examples.store_with_feedback /\
  (let! r := fst (Heap.writeToNodes Examples.quiet (Reference.sharing 3) 50
                    Examples.vault (Heap.Ref 2) Examples.store_with_feedback) in
   Ok (Heap.reify 50
         (Heap.cells (snd (Heap.writeToNodes Examples.quiet (Reference.sharing 3)
                             50 Examples.vault (Heap.Ref 2)
                             Examples.store_with_feedback))) r))
  = (let! outs := writeToNodes Examples.quiet (Reference.sharing 3)
                    Examples.vault [Examples.feedback] 0 in
     Ok (Some (VArr outs))).
Proof. vm_compute. split; reflexivity. Qed.

(** * Further properties *)

(** ** Decimal numerals *)

Lemma digit_char (d : N) :
  (d < 10)%N ->
  Str.is_digit (pretty_N_char d) = true /\
  Z.of_nat (nat_of_ascii (pretty_N_char d) - 48) = Z.of_N d.
Proof.
  intros H.
  assert (d = 0 \/ d = 1 \/ d = 2 \/ d = 3 \/ d = 4 \/ d = 5 \/ d = 6 \/
          d = 7 \/ d = 8 \/ d = 9)%N as Hd by lia.
  repeat (destruct Hd as [->|Hd]); subst; split; reflexivity.
Qed.

Lemma pretty_go_append (x : N) (s t : string) :
  pretty_N_go x s +:+ t = pretty_N_go x (s +:+ t).
Proof.
  revert s. induction (N.lt_wf_0 x) as [x _ IH]; intros s.
  destruct (N.eq_dec x 0%N) as [->|Hx]; [now rewrite !pretty_N_go_0|].
  rewrite (pretty_N_go_step x s), (pretty_N_go_step x (s +:+ t)) by lia.
  rewrite IH by (apply N.div_lt; lia). reflexivity.
Qed.

Lemma pretty_go_digits (x : N) (s : string) :
  Str.take_digits (pretty_N_go x s) = pretty_N_go x (Str.take_digits s).
Proof.
  revert s. induction (N.lt_wf_0 x) as [x _ IH]; intros s.
  destruct (N.eq_dec x 0%N) as [->|Hx]; [now rewrite !pretty_N_go_0|].
  rewrite (pretty_N_go_step x s), (pretty_N_go_step x (Str.take_digits s)) by lia.
  rewrite IH by (apply N.div_lt; lia). simpl.
  destruct (digit_char (x `mod` 10)) as [-> _]; [|reflexivity].
  apply N.mod_lt. lia.
Qed.

Lemma pretty_go_nonempty (x : N) (s : string) :
  s <> EmptyString -> pretty_N_go x s <> EmptyString.
Proof.
  revert s. induction (N.lt_wf_0 x) as [x _ IH]; intros s Hs.
  destruct (N.eq_dec x 0%N) as [->|Hx]; [now rewrite pretty_N_go_0|].
  rewrite pretty_N_go_step by lia.
  apply IH; [apply N.div_lt; lia|discriminate].
Qed.

Lemma pretty_go_parse (x : N) :
  exists k : nat, forall s acc,
    Str.parse_digits acc (pretty_N_go x s)
    = Str.parse_digits (acc * 10 ^ Z.of_nat k + Z.of_N x) s.
Proof.
  induction (N.lt_wf_0 x) as [x _ IH].
  destruct (N.eq_dec x 0%N) as [->|Hx].
  - exists 0%nat. intros s acc. rewrite pretty_N_go_0. f_equal. simpl. lia.
  - destruct (IH (x `div` 10)%N) as [k Hk]; [apply N.div_lt; lia|].
    exists (S k). intros s acc.
    rewrite pretty_N_go_step by lia. rewrite Hk. simpl.
    destruct (digit_char (x `mod` 10)) as [_ ->]; [apply N.mod_lt; lia|].
    f_equal. rewrite Nat2Z.inj_succ, Z.pow_succ_r by lia.
    rewrite (N.div_mod x 10) at 3 by lia.
    rewrite N2Z.inj_add, N2Z.inj_mul. simpl Z.of_N. lia.
Qed.

(** Reading a printed number gives the number. *)
Lemma parseInt_pretty (x : N) : Str.parseInt (pretty x) = Z.of_N x.
Proof.
  unfold pretty, pretty_N, Str.parseInt.
  destruct (decide (x = 0%N)) as [->|Hx]; [reflexivity|].
  destruct (pretty_go_parse x) as [k Hk]. rewrite Hk. simpl. lia.
Qed.

(** A printed number followed by something that is not a digit: the digits
    are those of the number. *)
Lemma take_digits_pretty (x : N) (c : ascii) (rest : string) :
  Str.is_digit c = false ->
  Str.take_digits (pretty x +:+ String c rest) = pretty x /\
  pretty x <> EmptyString.
Proof.
  intros Hc. unfold pretty, pretty_N.
  destruct (decide (x = 0%N)) as [->|Hx].
  - simpl. rewrite Hc. split; [reflexivity|discriminate].
  - rewrite pretty_go_append, pretty_go_digits. simpl. rewrite Hc.
    split; [reflexivity|].
    rewrite pretty_N_go_step by lia. apply pretty_go_nonempty. discriminate.
Qed.

(** ** The message of a failed response, read back *)

Lemma match_status_skip (c : ascii) (s : string) :
  Ascii.eqb c "s" = false ->
  Str.match_status (String c s) = Str.match_status s.
Proof.
  intros Hc. cbn [Str.match_status String.prefix].
  destruct (Ascii.eqb_spec c "s"); [discriminate|].
  destruct (ascii_dec "s" c); [congruence|reflexivity].
Qed.

Lemma match_body_skip (c : ascii) (s : string) :
  Ascii.eqb c "b" = false ->
  Str.match_body (String c s) = Str.match_body s.
Proof.
  intros Hc. cbn [Str.match_body String.prefix].
  destruct (Ascii.eqb_spec c "b"); [discriminate|].
  destruct (ascii_dec "b" c); [congruence|reflexivity].
Qed.

Lemma digit_not_b (d : N) : (d < 10)%N -> Ascii.eqb (pretty_N_char d) "b" = false.
Proof.
  intros H.
  assert (d = 0 \/ d = 1 \/ d = 2 \/ d = 3 \/ d = 4 \/ d = 5 \/ d = 6 \/
          d = 7 \/ d = 8 \/ d = 9)%N as Hd by lia.
  repeat (destruct Hd as [->|Hd]); subst; reflexivity.
Qed.

Lemma match_body_digits (x : N) (s : string) :
  Str.match_body (pretty_N_go x s) = Str.match_body s.
Proof.
  revert s. induction (N.lt_wf_0 x) as [x _ IH]; intros s.
  destruct (N.eq_dec x 0%N) as [->|Hx]; [now rewrite pretty_N_go_0|].
  rewrite pretty_N_go_step by lia.
  rewrite IH by (apply N.div_lt; lia).
  apply match_body_skip, digit_not_b, N.mod_lt. lia.
Qed.

Lemma match_body_pretty (x : N) (s : string) :
  Str.match_body (pretty x +:+ s) = Str.match_body s.
Proof.
  unfold pretty, pretty_N.
  destruct (decide (x = 0%N)) as [->|Hx].
  - now apply match_body_skip.
  - rewrite pretty_go_append. apply match_body_digits.
Qed.

Ltac unfold_append :=
  repeat match goal with
    | |- context [String ?c ?s +:+ ?t] =>
        change (String c s +:+ t) with (String c (s +:+ t))
    | |- context [EmptyString +:+ ?t] => change (EmptyString +:+ t) with t
    end.

(** The status of a failed response is found in the message. *)
Lemma match_status_message (status : N) (text : string) :
  Str.match_status ("HTTP error! status: " +:+ pretty status
                    +:+ ", body: " +:+ text) = Some (pretty status).
Proof.
  change ("HTTP error! status: " +:+ pretty status +:+ ", body: " +:+ text)
    with ("HTTP error! " +:+ "status: "
          +:+ (pretty status +:+ String "," (" body: " +:+ text))).
  unfold_append.
  rewrite !match_status_skip by reflexivity.
  cbn [Str.match_status String.prefix Str.drop].
  match goal with
  | |- context [Str.take_digits (pretty status +:+ String "," ?r)] =>
      destruct (take_digits_pretty status "," r) as [-> Hne]; [reflexivity|]
  end.
  repeat (destruct (ascii_dec _ _); [|congruence]).
  destruct (pretty status); [contradiction|reflexivity].
Qed.

(** The body is looked for in what follows the status. *)
Lemma match_body_message (status : N) (text : string) :
  Str.match_body ("HTTP error! status: " +:+ pretty status
                  +:+ ", body: " +:+ text)
  = Str.match_body ("body: " +:+ text).
Proof.
  change ("HTTP error! status: " +:+ pretty status +:+ ", body: " +:+ text)
    with ("HTTP error! status: "
          +:+ (pretty status +:+ (", " +:+ ("body: " +:+ text)))).
  unfold_append.
  rewrite !match_body_skip by reflexivity.
  rewrite match_body_pretty.
  rewrite !match_body_skip by reflexivity.
  reflexivity.
Qed.

Lemma lacks_line (c : ascii) (s : string) :
  Vocabulary.lacks c s = true -> Vocabulary.lacks c (Str.line s) = true.
Proof.
  induction s as [|c' s IH]; [reflexivity|].
  cbn [Vocabulary.lacks Str.line].
  intros [H1 H2]%andb_true_iff.
  destruct (Str.at_line_terminator (String c' s)); [reflexivity|].
  cbn [Vocabulary.lacks]. now rewrite H1, IH.
Qed.

Lemma lacks_drop (c : ascii) (n : nat) (s : string) :
  Vocabulary.lacks c s = true -> Vocabulary.lacks c (Str.drop n s) = true.
Proof.
  revert s. induction n as [|n IH]; intros [|c' s]; simpl; auto.
  intros [_ H]%andb_true_iff. now apply IH.
Qed.

Lemma lacks_brace (s : string) :
  Vocabulary.lacks "}" s = true -> Str.upto_last_brace s = None.
Proof.
  induction s as [|c s IH]; simpl; [reflexivity|].
  intros [H1 H2]%andb_true_iff. rewrite IH by exact H2.
  apply negb_true_iff in H1. now rewrite H1.
Qed.

Lemma lacks_match_body (s : string) :
  Vocabulary.lacks "}" s = true -> Str.match_body s = None.
Proof.
  induction s as [|c s IH]; intros H.
  - reflexivity.
  - cbn [Str.match_body].
    rewrite (lacks_brace (Str.drop 7 (Str.line (String c s))))
      by now apply lacks_drop, lacks_line.
    apply andb_true_iff in H as [_ H].
    destruct (String.prefix _ _); now apply IH.
Qed.

Ltac prefix_cases :=
  cbn [String.prefix];
  repeat match goal with
    | |- context [ascii_dec ?a ?b] => destruct (ascii_dec a b); [subst|]
    end;
  cbn; intros; try discriminate; congruence.

Lemma lacks_match_status (s : string) :
  Vocabulary.lacks ":" s = true -> Str.match_status s = None.
Proof.
  induction s as [|c s IH]; intros H.
  - reflexivity.
  - cbn [Str.match_status].
    destruct (String.prefix "status: " (String c s)) eqn:Hp.
    + exfalso. revert H Hp. clear.
      do 7 (destruct s as [|? s]; [prefix_cases|]). prefix_cases.
    + apply andb_true_iff in H as [_ H]. now apply IH.
Qed.

Lemma lacks_colon_match_body (s : string) :
  Vocabulary.lacks ":" s = true -> Str.match_body s = None.
Proof.
  induction s as [|c s IH]; intros H.
  - reflexivity.
  - cbn [Str.match_body].
    destruct (String.prefix "body: {" (String c s)) eqn:Hp.
    + exfalso. revert H Hp. clear.
      do 5 (destruct s as [|? s]; [prefix_cases|]). prefix_cases.
    + apply andb_true_iff in H as [_ H]. now apply IH.
Qed.

Lemma line_oneLine (s : string) :
  Vocabulary.oneLine s = true -> Str.line s = s.
Proof.
  induction s as [|c s IH]; [reflexivity|].
  cbn [Vocabulary.oneLine Str.line].
  intros [H1 H2]%andb_true_iff. apply negb_true_iff in H1.
  now rewrite H1, IH.
Qed.

(** A character that is no line feed or carriage return and does not
    start a separator may be put in front of a line. *)
Lemma oneLine_cons (c : ascii) (s : string) :
  Str.is_line_terminator c = false -> (nat_of_ascii c =? 226)%nat = false ->
  Vocabulary.oneLine s = true -> Vocabulary.oneLine (String c s) = true.
Proof.
  intros Hc H226 Hs. cbn [Vocabulary.oneLine]. rewrite Hs, andb_true_r.
  unfold Str.at_line_terminator, Str.is_separator. rewrite Hc.
  destruct s as [|b [|d s]]; try reflexivity. now rewrite H226.
Qed.

(** A closing brace may be put at the end of a line. *)
Lemma oneLine_closed (s : string) :
  Vocabulary.oneLine s = true -> Vocabulary.oneLine (s +:+ "}") = true.
Proof.
  induction s as [|c s IH]; [reflexivity|].
  cbn [Vocabulary.oneLine]. intros [H1 H2]%andb_true_iff.
  change (String c s +:+ "}") with (String c (s +:+ "}")).
  cbn [Vocabulary.oneLine]. rewrite (IH H2), andb_true_r.
  apply negb_true_iff in H1. apply negb_true_iff.
  unfold Str.at_line_terminator in *.
  apply orb_false_iff in H1 as [Hc Hsep]. rewrite Hc. cbn [orb].
  destruct s as [|b [|d s]]; unfold_append.
  - reflexivity.
  - unfold Str.is_separator. cbn [nat_of_ascii]. apply andb_false_r.
  - exact Hsep.
Qed.

Lemma upto_last_brace_closed (s : string) :
  Str.upto_last_brace (s +:+ "}") = Some (s +:+ "}").
Proof.
  induction s as [|c s IH]; simpl; [reflexivity|]. now rewrite IH.
Qed.

(** A body in braces on one line is found whole. *)
Lemma match_body_braces (inner : string) :
  Vocabulary.oneLine inner = true ->
  Str.match_body ("body: " +:+ "{" +:+ inner +:+ "}")
  = Some ("{" +:+ inner +:+ "}").
Proof.
  intros H.
  change ("body: " +:+ "{" +:+ inner +:+ "}")
    with ("body: {" +:+ (inner +:+ "}")).
  assert (Str.line ("body: {" +:+ (inner +:+ "}")) = "body: {" +:+ (inner +:+ "}"))
    as Hl by (apply line_oneLine; unfold_append;
              repeat (apply oneLine_cons; [reflexivity|reflexivity|]);
              now apply oneLine_closed).
  destruct inner as [|c inner'] eqn:Ei; [reflexivity|]. rewrite <- Ei in *.
  change ("body: {" +:+ (inner +:+ "}"))
    with (String "b" ("ody: {" +:+ (inner +:+ "}"))) in *.
  cbn [Str.match_body]. rewrite Hl.
  change (String "b" ("ody: {" +:+ (inner +:+ "}")))
    with ("body: {" +:+ (inner +:+ "}")).
  unfold_append.
  cbn [String.prefix Str.drop].
  repeat (destruct (ascii_dec _ _); [|congruence]).
  assert (forall s, String.prefix EmptyString s = true) as -> by now intros [|].
  now rewrite upto_last_brace_closed.
Qed.

(** ** makeRequest, response by response *)

(** An object literal holds, under each key, the last value written for
    it. *)
Lemma assoc_assign {V : Type} (k : string) (fs o : list (string * V)) :
  assoc k (assign fs o)
  = match assoc k (rev fs) with
    | Some v => Some v
    | None => assoc k o
    end.
Proof.
  induction fs as [|[k' v'] fs IH] using rev_ind; [reflexivity|].
  unfold assign in *. rewrite fold_left_app, rev_app_distr. simpl.
  destruct (String.eqb_spec k k') as [->|Hne].
  - apply assoc_obj_set_eq.
  - rewrite assoc_obj_set_ne by exact Hne. exact IH.
Qed.

Section Responses.
Context (w : World) (nodeUrl endpoint token method : string) (payload : value).

Lemma request_failed_response (status : N) (ct : option string) (text : string) :
  fetch w (nodeUrl +:+ "/api/v1/" +:+ endpoint) method token
    (if String.eqb method "GET" then None else Some payload)
  = Response status ct text ->
  response_ok status = false ->
  makeRequest w nodeUrl endpoint token payload method
  = let error := VErr ("HTTP error! status: " +:+ pretty status
                       +:+ ", body: " +:+ text) in
    let! body :=
      match Str.match_body ("body: " +:+ text) with
      | Some b =>
          match JSON_parse w b with
          | Some v => Ok v
          | None => Throw (VErr (syntax_error_message w b))
          end
      | None => Ok (VObj [("errors", VArr [error])])
      end in
    Ok (VObj [("status", VNum (Z.of_N status)); ("error", body)]).
Proof.
  intros Hf Hs. unfold makeRequest, request. rewrite Hf, Hs.
  cbn [negb]. unfold request_failed. cbn [get String.eqb Ascii.eqb Bool.eqb].
  rewrite match_status_message, match_body_message, parseInt_pretty.
  reflexivity.
Qed.

(** X1: A response outside 200..299: whenever [makeRequest] returns, the
    result carries the status of the response as a number, read back from
    the message of the error that the [try] block threw. *)
Theorem failed_response_keeps_status (status : N) (ct : option string)
    (text : string) (r : value) :
  fetch w (nodeUrl +:+ "/api/v1/" +:+ endpoint) method token
    (if String.eqb method "GET" then None else Some payload)
  = Response status ct text ->
  response_ok status = false ->
  makeRequest w nodeUrl endpoint token payload method = Ok r ->
  exists body, r = VObj [("status", VNum (Z.of_N status)); ("error", body)].
Proof.
  intros Hf Hs. rewrite (request_failed_response _ _ _ Hf Hs). cbv zeta.
  destruct (Str.match_body _) as [b|]; [destruct (JSON_parse w b)|];
    simpl; intros H; try discriminate; injection H as <-; eauto.
Qed.

(** X2: A response outside 200..299 whose body is one line in braces that the
    JSON reader accepts: the result holds the parsed body under [error]. *)
Theorem failed_response_json_body (status : N) (ct : option string)
    (inner : string) (body : value) :
  fetch w (nodeUrl +:+ "/api/v1/" +:+ endpoint) method token
    (if String.eqb method "GET" then None else Some payload)
  = Response status ct ("{" +:+ inner +:+ "}") ->
  response_ok status = false ->
  Vocabulary.oneLine inner = true ->
  JSON_parse w ("{" +:+ inner +:+ "}") = Some body ->
  makeRequest w nodeUrl endpoint token payload method
  = Ok (VObj [("status", VNum (Z.of_N status)); ("error", body)]).
Proof.
  intros Hf Hs Hl Hp. rewrite (request_failed_response _ _ _ Hf Hs). cbv zeta.
  rewrite (match_body_braces inner Hl), Hp. reflexivity.
Qed.

(** X3: A response outside 200..299 whose body has no closing brace: the
    result holds the error itself, wrapped in [errors], under [error]. *)
Theorem failed_response_plain_body (status : N) (ct : option string)
    (text : string) :
  fetch w (nodeUrl +:+ "/api/v1/" +:+ endpoint) method token
    (if String.eqb method "GET" then None else Some payload)
  = Response status ct text ->
  response_ok status = false ->
  Vocabulary.lacks "}" text = true ->
  makeRequest w nodeUrl endpoint token payload method
  = Ok (VObj [("status", VNum (Z.of_N status));
              ("error",
               VObj [("errors",
                      VArr [VErr ("HTTP error! status: " +:+ pretty status
                                  +:+ ", body: " +:+ text)])])]).
Proof.
  intros Hf Hs Hl. rewrite (request_failed_response _ _ _ Hf Hs). cbv zeta.
  rewrite lacks_match_body; [reflexivity|].
  unfold_append. simpl. exact Hl.
Qed.

(** X4: A request that fails before any response, with a message that has no
    colon: the result has [null] for status and the error, wrapped in
    [errors], under [error]. *)
Theorem network_error_null_status (message : string) :
  fetch w (nodeUrl +:+ "/api/v1/" +:+ endpoint) method token
    (if String.eqb method "GET" then None else Some payload)
  = NetworkError message ->
  Vocabulary.lacks ":" message = true ->
  makeRequest w nodeUrl endpoint token payload method
  = Ok (VObj [("status", VNull);
              ("error", VObj [("errors", VArr [VErr message])])]).
Proof.
  intros Hf Hl. unfold makeRequest, request. rewrite Hf.
  unfold request_failed. cbn [get String.eqb Ascii.eqb Bool.eqb].
  now rewrite lacks_match_status, lacks_colon_match_body.
Qed.

(** X5: A response in 200..299 with a JSON body: the result is an object that
    holds the properties of the parsed body, and the status of the
    response only where the body has no [status] of its own. *)
Theorem json_response_status_overridden (status : N) (ct text : string)
    (data : value) :
  fetch w (nodeUrl +:+ "/api/v1/" +:+ endpoint) method token
    (if String.eqb method "GET" then None else Some payload)
  = Response status (Some ct) text ->
  response_ok status = true ->
  Str.includes "application/json" ct = true ->
  JSON_parse w text = Some data ->
  exists r,
    makeRequest w nodeUrl endpoint token payload method = Ok (VObj r) /\
    forall k,
      assoc k r
      = match assoc k (rev (own_props data)) with
        | Some v => Some v
        | None =>
            if String.eqb k "status" then Some (VNum (Z.of_N status)) else None
        end.
Proof.
  intros Hf Hs Hc Hp. unfold makeRequest, request. rewrite Hf, Hs, Hc, Hp.
  cbn [negb]. eexists. split; [reflexivity|].
  intros k.
  change (("status", VNum (Z.of_N status)) :: own_props data)
    with ([("status", VNum (Z.of_N status))] ++ own_props data).
  unfold assign. rewrite fold_left_app.
  change (assoc k (assign (own_props data) [("status", VNum (Z.of_N status))])
          = match assoc k (rev (own_props data)) with
            | Some v => Some v
            | None =>
                if String.eqb k "status" then Some (VNum (Z.of_N status)) else None
            end).
  rewrite assoc_assign. reflexivity.
Qed.

End Responses.

Lemma failed_response_keeps_status_witness :
  exists body,
    VObj [("status", VNum 404);
          ("error", VObj [("error", VStr "no such schema")])]
    = VObj [("status", VNum (Z.of_N 404)); ("error", body)].
Proof.
  apply (failed_response_keeps_status Cases.not_found
           "https://node-a" "schemas" "jwt" "POST" (VObj [])
           404 (Some "application/json")
           ("{" +:+ (Reference.quoted "error" +:+ ":"
                     +:+ Reference.quoted "no such schema") +:+ "}"));
    reflexivity.
Defined.

Lemma failed_response_json_body_witness :
  makeRequest Cases.not_found "https://node-a" "schemas" "jwt" (VObj []) "POST"
  = Ok (VObj [("status", VNum (Z.of_N 404));
              ("error", VObj [("error", VStr "no such schema")])]).
Proof.
  apply (failed_response_json_body Cases.not_found
           "https://node-a" "schemas" "jwt" "POST" (VObj [])
           404 (Some "application/json")
           (Reference.quoted "error" +:+ ":"
            +:+ Reference.quoted "no such schema"));
    reflexivity.
Defined.

Lemma failed_response_plain_body_witness :
  makeRequest Cases.gateway_down "https://node-a" "data/create" "jwt"
    (VObj []) "POST"
  = Ok (VObj [("status", VNum (Z.of_N 502));
              ("error",
               VObj [("errors",
                      VArr [VErr ("HTTP error! status: " +:+ pretty 502%N
                                  +:+ ", body: " +:+ "Bad Gateway")])])]).
Proof.
  apply (failed_response_plain_body Cases.gateway_down
           "https://node-a" "data/create" "jwt" "POST" (VObj [])
           502 (Some "text/html") "Bad Gateway");
    reflexivity.
Defined.

Lemma network_error_null_status_witness :
  makeRequest Cases.unreachable "https://node-a" "data/read" "jwt"
    (VObj []) "POST"
  = Ok (VObj [("status", VNull);
              ("error",
               VObj [("errors", VArr [VErr "connect ETIMEDOUT"])])]).
Proof.
  apply (network_error_null_status Cases.unreachable
           "https://node-a" "data/read" "jwt" "POST" (VObj [])
           "connect ETIMEDOUT");
    reflexivity.
Defined.

Lemma json_response_status_overridden_witness :
  exists r,
    makeRequest Cases.status_in_body "https://node-a" "data/create" "jwt"
      (VObj []) "POST" = Ok (VObj r) /\
    forall k,
      assoc k r
      = match assoc k (rev (own_props (VObj [("status", VStr "stored")]))) with
        | Some v => Some v
        | None => if String.eqb k "status" then Some (VNum (Z.of_N 200)) else None
        end.
Proof.
  apply (json_response_status_overridden Cases.status_in_body
           "https://node-a" "data/create" "jwt" "POST" (VObj [])
           200 "application/json"
           ("{" +:+ Reference.quoted "status" +:+ ":"
            +:+ Reference.quoted "stored" +:+ "}"));
    reflexivity.
Defined.

(** ** The walk of encryptDeep, entry by entry *)

Section WalkCount.
Context (lib : Nilql) (key : value).

Lemma encryptProps_same (step : value -> nat -> result (value * nat))
    (fs : list (string * value)) :
  Forall (fun kv => String.eqb (fst kv) "__proto__" = false /\
                    forall t, step (snd kv) t = Ok (snd kv, t)) fs ->
  forall acc tick,
    NoDup (map fst acc ++ map fst fs) ->
    encryptProps step fs acc tick = Ok (acc ++ fs, tick).
Proof.
  induction 1 as [|[k x] fs [Hk Hx] _ IH]; intros acc tick Hnd; simpl.
  - now rewrite app_nil_r.
  - simpl in Hx, Hk. rewrite Hx. simpl. unfold obj_put. rewrite Hk.
    assert (k ∉ map fst acc) as Hfresh.
    { simpl in Hnd. apply NoDup_app in Hnd as (_ & Hdisj & _).
      intros Hin. apply (Hdisj k Hin). apply elem_of_cons. now left. }
    rewrite (obj_set_fresh k x acc Hfresh), IH.
    + now rewrite <- app_assoc.
    + rewrite map_app. simpl. rewrite <- app_assoc. exact Hnd.
Qed.

Lemma encryptElems_same (step : value -> nat -> result (value * nat))
    (xs : list value) :
  Forall (fun x => forall t, step x t = Ok (x, t)) xs ->
  forall acc tick,
    encryptElems step (length acc) xs acc tick = Ok (acc ++ xs, tick).
Proof.
  induction 1 as [|x xs Hx _ IH]; intros acc tick; simpl.
  - now rewrite app_nil_r.
  - rewrite Hx. simpl. rewrite arr_set_end.
    replace (S (length acc)) with (length (acc ++ [x]))
      by (rewrite length_app; simpl; lia).
    rewrite IH. now rewrite <- app_assoc.
Qed.

Lemma encryptEntry_same (v : value) :
  (Spec.well_formed v = true -> Spec.plainKeys v = true ->
   Vocabulary.unmarked v = true ->
   forall t, encryptDeep lib key v t = Ok (v, t)) ->
  Spec.well_formed v = true -> Spec.plainKeys v = true ->
  has_key "%allot" v = false -> Vocabulary.unmarked v = true ->
  forall t, encryptEntry lib (encryptDeep lib key) key v t = Ok (v, t).
Proof.
  intros IH Hwf Hp Hm Hu t. unfold encryptEntry. rewrite Hm.
  destruct (is_object v); [now apply IH|reflexivity].
Qed.

(** X6: A document with each key once per object, in which no entry is
    named [__proto__] and no value of an entry carries the marker:
    [encryptDeep] returns an equal copy of the document, draws no
    randomness and cannot fail, whatever the library. *)
Theorem encryptDeep_unmarked_unchanged (v : value) (tick : nat) :
  Spec.well_formed v = true ->
  Spec.plainKeys v = true ->
  Vocabulary.unmarked v = true ->
  encryptDeep lib key v tick = Ok (v, tick).
Proof.
  revert tick.
  induction v as [| | | | |xs IH|fs IH|m] using value_induction;
    intros tick Hwf Hp Hu; try reflexivity.
  - cbn [encryptDeep]. simpl in Hwf, Hp, Hu.
    rewrite forallb_forall in Hwf. rewrite forallb_forall in Hp.
    rewrite forallb_forall in Hu.
    rewrite (encryptElems_same _ xs) with (acc := []); [reflexivity|].
    apply Forall_forall. intros x Hx t. rewrite Forall_forall in IH.
    apply list_elem_of_In in Hx.
    destruct (proj1 (andb_true_iff _ _) (Hu x Hx)) as [Hm Hux].
    apply negb_true_iff in Hm.
    apply encryptEntry_same; auto.
    intros ? ? ? ?. apply IH; auto. now apply list_elem_of_In.
  - cbn [encryptDeep]. simpl in Hwf, Hp, Hu.
    apply andb_true_iff in Hwf as [Hkeys Hwf].
    rewrite forallb_forall in Hwf. rewrite forallb_forall in Hp.
    rewrite forallb_forall in Hu.
    apply distinct_keys_spec in Hkeys.
    rewrite (encryptProps_same _ fs) with (acc := []); [reflexivity| |exact Hkeys].
    apply Forall_forall. intros kv Hkv. rewrite Forall_forall in IH.
    apply list_elem_of_In in Hkv.
    destruct (proj1 (andb_true_iff _ _) (Hu kv Hkv)) as [Hm Hux].
    destruct (proj1 (andb_true_iff _ _) (Hp kv Hkv)) as [Hk Hpx].
    apply negb_true_iff in Hm. apply negb_true_iff in Hk.
    split; [exact Hk|]. intros t.
    apply encryptEntry_same; auto.
    intros ? ? ? ?. apply IH; auto. now apply list_elem_of_In.
  - discriminate.
Qed.

Lemma encryptProps_ticks (step : value -> nat -> result (value * nat))
    (count : value -> nat) (fs : list (string * value)) :
  Forall (fun kv => forall t r, step (snd kv) t = Ok r ->
                                snd r = (t + count (snd kv))%nat) fs ->
  forall acc tick r,
    encryptProps step fs acc tick = Ok r ->
    snd r = (tick + fold_right (fun kv n => (count (snd kv) + n)%nat) 0%nat fs)%nat.
Proof.
  induction 1 as [|[k x] fs Hx _ IH]; intros acc tick r; simpl.
  - intros H. injection H as <-. simpl. lia.
  - destruct (step x tick) as [[x' t']|e] eqn:Hstep; simpl; [|discriminate].
    intros Hrest. apply IH in Hrest. apply Hx in Hstep. simpl in Hstep. lia.
Qed.

Lemma encryptElems_ticks (step : value -> nat -> result (value * nat))
    (count : value -> nat) (xs : list value) :
  Forall (fun x => forall t r, step x t = Ok r ->
                               snd r = (t + count x)%nat) xs ->
  forall i acc tick r,
    encryptElems step i xs acc tick = Ok r ->
    snd r = (tick + fold_right (fun x n => (count x + n)%nat) 0%nat xs)%nat.
Proof.
  induction 1 as [|x xs Hx _ IH]; intros i acc tick r; simpl.
  - intros H. injection H as <-. simpl. lia.
  - destruct (step x tick) as [[x' t']|e] eqn:Hstep; simpl; [|discriminate].
    intros Hrest. apply IH in Hrest. apply Hx in Hstep. simpl in Hstep. lia.
Qed.

Lemma encryptEntry_ticks (v : value) :
  (forall t r, encryptDeep lib key v t = Ok r ->
               snd r = (t + Vocabulary.markedEntries v)%nat) ->
  forall t r,
    encryptEntry lib (encryptDeep lib key) key v t = Ok r ->
    snd r = (t + (if has_key "%allot" v then 1
                  else Vocabulary.markedEntries v))%nat.
Proof.
  intros IH t r. unfold encryptEntry.
  destruct (is_object v) eqn:Hobj.
  - destruct (has_key "%allot" v).
    + destruct (nilql_encrypt lib key _ t); simpl; [|discriminate].
      intros H. injection H as <-. simpl. lia.
    + apply IH.
  - assert (has_key "%allot" v = false) as -> by now destruct v.
    assert (Vocabulary.markedEntries v = 0%nat) as -> by now destruct v.
    intros H. injection H as <-. simpl. lia.
Qed.

(** X7: When [encryptDeep] returns, the random source has advanced by one
    draw for each value of an entry that carries the marker and is reached
    by the walk: each of them is encrypted once, and nothing else is. *)
Theorem encryptDeep_one_draw_per_marked_entry (v : value) (tick : nat)
    (r : value * nat) :
  encryptDeep lib key v tick = Ok r ->
  snd r = (tick + Vocabulary.markedEntries v)%nat.
Proof.
  revert tick r.
  induction v as [| | | | |xs IH|fs IH|m] using value_induction;
    intros tick r; simpl;
    try (intros H; injection H as <-; simpl; lia).
  - destruct (encryptElems _ 0 xs [] tick) as [r'|e] eqn:Hloop; simpl;
      [|discriminate].
    intros H. injection H as <-. simpl.
    apply (encryptElems_ticks _
             (fun x => if has_key "%allot" x then 1%nat
                       else Vocabulary.markedEntries x)) in Hloop; [exact Hloop|].
    apply Forall_forall. intros x Hx. rewrite Forall_forall in IH.
    apply encryptEntry_ticks. now apply IH.
  - destruct (encryptProps _ fs [] tick) as [r'|e] eqn:Hloop; simpl;
      [|discriminate].
    intros H. injection H as <-. simpl.
    apply (encryptProps_ticks _
             (fun x => if has_key "%allot" x then 1%nat
                       else Vocabulary.markedEntries x)) in Hloop; [exact Hloop|].
    apply Forall_forall. intros kv Hkv. rewrite Forall_forall in IH.
    apply encryptEntry_ticks. now apply IH.
Qed.

(** X8: The marker counts only on the value of an entry.  A document that
    has the marker itself, at its top level, around a value that is not an
    object, is walked as any object: the value comes out as it went in. *)
Theorem top_level_marker_stays_plain (fs : list (string * value))
    (x : value) (tick : nat) (r : value * nat) :
  Spec.distinct_keys fs = true ->
  assoc "%allot" fs = Some x ->
  is_object x = false ->
  encryptDeep lib key (VObj fs) tick = Ok r ->
  get (fst r) "%allot" = x.
Proof.
  intros Hkeys Hx Hleaf Hrun. apply distinct_keys_spec in Hkeys.
  destruct (encryptDeep_fields lib key fs tick r Hkeys Hrun) as (gs & -> & Hgs).
  rewrite <- (assoc_written "%allot" fs eq_refl) in Hx.
  destruct (assoc_Forall2 _ _ _ _ _ Hgs Hx) as (y & Hy & Hst).
  simpl. rewrite Hy. now apply (stored_leaf lib key).
Qed.

End WalkCount.

Lemma encryptDeep_unmarked_unchanged_witness :
  encryptDeep (Reference.sharing 3) (VObj [("salt", VNum 1)])
    Cases.nested_plain 7 = Ok (Cases.nested_plain, 7%nat).
Proof.
  apply (encryptDeep_unmarked_unchanged (Reference.sharing 3)
           (VObj [("salt", VNum 1)]) Cases.nested_plain 7); reflexivity.
Defined.

Lemma encryptDeep_one_draw_per_marked_entry_witness :
  snd (Cases.walked_feedback) = (0 + Vocabulary.markedEntries Examples.feedback)%nat.
Proof.
  apply (encryptDeep_one_draw_per_marked_entry (Reference.sharing 3)
           (VObj [("salt", VNum 1)]) Examples.feedback 0 Cases.walked_feedback).
  vm_compute. reflexivity.
Defined.

Lemma top_level_marker_stays_plain_witness :
  get (fst (VObj [("%allot", VNum 41)], 0%nat)) "%allot" = VNum 41.
Proof.
  apply (top_level_marker_stays_plain (Reference.sharing 3)
           (VObj [("salt", VNum 1)]) [("%allot", VNum 41)] (VNum 41) 0
           (VObj [("%allot", VNum 41)], 0%nat)); reflexivity.
Defined.

(** ** init *)

Lemma mapM_throws {A B : Type} (f : A -> result B) (l : list A) (e : value) :
  mapM f l = Throw e -> exists a, In a l /\ f a = Throw e.
Proof.
  induction l as [|a l IH]; simpl; [discriminate|].
  destruct (f a) as [b|e'] eqn:Hf; simpl.
  - destruct (mapM f l) as [bs|e'']; simpl; [discriminate|].
    intros H. injection H as <-. destruct IH as (a' & Hin & Ha'); eauto.
  - intros H. injection H as <-. eauto.
Qed.

Lemma mapM_some_throws {A B : Type} (f : A -> result B) (l : list A) (a : A)
    (e : value) :
  In a l -> f a = Throw e -> exists e', mapM f l = Throw e'.
Proof.
  induction l as [|a' l IH]; simpl; [contradiction|].
  intros [->|Hin] Hf.
  - rewrite Hf. simpl. eauto.
  - destruct (f a'); simpl; [|eauto].
    destruct (IH Hin Hf) as (e' & ->). simpl. eauto.
Qed.

Section Init.
Context (w : World) (lib : Nilql).

Lemma init_with_key (e : NilQLWrapper.t) (tick : nat) :
  is_null (NilQLWrapper.secretKey e) = false ->
  NilQLWrapper.init lib e tick = (Ok tt, e).
Proof.
  intros Hk. unfold NilQLWrapper.init. rewrite Hk, andb_false_r.
  cbv zeta iota. now rewrite Hk.
Qed.

(** X9: [init] of the vault fails only where signing a token fails or where a
    key generator of the library fails: the engine it builds has one of
    the two supported key types, so the unsupported-type branch is never
    taken. *)
Theorem vault_init_failures (v : SecretVaultWrapper.t) (tick : nat)
    (err : value) :
  fst (SecretVaultWrapper.init w lib v tick) = Throw err ->
  (exists n m, In n (nodes v) /\ createJWT w (did n) = inr m /\ err = VErr m) \/
  (exists c o s t, SecretKey_generate lib c o s t = Throw err) \/
  (exists c o t, ClusterKey_generate lib c o t = Throw err).
Proof.
  unfold SecretVaultWrapper.init.
  destruct (mapM _ (nodes v)) as [jwts|e] eqn:Hm.
  - intros H. right.
    destruct (fst (NilQLWrapper.init lib _ tick)) as [u|e] eqn:Hinit;
      simpl in H; [discriminate|].
    injection H as <-. revert Hinit.
    unfold NilQLWrapper.init. cbn [NilQLWrapper.secretKeySeed
      NilQLWrapper.secretKey NilQLWrapper.keyType NilQLWrapper.constructor
      NilQLWrapper.cluster NilQLWrapper.operation].
    destruct (truthy (default_arg (secretKeySeed v) VNull)
              && is_null (default_arg (secretKey v) VNull)) eqn:Hseed.
    + destruct (SecretKey_generate lib _ _ (default_arg _ _) tick) as [k|e']
        eqn:Hgen; cbn.
      * destruct (is_null k); [|discriminate].
        destruct (truthy (secretKey v) || truthy (secretKeySeed v)); cbn.
        -- destruct (SecretKey_generate lib _ _ VUndef tick) eqn:Hgen';
             cbn; [discriminate|].
           intros H. injection H as <-. left. eauto.
        -- destruct (ClusterKey_generate lib _ _ tick) eqn:Hgen';
             cbn; [discriminate|].
           intros H. injection H as <-. right. eauto.
      * intros H. injection H as <-. left. eauto.
    + cbn. destruct (is_null (default_arg (secretKey v) VNull));
        [|discriminate].
      destruct (truthy (secretKey v) || truthy (secretKeySeed v)); cbn.
      * destruct (SecretKey_generate lib _ _ VUndef tick) eqn:Hgen';
          cbn; [discriminate|].
        intros H. injection H as <-. left. eauto.
      * destruct (ClusterKey_generate lib _ _ tick) eqn:Hgen';
          cbn; [discriminate|].
        intros H. injection H as <-. right. eauto.
  - simpl. intros H. injection H as <-. left.
    apply mapM_throws in Hm as (n & Hin & Hn).
    unfold generateNodeToken in Hn.
    destruct (createJWT w (did n)) as [jwt|m] eqn:Hjwt; [discriminate|].
    injection Hn as <-. eauto.
Qed.

(** X10: When the token of one node cannot be signed, [init] fails and leaves
    the vault as it was: no engine is built, although the tokens of the
    other nodes were signed. *)
Theorem vault_init_needs_every_token (v : SecretVaultWrapper.t) (tick : nat)
    (n : node) (m : string) :
  In n (nodes v) ->
  createJWT w (did n) = inr m ->
  exists m', SecretVaultWrapper.init w lib v tick = (Throw (VErr m'), v).
Proof.
  intros Hin Hjwt. unfold SecretVaultWrapper.init.
  destruct (mapM (fun n => generateNodeToken w (did n)) (nodes v))
    as [jwts|e] eqn:Hm.
  - exfalso.
    destruct (mapM_some_throws (fun n => generateNodeToken w (did n))
                (nodes v) n (VErr m) Hin) as (e' & He').
    + unfold generateNodeToken. now rewrite Hjwt.
    + congruence.
  - apply mapM_throws in Hm as (n' & _ & Hn').
    unfold generateNodeToken in Hn'.
    destruct (createJWT w (did n')); [discriminate|].
    injection Hn' as <-. eauto.
Qed.

Lemma init_supplied_key (v : SecretVaultWrapper.t) (tick : nat)
    (e : NilQLWrapper.t) :
  secretKey v <> VUndef ->
  secretKey v <> VNull ->
  fst (SecretVaultWrapper.init w lib v tick) = Ok e ->
  NilQLWrapper.secretKey e = secretKey v /\
  nilqlWrapper (snd (SecretVaultWrapper.init w lib v tick)) = Some e.
Proof.
  intros Hu Hn. unfold SecretVaultWrapper.init.
  destruct (mapM _ (nodes v)) as [jwts|err]; [|discriminate].
  rewrite init_with_key
    by (cbn; destruct (secretKey v); try reflexivity; contradiction).
  cbn. intros H. injection H as <-. split; [|reflexivity].
  cbn. destruct (secretKey v); try reflexivity; contradiction.
Qed.

(** X11: A key handed to the vault that is neither [undefined] nor [null] is
    the key of the engine that [init] returns: no generator replaces it,
    whatever the seed. *)
Theorem vault_init_keeps_supplied_key (v : SecretVaultWrapper.t) (tick : nat)
    (e : NilQLWrapper.t) :
  secretKey v <> VUndef ->
  secretKey v <> VNull ->
  fst (SecretVaultWrapper.init w lib v tick) = Ok e ->
  NilQLWrapper.secretKey e = secretKey v /\
  nilqlWrapper (snd (SecretVaultWrapper.init w lib v tick)) = Some e.
Proof. exact (init_supplied_key v tick e). Qed.

(** X12: A supplied key that is falsy without being [null] (zero, the empty
    string, [false]) passes [init], which tests the key against [null],
    and then fails every operation of the engine, which test its
    truthiness: [init] returns an engine that reports itself as not
    initialized. *)
Theorem falsy_key_passes_init_then_fails (v : SecretVaultWrapper.t)
    (tick : nat) (e : NilQLWrapper.t) (data shares : value)
    (documents : list value) (t : nat) :
  secretKey v <> VUndef ->
  secretKey v <> VNull ->
  truthy (secretKey v) = false ->
  fst (SecretVaultWrapper.init w lib v tick) = Ok e ->
  encrypt lib e data t = Throw NotInitialized /\
  decrypt lib e shares = Throw NotInitialized /\
  prepareAndAllot lib e data t = Throw NotInitialized /\
  unify lib e documents = Throw NotInitialized.
Proof.
  intros Hu Hn Hf Hinit.
  destruct (init_supplied_key v tick e Hu Hn Hinit) as [Hk _].
  unfold encrypt, decrypt, prepareAndAllot, unify.
  rewrite Hk, Hf. repeat split.
Qed.

End Init.

Lemma vault_init_failures_witness :
  (exists n m, In n (nodes Cases.fresh_vault) /\
               createJWT Examples.second_node_fails (did n) = inr m /\
               VErr "signing failed" = VErr m) \/
  (exists c o s t,
     SecretKey_generate (Reference.sharing 3) c o s t
     = Throw (VErr "signing failed")) \/
  (exists c o t,
     ClusterKey_generate (Reference.sharing 3) c o t
     = Throw (VErr "signing failed")).
Proof.
  apply (vault_init_failures Examples.second_node_fails (Reference.sharing 3)
           Cases.fresh_vault 0 (VErr "signing failed")).
  reflexivity.
Defined.

Lemma vault_init_needs_every_token_witness :
  exists m',
    SecretVaultWrapper.init Examples.second_node_fails (Reference.sharing 3)
      Cases.fresh_vault 0 = (Throw (VErr m'), Cases.fresh_vault).
Proof.
  apply (vault_init_needs_every_token Examples.second_node_fails
           (Reference.sharing 3) Cases.fresh_vault 0 Examples.node_b
           "signing failed").
  - right. left. reflexivity.
  - reflexivity.
Defined.

Lemma vault_init_keeps_supplied_key_witness :
  NilQLWrapper.secretKey Cases.engine_of_keyed_vault
  = secretKey Cases.keyed_vault /\
  nilqlWrapper (snd (SecretVaultWrapper.init Examples.quiet
                       (Reference.sharing 3) Cases.keyed_vault 0))
  = Some Cases.engine_of_keyed_vault.
Proof.
  apply (vault_init_keeps_supplied_key Examples.quiet (Reference.sharing 3)
           Cases.keyed_vault 0 Cases.engine_of_keyed_vault);
    [discriminate|discriminate|reflexivity].
Defined.

Lemma falsy_key_passes_init_then_fails_witness :
  encrypt (Reference.sharing 3) Cases.engine_of_zero_key_vault (VNum 41) 0
  = Throw NotInitialized /\
  decrypt (Reference.sharing 3) Cases.engine_of_zero_key_vault (VArr [])
  = Throw NotInitialized /\
  prepareAndAllot (Reference.sharing 3) Cases.engine_of_zero_key_vault
    Examples.feedback 0 = Throw NotInitialized /\
  unify (Reference.sharing 3) Cases.engine_of_zero_key_vault []
  = Throw NotInitialized.
Proof.
  apply (falsy_key_passes_init_then_fails Examples.quiet (Reference.sharing 3)
           Cases.zero_key_vault 0 Cases.engine_of_zero_key_vault
           (VNum 41) (VArr []) [] 0);
    [discriminate|discriminate|reflexivity|reflexivity].
Defined.

(** ** Writes and reads at the edges *)

Lemma idData_nonempty (w : World) (record : value) (data ids : list value)
    (tick t : nat) :
  idData w (record :: data) tick = Ok (ids, t) -> exists i ids', ids = i :: ids'.
Proof.
  simpl. destruct (withId w record tick) as [r|e]; simpl; [|discriminate].
  destruct (idData w data (snd r)) as [rs|e]; simpl; [|discriminate].
  intros H. injection H as <- _. eauto.
Qed.

Section Edges.
Context (w : World) (lib : Nilql).

(** X13: A vault on which [init] has not been called writes an empty batch,
    and still contacts every node with an empty [data]; a batch with a
    record fails before any node is contacted. *)
Theorem write_without_engine (v : SecretVaultWrapper.t) (tick : nat) :
  nilqlWrapper v = None ->
  writeToNodes w lib v [] tick
  = Ok (map (fun n =>
               outcome [("schemaId", schemaId v)]
                 (requestNode w n "data/create"
                    (VObj [("schema", schemaId v); ("data", VArr [])])))
          (nodes v)) /\
  forall data, data <> [] -> exists e, writeToNodes w lib v data tick = Throw e.
Proof.
  intros Hnone. split.
  - unfold writeToNodes, writeLegs, writeDataToNode, writePayload, allSettled.
    simpl. f_equal. apply list_eq. intros i.
    rewrite !list_lookup_fmap, list_lookup_imap.
    destruct (nodes v !! i); reflexivity.
  - intros [|record data] Hne; [contradiction|].
    unfold writeToNodes.
    destruct (idData w (record :: data) tick) as [[ids t]|e] eqn:Hids; simpl;
      [|eauto].
    destruct (idData_nonempty w record data ids tick t Hids) as (i & ids' & ->).
    unfold allotData. simpl. unfold nilql. rewrite Hnone. simpl. eauto.
Qed.

Lemma recordGroups_none (results : list value) (acc : list group) :
  Forall (fun out => Spec.recordsOf out = Ok []) results ->
  recordGroups results acc = Ok acc.
Proof.
  induction 1 as [|out results Hout _ IH]; simpl; [reflexivity|].
  rewrite groupNode_recordsOf, Hout. simpl. exact IH.
Qed.

Lemma readFromNodes_no_answers (v : SecretVaultWrapper.t) (filter : value) :
  (forall n, In n (nodes v) ->
     (exists error, generateNodeToken w (did n) = Throw error) \/
     (exists jwt error,
        generateNodeToken w (did n) = Ok jwt /\
        request w (url n) "data/read" jwt
          (VObj [("schema", schemaId v);
                 ("filter", default_arg filter (VObj []))]) "POST"
        = Throw error)) ->
  readFromNodes w lib v filter = Ok [].
Proof.
  intros Hfail. unfold readFromNodes.
  rewrite recordGroups_none; [reflexivity|].
  unfold readResults, readLegs, allSettled, readDataFromNode.
  rewrite map_map. apply Forall_forall. intros out Hout.
  apply list_elem_of_In, in_map_iff in Hout as (n & <- & Hn).
  apply failed_node_no_records. now apply Hfail.
Qed.

(** X14: When every node fails, by its token or by its request, a read returns
    the empty list: the failures are not reported, and the engine is not
    consulted. *)
Theorem read_without_answers (v : SecretVaultWrapper.t) (filter : value) :
  (forall n, In n (nodes v) ->
     (exists error, generateNodeToken w (did n) = Throw error) \/
     (exists jwt error,
        generateNodeToken w (did n) = Ok jwt /\
        request w (url n) "data/read" jwt
          (VObj [("schema", schemaId v);
                 ("filter", default_arg filter (VObj []))]) "POST"
        = Throw error)) ->
  readFromNodes w lib v filter = Ok [].
Proof. exact (readFromNodes_no_answers v filter). Qed.

Lemma someSameId_head (record h : value) (t : list value) :
  Spec.nullish record = false -> Spec.nullish h = false ->
  strict_eq (get h "_id") (get record "_id") = true ->
  someSameId record (h :: t) = Ok true.
Proof.
  intros Hr Hh Heq. simpl.
  rewrite (prop_defined h "_id" Hh), (prop_defined record "_id" Hr). simpl.
  now rewrite Heq.
Qed.

Lemma placeAll_one_group (id h : value) (t records : list value) :
  strict_eq id id = true ->
  Spec.nullish h = false -> get h "_id" = id ->
  Forall (fun r => Spec.nullish r = false /\ get r "_id" = id) records ->
  forall ri,
    placeAll records [ {| shares := h :: t; recordIndex := ri |} ]
    = Ok [ {| shares := (h :: t) ++ records; recordIndex := ri |} ].
Proof.
  intros Hid Hh Hhid Hall. revert t.
  induction Hall as [|r records [Hr Hrid] _ IH]; intros t ri; simpl.
  - now rewrite app_nil_r.
  - rewrite (prop_defined h "_id" Hh), (prop_defined r "_id" Hr). simpl.
    rewrite Hhid, Hrid, Hid. simpl.
    rewrite (IH (t ++ [r]) ri). simpl. now rewrite <- app_assoc.
Qed.

(** X15: Records that have the same primitive under [_id] end in one group, in
    the order of the stream.  A record without [_id] has [undefined]
    there: records without identifiers are all put in one group and
    unified together. *)
Theorem records_with_one_id_form_one_group (id r : value)
    (records : list value) :
  strict_eq id id = true ->
  Forall (fun x => Spec.nullish x = false /\ get x "_id" = id) (r :: records) ->
  placeAll (r :: records) []
  = Ok [ {| shares := r :: records; recordIndex := id |} ].
Proof.
  intros Hid Hall. apply Forall_cons in Hall as [[Hr Hrid] Hall].
  simpl. rewrite (prop_defined r "_id" Hr). simpl. rewrite Hrid.
  apply (placeAll_one_group id r [] records Hid Hr Hrid Hall).
Qed.

Lemma strict_eq_object (x y : value) :
  is_object y = true -> strict_eq x y = false.
Proof. destruct x, y; simpl; try discriminate; reflexivity. Qed.

Lemma place_apart (record : value) (acc : list group) :
  Spec.nullish record = false ->
  is_object (get record "_id") = true ->
  Spec.sound acc ->
  place record acc
  = Ok (acc ++ [ {| shares := [record]; recordIndex := get record "_id" |} ]).
Proof.
  intros Hr Hobj. induction 1 as [|g acc Hg _ IH]; simpl.
  - now rewrite (prop_defined record "_id" Hr).
  - rewrite (someSameId_defined record (shares g) Hr Hg). simpl.
    assert (existsb (Spec.sameId record) (shares g) = false) as ->.
    { apply not_true_is_false. intros (s & _ & Hs)%existsb_exists.
      unfold Spec.sameId in Hs. now rewrite strict_eq_object in Hs. }
    now rewrite IH.
Qed.

Lemma placeAll_apart (records : list value) (acc : list group) :
  Forall (fun x => Spec.nullish x = false /\ is_object (get x "_id") = true)
    records ->
  Spec.sound acc ->
  placeAll records acc
  = Ok (acc ++ map (fun x => {| shares := [x]; recordIndex := get x "_id" |})
                records).
Proof.
  intros Hall. revert acc.
  induction Hall as [|r records [Hr Hobj] _ IH]; intros acc Hacc; simpl.
  - now rewrite app_nil_r.
  - rewrite (place_apart r acc Hr Hobj Hacc). simpl.
    rewrite IH.
    + now rewrite <- app_assoc.
    + apply Forall_app. split; [exact Hacc|]. repeat constructor. exact Hr.
Qed.

(** X16: Records whose [_id] is an object or an array are never put together,
    not even the shares of one record that the nodes return with equal
    identifiers: [===] compares objects by identity, so every record
    starts a group of its own. *)
Theorem records_with_object_ids_stay_apart (records : list value) :
  Forall (fun x => Spec.nullish x = false /\ is_object (get x "_id") = true)
    records ->
  placeAll records []
  = Ok (map (fun x => {| shares := [x]; recordIndex := get x "_id" |}) records).
Proof.
  intros Hall. apply (placeAll_apart records [] Hall). constructor.
Qed.

End Edges.

Lemma write_without_engine_witness :
  writeToNodes Examples.quiet (Reference.sharing 3) Cases.fresh_vault [] 0
  = Ok (map (fun n =>
               outcome [("schemaId", schemaId Cases.fresh_vault)]
                 (requestNode Examples.quiet n "data/create"
                    (VObj [("schema", schemaId Cases.fresh_vault);
                           ("data", VArr [])])))
          (nodes Cases.fresh_vault)) /\
  forall data, data <> [] ->
    exists e, writeToNodes Examples.quiet (Reference.sharing 3)
                Cases.fresh_vault data 0 = Throw e.
Proof.
  apply (write_without_engine Examples.quiet (Reference.sharing 3)
           Cases.fresh_vault 0).
  reflexivity.
Defined.

Lemma read_without_answers_witness :
  readFromNodes Cases.unreachable (Reference.sharing 3) Examples.vault VUndef
  = Ok [].
Proof.
  apply (read_without_answers Cases.unreachable (Reference.sharing 3)
           Examples.vault VUndef).
  intros n Hn. right. exists ("jwt." +:+ did n), (VErr "connect ETIMEDOUT").
  split; reflexivity.
Defined.

Lemma records_with_one_id_form_one_group_witness :
  placeAll [Examples.plain_record; Cases.other_record] []
  = Ok [ {| shares := [Examples.plain_record; Cases.other_record];
            recordIndex := VUndef |} ].
Proof.
  apply (records_with_one_id_form_one_group VUndef Examples.plain_record
           [Cases.other_record]); [reflexivity|].
  repeat constructor.
Defined.

Lemma records_with_object_ids_stay_apart_witness :
  placeAll [Cases.share_with_object_id 18; Cases.share_with_object_id 23] []
  = Ok (map (fun x => {| shares := [x]; recordIndex := get x "_id" |})
          [Cases.share_with_object_id 18; Cases.share_with_object_id 23]).
Proof.
  apply (records_with_object_ids_stay_apart
           [Cases.share_with_object_id 18; Cases.share_with_object_id 23]).
  repeat constructor.
Defined.

(** ** The schema operations *)

Import SecretVaultSchemas.

Section SchemaOps.
Context (w : World) (lib : Nilql).

Lemma allotLoop_engine (v v' : SecretVaultWrapper.t) (data : list value) :
  nilqlWrapper v = nilqlWrapper v' ->
  forall acc tick, allotLoop lib v data acc tick = allotLoop lib v' data acc tick.
Proof.
  intros He. induction data as [|item data IH]; intros acc tick; simpl.
  - reflexivity.
  - unfold nilql. rewrite He.
    destruct (nilqlWrapper v') as [e|]; simpl; [|reflexivity].
    destruct (prepareAndAllot lib e item tick) as [r|err]; simpl;
      [apply IH|reflexivity].
Qed.

(** X17: The [operation] handed to [setSchemaId] has no effect on the writes,
    updates and reads that follow: they use the engine that [init] built,
    which [setSchemaId] leaves as it is. *)
Theorem setSchemaId_operation_unused (v : SecretVaultWrapper.t)
    (schemaId : value) (operation operation' : option string)
    (data : list value) (recordUpdate filter : value) (tick : nat) :
  writeToNodes w lib (setSchemaId v schemaId operation) data tick
  = writeToNodes w lib (setSchemaId v schemaId operation') data tick /\
  updateDataToNodes w lib (setSchemaId v schemaId operation) recordUpdate
    filter tick
  = updateDataToNodes w lib (setSchemaId v schemaId operation') recordUpdate
      filter tick /\
  readFromNodes w lib (setSchemaId v schemaId operation) filter
  = readFromNodes w lib (setSchemaId v schemaId operation') filter.
Proof.
  split; [|split].
  - unfold writeToNodes, allotData.
    destruct (idData w data tick) as [ids|e]; simpl; [|reflexivity].
    rewrite (allotLoop_engine (setSchemaId v schemaId operation)
               (setSchemaId v schemaId operation')) by reflexivity.
    reflexivity.
  - unfold updateDataToNodes, allotData.
    rewrite (allotLoop_engine (setSchemaId v schemaId operation)
               (setSchemaId v schemaId operation')) by reflexivity.
    reflexivity.
  - reflexivity.
Qed.

(** X18: When [generateTokensForAllNodes] returns, it returns one entry per
    node, in the order of the nodes, with the URL of the node and the
    token signed for its identity. *)
Theorem generateTokensForAllNodes_entries (v : SecretVaultWrapper.t)
    (tokens : list value) :
  generateTokensForAllNodes w v = Ok tokens ->
  length tokens = length (nodes v) /\
  forall i n, nodes v !! i = Some n ->
    exists jwt,
      createJWT w (did n) = inl jwt /\
      tokens !! i = Some (VObj [("node", VStr (url n)); ("token", VStr jwt)]).
Proof.
  intros H. apply mapM_lookup in H as [Hlen Hlk]. split; [exact Hlen|].
  intros i n Hn. destruct (Hlk i n Hn) as (b & Hb & Hf).
  unfold generateNodeToken in Hf.
  destruct (createJWT w (did n)) as [jwt|m]; simpl in Hf; [|discriminate].
  injection Hf as <-. eauto.
Qed.

Lemma getSchemasLoop_returns (ns : list node) (results : list value) :
  (exists outs, getSchemasLoop w ns results = Ok outs) <->
  Forall (fun n => exists jwt, createJWT w (did n) = inl jwt) ns.
Proof.
  revert results. induction ns as [|n ns IH]; intros results; simpl.
  - split; [constructor|eauto].
  - unfold generateNodeToken.
    destruct (createJWT w (did n)) as [jwt|m] eqn:Hjwt; simpl.
    + rewrite IH. split.
      * intros H. apply Forall_cons. eauto.
      * intros H. now apply Forall_cons in H as [_ H].
    + split.
      * intros [outs H]. discriminate.
      * intros H. apply Forall_cons in H as [[jwt H] _]. congruence.
Qed.

(** X19: [getSchemas] returns exactly when the token of every node can be
    signed.  The token is generated outside the [try]: one node whose
    token fails makes the whole call fail, and what the nodes before it
    answered is lost. *)
Theorem getSchemas_returns (v : SecretVaultWrapper.t) :
  (exists outs, getSchemas w v = Ok outs) <->
  Forall (fun n => exists jwt, createJWT w (did n) = inl jwt) (nodes v).
Proof. apply getSchemasLoop_returns. Qed.

Lemma getSchemasLoop_entries (ns : list node) (results outs : list value) :
  getSchemasLoop w ns results = Ok outs ->
  exists entries,
    outs = results ++ entries /\
    Forall2 (fun n out =>
               exists jwt, createJWT w (did n) = inl jwt /\
                           out = schemasOfNode w n jwt) ns entries.
Proof.
  revert results. induction ns as [|n ns IH]; intros results; simpl.
  - intros H. injection H as <-. exists []. split; [now rewrite app_nil_r|constructor].
  - unfold generateNodeToken.
    destruct (createJWT w (did n)) as [jwt|m] eqn:Hjwt; simpl; [|discriminate].
    intros H. apply IH in H as (entries & -> & Hall).
    exists (schemasOfNode w n jwt :: entries). split.
    + now rewrite <- app_assoc.
    + constructor; eauto.
Qed.

(** X20: When [getSchemas] returns, it returns one entry per node, in the
    order of the nodes.  The entry of a node holds what [makeRequest]
    returned for a GET of [schemas], with the node under [node], or the
    error that [makeRequest] threw, with the node. *)
Theorem getSchemas_entries (v : SecretVaultWrapper.t) (outs : list value) :
  getSchemas w v = Ok outs ->
  length outs = length (nodes v) /\
  forall i n, nodes v !! i = Some n ->
    exists jwt out,
      createJWT w (did n) = inl jwt /\
      outs !! i = Some out /\
      get out "node" = node_value n /\
      match makeRequest w (url n) "schemas" jwt (VObj []) "GET" with
      | Ok result =>
          out = VObj (assign (own_props result ++ [("node", node_value n)]) [])
      | Throw error => out = VObj [("error", error); ("node", node_value n)]
      end.
Proof.
  intros H. apply getSchemasLoop_entries in H as (entries & -> & Hall).
  simpl. split; [symmetry; exact (Forall2_length _ _ _ Hall)|].
  intros i n Hn.
  destruct (Forall2_lookup_l _ _ _ _ _ Hall Hn) as (out & Hout & jwt & Hjwt & ->).
  exists jwt, (schemasOfNode w n jwt). repeat split; auto.
  - unfold schemasOfNode.
    destruct (makeRequest w (url n) "schemas" jwt (VObj []) "GET"); simpl.
    + now rewrite assoc_assign_last.
    + reflexivity.
  - unfold schemasOfNode.
    destruct (makeRequest w (url n) "schemas" jwt (VObj []) "GET"); reflexivity.
Qed.

Lemma outcome_of_leg_with (method : string) (n : node) (endpoint : string)
    (payload : value) (extra : list (string * value)) :
  (forall p, In p extra -> fst p <> "node") ->
  let out := outcome extra (requestNodeWith w method n endpoint payload) in
  get out "node" = node_value n /\
  match tryNodeWith w method n endpoint payload with
  | Ok result =>
      out = VObj (assign (own_props result ++ ("node", node_value n) :: extra) [])
  | Throw error => out = VObj [("error", error); ("node", node_value n)]
  end.
Proof.
  intros Hextra. unfold requestNodeWith.
  destruct (tryNodeWith w method n endpoint payload) as [result|error]; simpl.
  - split; [|reflexivity]. now rewrite assoc_assign_last.
  - split; reflexivity.
Qed.

Lemma fansOut_legs_with (method : string) (ns : list node) (endpoint : string)
    (payload : value) (extra : list (string * value)) :
  (forall p, In p extra -> fst p <> "node") ->
  let legs := map (fun n => requestNodeWith w method n endpoint payload) ns in
  Spec.fansOut ns (fun _ n => tryNodeWith w method n endpoint payload) extra
    legs (map (outcome extra) (allSettled legs)).
Proof.
  intros Hextra legs. unfold Spec.fansOut.
  assert (length legs = length ns) as Hlen by apply length_map.
  split; [|split].
  - intros order Hperm. apply allSettled_any_order. now rewrite Hlen.
  - unfold allSettled. now rewrite length_map.
  - intros i n Hi.
    exists (outcome extra (requestNodeWith w method n endpoint payload)).
    split.
    + unfold allSettled, legs. rewrite !list_lookup_fmap, Hi. reflexivity.
    + apply outcome_of_leg_with. exact Hextra.
Qed.

Lemma tryNodeWith_POST (n : node) (endpoint : string) (payload : value) :
  tryNodeWith w "POST" n endpoint payload = tryNode w n endpoint payload.
Proof. reflexivity. Qed.

(** X21: [createSchema] settles the identifier once, before the fan-out: the
    one handed in when it is truthy, a generated one otherwise.  Every
    node is sent that identifier, there is one outcome per node in the
    order of the nodes, and the outcome of a node that answered has the
    identifier under [schemaId] and the name under [name], whatever the
    answer holds under these keys. *)
Theorem createSchema_one_identifier (v : SecretVaultWrapper.t)
    (schema schemaName schemaId : value) (tick : nat) :
  let id := if truthy schemaId then schemaId else VStr (uuidv4 w tick) in
  let payload := VObj [("_id", id); ("name", schemaName); ("schema", schema)] in
  let outs := fst (createSchema w v schema schemaName schemaId tick) in
  snd (createSchema w v schema schemaName schemaId tick)
  = (if truthy schemaId then tick else S tick) /\
  Spec.fansOut (nodes v) (fun _ n => tryNode w n "schemas" payload)
    [("schemaId", id); ("name", schemaName)]
    (map (fun n => requestNode w n "schemas" payload) (nodes v)) outs /\
  forall i n result,
    nodes v !! i = Some n ->
    tryNode w n "schemas" payload = Ok result ->
    exists out,
      outs !! i = Some out /\
      get out "schemaId" = id /\ get out "name" = schemaName.
Proof.
  intros id payload outs.
  assert (schemaIdOrNew w schemaId tick
          = (id, if truthy schemaId then tick else S tick)) as Hid.
  { unfold schemaIdOrNew, id.
    destruct schemaId as [| |[|]|z|s| | |]; try reflexivity.
    - simpl. destruct (Z.eqb z 0); reflexivity.
    - simpl. destruct (String.eqb s EmptyString); reflexivity. }
  assert (outs = map (outcome [("schemaId", id); ("name", schemaName)])
                   (allSettled (map (fun n => requestNode w n "schemas" payload)
                                  (nodes v)))) as Houts.
  { unfold outs, createSchema. rewrite Hid. reflexivity. }
  split; [|split].
  - unfold createSchema. now rewrite Hid.
  - rewrite Houts.
    rewrite <- (imap_const (fun n => requestNode w n "schemas" payload)).
    apply (fansOut_legs w (nodes v) "schemas" (fun _ => payload)).
    intros p [<-|[<-|[]]]; discriminate.
  - intros i n result Hn Htry. rewrite Houts.
    unfold allSettled. rewrite !list_lookup_fmap, Hn. simpl.
    eexists. split; [reflexivity|].
    unfold requestNode. rewrite Htry. simpl. split.
    + change (own_props result
              ++ [("node", node_value n); ("schemaId", id); ("name", schemaName)])
        with (own_props result
              ++ [("node", node_value n)]
              ++ ("schemaId", id) :: [("name", schemaName)]).
      rewrite app_assoc.
      rewrite assoc_assign_last; [reflexivity|].
      intros p [<-|[]]. discriminate.
    + change (own_props result
              ++ [("node", node_value n); ("schemaId", id); ("name", schemaName)])
        with (own_props result
              ++ [("node", node_value n); ("schemaId", id)]
              ++ ("name", schemaName) :: []).
      rewrite app_assoc.
      rewrite assoc_assign_last; [reflexivity|].
      intros p [].
Qed.

(** X22: [deleteSchema] asks every node with the method DELETE and returns one
    outcome per node in the order of the nodes, whichever way the requests
    settle; the outcome of a node that answered has the identifier under
    [schemaId], the outcome of a node that failed has the error and the
    node. *)
Theorem deleteSchema_fan_out (v : SecretVaultWrapper.t) (schemaId : value) :
  Spec.fansOut (nodes v)
    (fun _ n => tryNodeWith w "DELETE" n "schemas" (VObj [("id", schemaId)]))
    [("schemaId", schemaId)]
    (map (deleteSchemaFromNode w schemaId) (nodes v))
    (deleteSchema w v schemaId).
Proof.
  apply (fansOut_legs_with "DELETE" (nodes v) "schemas" (VObj [("id", schemaId)])).
  intros p [<-|[]]. discriminate.
Qed.

End SchemaOps.

Lemma generateTokensForAllNodes_entries_witness :
  length Cases.tokens = length (nodes Cases.fresh_vault) /\
  forall i n, nodes Cases.fresh_vault !! i = Some n ->
    exists jwt,
      createJWT Examples.quiet (did n) = inl jwt /\
      Cases.tokens !! i
      = Some (VObj [("node", VStr (url n)); ("token", VStr jwt)]).
Proof.
  apply (generateTokensForAllNodes_entries Examples.quiet Cases.fresh_vault
           Cases.tokens).
  reflexivity.
Defined.

Lemma getSchemas_entries_witness :
  length Cases.schemas = length (nodes Cases.fresh_vault) /\
  forall i n, nodes Cases.fresh_vault !! i = Some n ->
    exists jwt out,
      createJWT Examples.quiet (did n) = inl jwt /\
      Cases.schemas !! i = Some out /\
      get out "node" = node_value n /\
      match makeRequest Examples.quiet (url n) "schemas" jwt (VObj []) "GET" with
      | Ok result =>
          out = VObj (assign (own_props result ++ [("node", node_value n)]) [])
      | Throw error => out = VObj [("error", error); ("node", node_value n)]
      end.
Proof.
  apply (getSchemas_entries Examples.quiet Cases.fresh_vault Cases.schemas).
  reflexivity.
Defined.

(** ** The server *)

Section ServerFacts.
Context (w : World) (lib : Nilql).

Lemma created_needs_data (result : list value) (item : value) :
  In item result ->
  Spec.nullish (get item "data") = true ->
  exists e, Server.created result = Throw e.
Proof.
  induction result as [|x result IH]; simpl; [contradiction|].
  intros Hin Hdata.
  destruct (prop x "data") as [d|e] eqn:Hd; simpl; [|eauto].
  destruct (prop d "created") as [c|e] eqn:Hc; simpl; [|eauto].
  destruct Hin as [->|Hin].
  - exfalso. assert (d = get item "data") as ->
      by (destruct item; try discriminate; now injection Hd as <-).
    destruct (prop_nullish (get item "data") "created" Hdata) as [e He].
    congruence.
  - destruct (IH Hin Hdata) as [e ->]. simpl. eauto.
Qed.

(** The outcome of a node whose token or whose request failed has no
    [data], whatever the endpoint. *)
Lemma failed_leg_no_data (n : node) (endpoint : string) (payload : value)
    (extra : list (string * value)) :
  (forall p, In p extra -> fst p <> "data") ->
  (exists error, generateNodeToken w (did n) = Throw error) \/
  (exists jwt error,
     generateNodeToken w (did n) = Ok jwt /\
     request w (url n) endpoint jwt payload "POST" = Throw error) ->
  get (outcome extra (requestNode w n endpoint payload)) "data" = VUndef.
Proof.
  intros Hextra. unfold requestNode, tryNode.
  intros [[error Htok]|(jwt & error & Htok & Hreq)]; rewrite Htok; simpl.
  - reflexivity.
  - destruct (makeRequest w (url n) endpoint jwt payload "POST")
      as [r|e] eqn:Hmk; simpl; [|reflexivity].
    destruct (makeRequest_failed_request w _ _ _ _ _ _ _ Hreq Hmk)
      as (status & body & -> & _).
    rewrite assoc_assign_absent; [reflexivity|].
    intros p [<-|[<-|[<-|Hp]]]; try discriminate. now apply Hextra.
Qed.

Lemma status_of_failure (error : value) (collections : Server.cache) :
  Server.status
    (fst (match prop error "message" with
          | Ok m =>
              ({| Server.status := 500;
                  Server.json :=
                    VObj [("error",
                           VStr ("Error processing feedback: "
                                 +:+ Server.to_string m))] |},
               collections)
          | Throw _ => (Server.InternalServerError, collections)
          end)) = 500%N.
Proof. destruct (prop error "message"); reflexivity. Qed.

Lemma cache_of_failure (error : value) (collections : Server.cache) :
  snd (match prop error "message" with
       | Ok m =>
           ({| Server.status := 500;
               Server.json :=
                 VObj [("error",
                        VStr ("Error processing feedback: "
                              +:+ Server.to_string m))] |},
            collections)
       | Throw _ => (Server.InternalServerError, collections)
       end) = collections.
Proof. destruct (prop error "message"); reflexivity. Qed.


(** X24: A request without [metadata] is never stored: the private fields
    read [metadata.userAgent] without the guard that the public fields
    have, so the handler answers 500 although [siteId] and [message] are
    there. *)
Theorem postFeedback_needs_metadata (db : Server.Supabase)
    (collections : Server.cache) (body : value) (timestamp : string)
    (tick : nat) :
  truthy (get body "siteId") = true ->
  truthy (get body "message") = true ->
  Spec.nullish (get body "metadata") = true ->
  Server.status (fst (Server.postFeedback w lib db collections body
                        timestamp tick)) = 500%N.
Proof.
  intros Hs Hm Hmeta. unfold Server.postFeedback.
  destruct (prop_nullish (get body "metadata") "userAgent" Hmeta) as [e He].
  destruct body; try discriminate; rewrite Hs, Hm; cbn [negb];
    unfold Server.submit, Server.feedbackData; rewrite He;
    match goal with
    | |- context [fst (fst ?g)] => destruct (fst (fst g)) as [c|e']
    end; simpl bind; cbv iota; apply status_of_failure.
Qed.

Lemma postFeedback_cached (db : Server.Supabase) (collections : Server.cache)
    (body : value) (timestamp : string) (tick : nat)
    (c : SecretVaultWrapper.t) :
  truthy (get body "siteId") = true ->
  truthy (get body "message") = true ->
  assoc (Server.to_string (get body "siteId")) collections = Some c ->
  Server.postFeedback w lib db collections body timestamp tick
  = match Server.submit w lib (Server.Collection c) (get body "rating")
            (get body "message") (get body "email") (get body "screenshot")
            (get body "metadata") timestamp tick with
    | Ok recordIds =>
        ({| Server.status := 201;
            Server.json :=
              VObj [("success", VBool true);
                    ("message", VStr "Feedback submitted successfully");
                    ("recordIds", VArr recordIds)] |},
         collections)
    | Throw error =>
        match prop error "message" with
        | Ok m =>
            ({| Server.status := 500;
                Server.json :=
                  VObj [("error",
                         VStr ("Error processing feedback: "
                               +:+ Server.to_string m))] |},
             collections)
        | Throw _ => (Server.InternalServerError, collections)
        end
    end.
Proof.
  intros Hs Hm Hc. unfold Server.postFeedback.
  destruct body; try discriminate; rewrite Hs, Hm; cbn [negb];
    unfold Server.getSecretVaultCollection, Server.lookupOrInit, Server.lookup; rewrite Hc;
    reflexivity.
Qed.

(** X25: One node that fails is enough for the handler to answer 500, whatever
    the other nodes stored: the identifiers are read from the [data] of
    every outcome, and the outcome of a node that failed has none. *)
Theorem postFeedback_needs_every_node (db : Server.Supabase)
    (collections : Server.cache) (body : value) (timestamp : string)
    (tick : nat) (c : SecretVaultWrapper.t) (n : node) :
  truthy (get body "siteId") = true ->
  truthy (get body "message") = true ->
  assoc (Server.to_string (get body "siteId")) collections = Some c ->
  In n (nodes c) ->
  (forall payload,
     (exists error, generateNodeToken w (did n) = Throw error) \/
     (exists jwt error,
        generateNodeToken w (did n) = Ok jwt /\
        request w (url n) "data/create" jwt payload "POST" = Throw error)) ->
  Server.status (fst (Server.postFeedback w lib db collections body
                        timestamp tick)) = 500%N /\
  snd (Server.postFeedback w lib db collections body timestamp tick)
  = collections.
Proof.
  intros Hs Hm Hc Hn Hfail.
  rewrite (postFeedback_cached db collections body timestamp tick c Hs Hm Hc).
  assert (exists e,
            Server.submit w lib (Server.Collection c) (get body "rating")
              (get body "message") (get body "email") (get body "screenshot")
              (get body "metadata") timestamp tick = Throw e) as [e ->].
  { unfold Server.submit.
    destruct (Server.feedbackData _ _ _ _ _ _) as [record|e]; simpl; [|eauto].
    destruct (writeToNodes w lib c [record] tick) as [outs|e] eqn:Hw; simpl;
      [|eauto].
    unfold writeToNodes in Hw.
    destruct (idData w [record] tick) as [ids|e]; simpl in Hw; [|discriminate].
    destruct (allotData lib c (fst ids) (snd ids)) as [td|e]; simpl in Hw;
      [|discriminate].
    injection Hw as <-.
    apply list_elem_of_In, list_elem_of_lookup in Hn as [i Hi].
    destruct (created_needs_data
                (map (outcome [("schemaId", schemaId c)])
                   (allSettled (writeLegs w c (fst td))))
                (outcome [("schemaId", schemaId c)]
                   (writeDataToNode w c (fst td) n i))) as [e ->].
    - apply list_elem_of_In, list_elem_of_lookup. exists i.
      unfold allSettled, writeLegs.
      now rewrite list_lookup_fmap, list_lookup_imap, Hi.
    - unfold writeDataToNode. rewrite failed_leg_no_data; [reflexivity| |].
      + intros p [<-|[]]. discriminate.
      + apply Hfail.
    - simpl. eauto. }
  split; [apply status_of_failure|apply cache_of_failure].
Qed.

Lemma getSecretVaultCollection_hit (db : Server.Supabase)
    (collections : Server.cache) (siteId : value) (tick : nat)
    (c : SecretVaultWrapper.t) :
  assoc (Server.to_string siteId) collections = Some c ->
  Server.getSecretVaultCollection w lib db collections siteId tick
  = (Ok (Server.Collection c), collections, tick).
Proof.
  intros Hc. unfold Server.getSecretVaultCollection, Server.lookupOrInit, Server.lookup.
  now rewrite Hc.
Qed.

Lemma initialised_was_missing (db : Server.Supabase)
    (collections : Server.cache) (siteId : value) (tick : nat)
    (c : SecretVaultWrapper.t) :
  fst (Server.lookupOrInit w lib db collections siteId tick)
  = Server.Initialised c ->
  String.eqb (Server.to_string siteId) "__proto__" = false.
Proof.
  unfold Server.lookupOrInit, Server.lookup.
  destruct (assoc (Server.to_string siteId) collections); [discriminate|].
  destruct (existsb _ Server.inherited_names) eqn:E; [discriminate|].
  intros _. destruct (String.eqb_spec (Server.to_string siteId) "__proto__")
    as [Heq|]; [|reflexivity].
  rewrite Heq in E. discriminate.
Qed.

Lemma conclude_stores (siteId : value) (c : SecretVaultWrapper.t)
    (now : Server.cache) :
  String.eqb (Server.to_string siteId) "__proto__" = false ->
  assoc (Server.to_string siteId)
    (snd (Server.conclude (Server.Initialised c) siteId now)) = Some c.
Proof.
  intros Hk. simpl. unfold obj_put. rewrite Hk. apply assoc_obj_set_eq.
Qed.

(** X26: A call of [getSecretVaultCollection] that finds no collection
    for the site waits for the database and for [init], and only then
    writes to the cache, over what is there by then.  A call that begins
    after the write gets the written collection from the cache, whatever
    the database says by then.  But of two calls that both begin before
    either has written, each initialises a collection of its own and
    returns it to its caller, and the cache keeps the collection of the
    call that writes last: a site may be initialised more than once, and
    the collection that the first caller holds is then not the cached
    one. *)
Theorem collection_cache_last_write_wins (db1 db2 : Server.Supabase)
    (collections : Server.cache) (siteId : value) (tick1 tick2 : nat)
    (c1 c2 : SecretVaultWrapper.t) :
  fst (Server.lookupOrInit w lib db1 collections siteId tick1)
  = Server.Initialised c1 ->
  fst (Server.lookupOrInit w lib db2 collections siteId tick2)
  = Server.Initialised c2 ->
  let first := Server.conclude (Server.Initialised c1) siteId collections in
  let second := Server.conclude (Server.Initialised c2) siteId (snd first) in
  fst first = Ok (Server.Collection c1) /\
  fst second = Ok (Server.Collection c2) /\
  (forall db tick,
     Server.getSecretVaultCollection w lib db (snd first) siteId tick
     = (Ok (Server.Collection c1), snd first, tick)) /\
  (forall db tick,
     Server.getSecretVaultCollection w lib db (snd second) siteId tick
     = (Ok (Server.Collection c2), snd second, tick)).
Proof.
  intros H1 H2 first second.
  pose proof (initialised_was_missing db1 collections siteId tick1 c1 H1) as Hk.
  split; [reflexivity|]. split; [reflexivity|]. split.
  - intros db tick. apply getSecretVaultCollection_hit.
    now apply conclude_stores.
  - intros db tick. apply getSecretVaultCollection_hit.
    now apply conclude_stores.
Qed.

(** X27: A [siteId] that names a property which the cache object inherits is
    taken for a cached collection: the database is not asked, whether it
    knows the site or not, and the handler answers 500. *)
Theorem inherited_site_name_not_looked_up (db : Server.Supabase)
    (collections : Server.cache) (body : value) (timestamp : string)
    (tick : nat) (name : string) :
  get body "siteId" = VStr name ->
  In name Server.inherited_names ->
  assoc name collections = None ->
  truthy (get body "message") = true ->
  Server.getSecretVaultCollection w lib db collections (VStr name) tick
  = (Ok (Server.Inherited name), collections, tick) /\
  Server.status (fst (Server.postFeedback w lib db collections body
                        timestamp tick)) = 500%N.
Proof.
  intros Hsite Hname Hown Hm.
  assert (existsb (String.eqb name) Server.inherited_names = true) as Hin.
  { apply existsb_exists. exists name. split; [exact Hname|apply String.eqb_refl]. }
  assert (Server.getSecretVaultCollection w lib db collections (VStr name) tick
          = (Ok (Server.Inherited name), collections, tick)) as Hget.
  { unfold Server.getSecretVaultCollection, Server.lookupOrInit, Server.lookup.
    cbn [Server.to_string]. now rewrite Hown, Hin. }
  split; [exact Hget|].
  assert (truthy (get body "siteId") = true) as Hs.
  { rewrite Hsite. simpl.
    destruct name; [|reflexivity].
    exfalso. revert Hname. clear. simpl. intuition discriminate. }
  unfold Server.postFeedback.
  destruct body; try discriminate; rewrite Hs, Hm; cbn [negb];
    rewrite Hsite, Hget; simpl fst; simpl snd; cbn [bind];
    unfold Server.submit;
    destruct (Server.feedbackData _ _ _ _ _ _); simpl bind; cbv iota;
    apply status_of_failure.
Qed.

(** X28: The debug handler answers 200 with an empty list when the site has a
    collection and no node answers the read: that no node could be
    reached is not told apart from a site without feedback. *)
Theorem getDebugFeedback_without_answers (db : Server.Supabase)
    (collections : Server.cache) (siteId : string) (tick : nat)
    (c : SecretVaultWrapper.t) :
  truthy (snd (Server.single db (VStr siteId))) = false ->
  truthy (fst (Server.single db (VStr siteId))) = true ->
  assoc siteId collections = Some c ->
  (forall n, In n (nodes c) ->
     (exists error, generateNodeToken w (did n) = Throw error) \/
     (exists jwt error,
        generateNodeToken w (did n) = Ok jwt /\
        request w (url n) "data/read" jwt
          (VObj [("schema", schemaId c); ("filter", VObj [])]) "POST"
        = Throw error)) ->
  Server.getDebugFeedback w lib db collections siteId tick
  = ({| Server.status := 200;
        Server.json := VObj [("feedback", VArr [])] |}, collections).
Proof.
  intros He Hd Hc Hfail. unfold Server.getDebugFeedback.
  rewrite He, Hd. cbn [negb orb].
  unfold Server.getSecretVaultCollection, Server.lookupOrInit, Server.lookup. simpl Server.to_string.
  rewrite Hc. simpl fst. simpl snd. cbn [bind].
  rewrite (readFromNodes_no_answers w lib c (VObj []) Hfail). reflexivity.
Qed.

(** X29: The widget configuration takes [siteId] from the [app_id] of the row
    and [schemaId] from the [schema_id] inside its [config], over whatever
    the [config] holds under these two names; a row whose [config] is
    missing is answered with 500. *)
Theorem getWidget_configuration (db : Server.Supabase) (appId : string) :
  truthy (snd (Server.single db (VStr appId))) = false ->
  truthy (fst (Server.single db (VStr appId))) = true ->
  let data := fst (Server.single db (VStr appId)) in
  if Spec.nullish (get data "config")
  then Server.getWidget db appId = Server.InternalServerError
  else
    exists config,
      Server.getWidget db appId
      = {| Server.status := 200;
           Server.json := VObj [("config", VObj config)] |} /\
      assoc "siteId" config = Some (get data "app_id") /\
      assoc "schemaId" config = Some (get (get data "config") "schema_id").
Proof.
  intros He Hd data. unfold Server.getWidget. rewrite He, Hd. cbn [negb].
  fold data.
  destruct (Spec.nullish (get data "config")) eqn:Hn.
  - destruct (prop_nullish (get data "config") "schema_id" Hn) as [e ->].
    reflexivity.
  - rewrite (prop_defined (get data "config") "schema_id" Hn).
    eexists. split; [reflexivity|]. split.
    + change (own_props (get data "config")
              ++ [("siteId", get data "app_id");
                  ("schemaId", get (get data "config") "schema_id")])
        with (own_props (get data "config")
              ++ ("siteId", get data "app_id")
                 :: [("schemaId", get (get data "config") "schema_id")]).
      rewrite assoc_assign_last; [reflexivity|].
      intros p [<-|[]]. discriminate.
    + change (own_props (get data "config")
              ++ [("siteId", get data "app_id");
                  ("schemaId", get (get data "config") "schema_id")])
        with (own_props (get data "config")
              ++ [("siteId", get data "app_id")]
              ++ ("schemaId", get (get data "config") "schema_id") :: []).
      rewrite app_assoc. rewrite assoc_assign_last; [reflexivity|].
      intros p [].
Qed.

End ServerFacts.

Lemma postFeedback_needs_metadata_witness :
  Server.status
    (fst (Server.postFeedback Examples.quiet (Reference.sharing 3)
            Cases.db_known [] Cases.body_without_metadata Cases.noon 0))
  = 500%N.
Proof.
  apply (postFeedback_needs_metadata Examples.quiet (Reference.sharing 3)
           Cases.db_known [] Cases.body_without_metadata Cases.noon 0);
    reflexivity.
Defined.

Lemma postFeedback_needs_every_node_witness :
  Server.status
    (fst (Server.postFeedback Cases.unreachable (Reference.sharing 3)
            Cases.db_known Cases.cache_with_site Cases.body_full Cases.noon 0))
  = 500%N /\
  snd (Server.postFeedback Cases.unreachable (Reference.sharing 3)
         Cases.db_known Cases.cache_with_site Cases.body_full Cases.noon 0)
  = Cases.cache_with_site.
Proof.
  apply (postFeedback_needs_every_node Cases.unreachable (Reference.sharing 3)
           Cases.db_known Cases.cache_with_site Cases.body_full Cases.noon 0
           Cases.site_collection
           {| url := "https://nildb-nx8v.nillion.network";
              did := "did:nil:testnet:nillion1qfrl8nje3nvwh6cryj63mz2y6gsdptvn07nx8v" |});
    try reflexivity.
  - left. reflexivity.
  - intros payload. right.
    exists ("jwt." +:+ "did:nil:testnet:nillion1qfrl8nje3nvwh6cryj63mz2y6gsdptvn07nx8v"),
      (VErr "connect ETIMEDOUT").
    split; reflexivity.
Defined.

Lemma collection_cache_last_write_wins_witness :
  fst (Server.conclude (Server.Initialised Cases.site_collection)
         (VStr "site-1") [])
  = Ok (Server.Collection Cases.site_collection) /\
  fst (Server.conclude (Server.Initialised Cases.site_collection_later)
         (VStr "site-1")
         (snd (Server.conclude (Server.Initialised Cases.site_collection)
                 (VStr "site-1") [])))
  = Ok (Server.Collection Cases.site_collection_later) /\
  (forall db tick,
     Server.getSecretVaultCollection Examples.quiet (Reference.sharing 3) db
       (snd (Server.conclude (Server.Initialised Cases.site_collection)
               (VStr "site-1") [])) (VStr "site-1") tick
     = (Ok (Server.Collection Cases.site_collection),
        snd (Server.conclude (Server.Initialised Cases.site_collection)
               (VStr "site-1") []), tick)) /\
  (forall db tick,
     Server.getSecretVaultCollection Examples.quiet (Reference.sharing 3) db
       (snd (Server.conclude (Server.Initialised Cases.site_collection_later)
               (VStr "site-1")
               (snd (Server.conclude (Server.Initialised Cases.site_collection)
                       (VStr "site-1") [])))) (VStr "site-1") tick
     = (Ok (Server.Collection Cases.site_collection_later),
        snd (Server.conclude (Server.Initialised Cases.site_collection_later)
               (VStr "site-1")
               (snd (Server.conclude (Server.Initialised Cases.site_collection)
                       (VStr "site-1") []))), tick)).
Proof.
  apply (collection_cache_last_write_wins Examples.quiet (Reference.sharing 3)
           Cases.db_known Cases.db_known [] (VStr "site-1") 0 5
           Cases.site_collection Cases.site_collection_later);
    reflexivity.
Defined.

Lemma inherited_site_name_not_looked_up_witness :
  Server.getSecretVaultCollection Examples.quiet (Reference.sharing 3)
    Cases.db_known [] (VStr "constructor") 0
  = (Ok (Server.Inherited "constructor"), [], 0%nat) /\
  Server.status
    (fst (Server.postFeedback Examples.quiet (Reference.sharing 3)
            Cases.db_known [] Cases.body_constructor Cases.noon 0))
  = 500%N.
Proof.
  apply (inherited_site_name_not_looked_up Examples.quiet (Reference.sharing 3)
           Cases.db_known [] Cases.body_constructor Cases.noon 0 "constructor");
    try reflexivity.
  left. reflexivity.
Defined.

Lemma getDebugFeedback_without_answers_witness :
  Server.getDebugFeedback Cases.unreachable (Reference.sharing 3)
    Cases.db_known Cases.cache_with_site "site-1" 0
  = ({| Server.status := 200;
        Server.json := VObj [("feedback", VArr [])] |}, Cases.cache_with_site).
Proof.
  apply (getDebugFeedback_without_answers Cases.unreachable
           (Reference.sharing 3) Cases.db_known Cases.cache_with_site
           "site-1" 0 Cases.site_collection); try reflexivity.
  intros n Hn. right. exists ("jwt." +:+ did n), (VErr "connect ETIMEDOUT").
  split; reflexivity.
Defined.

Lemma getWidget_configuration_witness :
  exists config,
    Server.getWidget Cases.db_known "site-1"
    = {| Server.status := 200;
         Server.json := VObj [("config", VObj config)] |} /\
    assoc "siteId" config = Some (VStr "site-1") /\
    assoc "schemaId" config = Some (VStr "schema-1").
Proof.
  apply (getWidget_configuration Cases.db_known "site-1"); reflexivity.
Defined.

(** ** The widget: adjustColor *)

Ltac each_ascii c :=
  destruct c as [[|] [|] [|] [|] [|] [|] [|] [|]].

Lemma hex_digit_facts (c : ascii) :
  Vocabulary.isHex c = true ->
  exists d, Widget.hex_value c = Some d /\ (0 <= d < 16)%Z /\
            Widget.is_space c = false /\ Str.is_line_terminator c = false /\
            Ascii.eqb c "-" = false /\ Ascii.eqb c "+" = false /\
            Ascii.eqb c "x" = false /\ Ascii.eqb c "X" = false /\
            Ascii.eqb c "#" = false /\
            (Vocabulary.isLowerHex c = true -> Widget.hex_char d = c).
Proof.
  each_ascii c; intros H; try discriminate H; clear H;
    eexists; (split; [reflexivity|]);
    repeat split; try reflexivity; try (intros ?; discriminate);
    try (intros H; discriminate H).
Qed.

Lemma hex_char_lower (d : Z) :
  (0 <= d < 16)%Z -> Vocabulary.isLowerHex (Widget.hex_char d) = true.
Proof.
  intros H.
  assert (d = 0 \/ d = 1 \/ d = 2 \/ d = 3 \/ d = 4 \/ d = 5 \/ d = 6 \/
          d = 7 \/ d = 8 \/ d = 9 \/ d = 10 \/ d = 11 \/ d = 12 \/ d = 13 \/
          d = 14 \/ d = 15)%Z as Hd by lia.
  repeat (destruct Hd as [->|Hd]); subst; reflexivity.
Qed.

Lemma parseInt16_pair (a b : ascii) (va vb : Z) :
  Vocabulary.isHex a = true -> Vocabulary.isHex b = true ->
  Widget.hex_value a = Some va -> Widget.hex_value b = Some vb ->
  Widget.parseInt16 (String a (String b EmptyString)) = Some (16 * va + vb)%Z.
Proof.
  intros Ha Hb Hva Hvb.
  destruct (hex_digit_facts a Ha)
    as (da & Hda & _ & Hsp & _ & Hm & Hp & _ & _ & _ & _).
  destruct (hex_digit_facts b Hb)
    as (db & Hdb & _ & _ & _ & _ & _ & Hx & HX & _ & _).
  unfold Widget.parseInt16. cbn [Widget.trim_start]. rewrite Hsp, Hm, Hp.
  cbn [fst snd]. rewrite Hx, HX, andb_false_r.
  cbn [Widget.hex_digits]. rewrite Hva, Hvb. f_equal. lia.
Qed.

(** What the callback makes of a pair of digits. *)
Lemma component_pair (a b : ascii) (amount : Z) :
  Vocabulary.isHex a = true -> Vocabulary.isHex b = true ->
  exists x y,
    Widget.component (String a (String b EmptyString)) amount
    = String x (String y EmptyString) /\
    Vocabulary.isLowerHex x = true /\ Vocabulary.isLowerHex y = true /\
    (amount = 0%Z -> Vocabulary.isLowerHex a = true ->
     Vocabulary.isLowerHex b = true -> x = a /\ y = b).
Proof.
  intros Ha Hb.
  destruct (hex_digit_facts a Ha) as (va & Hva & Ra & Fa).
  destruct (hex_digit_facts b Hb) as (vb & Hvb & Rb & Fb).
  unfold Widget.component.
  rewrite (parseInt16_pair a b va vb Ha Hb Hva Hvb).
  set (n := Z.min 255 (Z.max 0 (16 * va + vb + amount))).
  assert (0 <= n <= 255)%Z as Hn by (unfold n; lia).
  unfold Widget.toString16.
  destruct (Z.ltb_spec n 16) as [Hlt|Hge].
  - exists "0"%char, (Widget.hex_char n). split; [reflexivity|].
    split; [reflexivity|]. split; [apply hex_char_lower; lia|].
    intros -> La Lb.
    assert (n = 16 * va + vb)%Z as Hv by (unfold n; lia).
    assert (va = 0)%Z as -> by lia.
    assert (n = vb) as -> by lia.
    split.
    + destruct Fa as (_ & _ & _ & _ & _ & _ & _ & Fa). now rewrite <- (Fa La).
    + destruct Fb as (_ & _ & _ & _ & _ & _ & _ & Fb). exact (Fb Lb).
  - exists (Widget.hex_char (n / 16)), (Widget.hex_char (n mod 16)).
    split; [reflexivity|].
    split; [apply hex_char_lower; split;
            [apply Z.div_pos; lia|apply Z.div_lt_upper_bound; lia]|].
    split; [apply hex_char_lower; apply Z.mod_pos_bound; lia|].
    intros -> La Lb.
    assert (n = vb + va * 16)%Z as -> by (unfold n; lia).
    rewrite Z.div_add, Z.mod_add by lia.
    rewrite Z.div_small, Z.mod_small by lia. simpl.
    split.
    + destruct Fa as (_ & _ & _ & _ & _ & _ & _ & Fa). exact (Fa La).
    + destruct Fb as (_ & _ & _ & _ & _ & _ & _ & Fb). exact (Fb Lb).
Qed.

Lemma replace_pairs_hex (amount : Z) (n : nat) :
  forall h, (String.length h <= n)%nat ->
    Vocabulary.hexPairs h = true ->
    let r := Widget.replace_pairs (fun pair => Widget.component pair amount) h in
    String.length r = String.length h /\
    Vocabulary.lowerHex r = true /\
    (amount = 0%Z -> Vocabulary.lowerHex h = true -> r = h).
Proof.
  induction n as [|n IH]; intros h Hlen Hh.
  - destruct h; [|simpl in Hlen; lia]. simpl. auto.
  - destruct h as [|a [|b rest]]; [simpl; auto|discriminate|].
    cbn [Vocabulary.hexPairs] in Hh.
    apply andb_true_iff in Hh as [Hab Hrest].
    apply andb_true_iff in Hab as [Ha Hb].
    destruct (hex_digit_facts a Ha) as (_ & _ & _ & _ & La & _).
    destruct (hex_digit_facts b Hb) as (_ & _ & _ & _ & Lb & _).
    destruct (component_pair a b amount Ha Hb) as (x & y & Hc & Hx & Hy & Hsame).
    destruct (IH rest) as (IH1 & IH2 & IH3);
      [simpl in Hlen; lia|exact Hrest|].
    cbn [Widget.replace_pairs]. rewrite La, Lb. cbn [negb andb].
    rewrite Hc. cbn zeta.
    change (String x (String y EmptyString) +:+ ?t) with (String x (String y t)).
    split; [|split].
    + simpl. now rewrite IH1.
    + cbn [Vocabulary.lowerHex]. now rewrite Hx, Hy, IH2.
    + intros H0 Hl. cbn [Vocabulary.lowerHex] in Hl.
      apply andb_true_iff in Hl as [Hla Hl].
      apply andb_true_iff in Hl as [Hlb Hl].
      destruct (Hsame H0 Hla Hlb) as [-> ->]. now rewrite (IH3 H0 Hl).
Qed.

(** X30: For a colour written as a hash sign and pairs of digits of base 16,
    [adjustColor] returns as many digits, all of them digits in lower
    case: the hash sign is gone, with or without adjustment, and an
    adjustment by zero gives back the digits of a colour in lower case. *)
Theorem adjustColor_loses_hash (h : string) (amount : Z) :
  Vocabulary.hexPairs h = true ->
  String.length (Widget.adjustColor ("#" +:+ h) amount) = String.length h /\
  Vocabulary.lowerHex (Widget.adjustColor ("#" +:+ h) amount) = true /\
  (amount = 0%Z -> Vocabulary.lowerHex h = true ->
   Widget.adjustColor ("#" +:+ h) amount = h).
Proof.
  intros Hh. unfold Widget.adjustColor.
  change (Widget.strip_hash ("#" +:+ h)) with h.
  apply (replace_pairs_hex amount (String.length h) h (le_n _) Hh).
Qed.

Lemma adjustColor_loses_hash_witness :
  String.length (Widget.adjustColor ("#" +:+ "0070f4") (-20))
  = String.length "0070f4" /\
  Vocabulary.lowerHex (Widget.adjustColor ("#" +:+ "0070f4") (-20)) = true /\
  ((-20)%Z = 0%Z -> Vocabulary.lowerHex "0070f4" = true ->
   Widget.adjustColor ("#" +:+ "0070f4") (-20) = "0070f4").
Proof.
  apply (adjustColor_loses_hash "0070f4" (-20)). reflexivity.
Defined.
